(** * pg_num2int_direct_comp: exact numeric / float vs integer comparison

    A shallow embedding of [src/pg_num2int_direct_comp.c]: the direct
    inspection of PostgreSQL's [Numeric] digit array, the three-way
    comparators against fixed-width integers, the constant conversion and
    rewrite performed by the planner support function, and the hash
    adapters that mimic [hash_numeric]. *)

From Stdlib Require Import ZArith Lia List Bool.
Import ListNotations.
Local Open Scope Z_scope.

(** ** Integer limits (c.h) *)

Definition PG_INT16_MIN : Z := -32768.
Definition PG_INT16_MAX : Z := 32767.
Definition PG_INT32_MIN : Z := -2147483648.
Definition PG_INT32_MAX : Z := 2147483647.
Definition PG_INT64_MIN : Z := -9223372036854775808.
Definition PG_INT64_MAX : Z := 9223372036854775807.

Definition in_int16 (v : Z) : Prop := PG_INT16_MIN <= v <= PG_INT16_MAX.
Definition in_int32 (v : Z) : Prop := PG_INT32_MIN <= v <= PG_INT32_MAX.
Definition in_int64 (v : Z) : Prop := PG_INT64_MIN <= v <= PG_INT64_MAX.

(** ** The Numeric descriptor

    Both physical header layouts (short and long) are decoded into one
    descriptor, as [NUM2INT_NUMERIC_*] macros do field by field: a special
    tag, or a sign, a weight and the base-10000 digits, most significant
    first. *)

Definition NUM2INT_NBASE : Z := 10000.

Inductive NumSign := NUM2INT_NUMERIC_POS | NUM2INT_NUMERIC_NEG.

Inductive Numeric :=
| NumNaN
| NumPInf
| NumNInf
| NumFinite (sign : NumSign) (weight : Z) (digits : list Z).

Definition NUM2INT_NUMERIC_IS_SPECIAL (n : Numeric) : bool :=
  match n with NumFinite _ _ _ => false | _ => true end.

Definition NUM2INT_NUMERIC_IS_NAN (n : Numeric) : bool :=
  match n with NumNaN => true | _ => false end.

Definition NUM2INT_NUMERIC_IS_PINF (n : Numeric) : bool :=
  match n with NumPInf => true | _ => false end.

Definition NUM2INT_NUMERIC_NDIGITS (n : Numeric) : Z :=
  match n with NumFinite _ _ ds => Z.of_nat (length ds) | _ => 0 end.

Definition NUM2INT_NUMERIC_WEIGHT (n : Numeric) : Z :=
  match n with NumFinite _ w _ => w | _ => 0 end.

Definition NUM2INT_NUMERIC_SIGN (n : Numeric) : NumSign :=
  match n with NumFinite s _ _ => s | _ => NUM2INT_NUMERIC_POS end.

Definition NUM2INT_NUMERIC_DIGITS (n : Numeric) : list Z :=
  match n with NumFinite _ _ ds => ds | _ => [] end.

Definition is_pos (s : NumSign) : bool :=
  match s with NUM2INT_NUMERIC_POS => true | NUM2INT_NUMERIC_NEG => false end.

(** [(i < ndigits) ? digits[i] : 0] *)
Definition digit_at (ds : list Z) (i : nat) : Z := nth i ds 0.

(** The form PostgreSQL stores every finite numeric in ([make_result]
    strips leading and trailing zero digits; zero has no digits). *)
Definition numeric_wf (n : Numeric) : Prop :=
  match n with
  | NumFinite _ _ ds =>
      Forall (fun d => 0 <= d < NUM2INT_NBASE) ds /\
      (ds <> [] -> hd 0 ds <> 0 /\ last ds 0 <> 0)
  | _ => True
  end.

(** Decidable form of [numeric_wf], to check concrete values. *)
Definition numeric_wfb (n : Numeric) : bool :=
  match n with
  | NumFinite _ _ ds =>
      forallb (fun d => (0 <=? d) && (d <? NUM2INT_NBASE)) ds &&
      match ds with
      | [] => true
      | _ => negb (hd 0 ds =? 0) && negb (last ds 0 =? 0)
      end
  | _ => true
  end.

(** ** Decimal Digit Model *)

(** [num2int_numeric_sign] *)
Definition num2int_numeric_sign (num : Numeric) : Z :=
  if NUM2INT_NUMERIC_IS_SPECIAL num then
    if NUM2INT_NUMERIC_IS_NAN num then 0
    else if NUM2INT_NUMERIC_IS_PINF num then 1
    else -1
  else if NUM2INT_NUMERIC_NDIGITS num =? 0 then 0
  else if is_pos (NUM2INT_NUMERIC_SIGN num) then 1 else -1.

(** [num2int_numeric_is_integral] *)
Definition num2int_numeric_is_integral (num : Numeric) : bool :=
  if NUM2INT_NUMERIC_IS_SPECIAL num then negb (NUM2INT_NUMERIC_IS_NAN num)
  else if NUM2INT_NUMERIC_NDIGITS num =? 0 then true
  else NUM2INT_NUMERIC_NDIGITS num <=? NUM2INT_NUMERIC_WEIGHT num + 1.

(** The accumulation loop of [num2int_numeric_to_int64]:
    [for (i = 0; i <= weight; i++)], here from index [i] with [n] steps
    left.  [inl r] is an early [return r] ([None] for [return false]),
    [inr val] the accumulator when the loop ends. *)
Fixpoint to_int64_loop (pos : bool) (ds : list Z) (weight : Z)
    (i : nat) (n : nat) (val : Z) : option Z + Z :=
  match n with
  | O => inr val
  | S n' =>
      let digit := digit_at ds i in
      if val >? PG_INT64_MAX / NUM2INT_NBASE then inl None else
      let newval := val * NUM2INT_NBASE in
      if pos then
        if digit >? PG_INT64_MAX - newval then inl None
        else to_int64_loop pos ds weight (S i) n' (newval + digit)
      else
        if digit >? PG_INT64_MAX - newval then
          if (newval =? PG_INT64_MAX - digit + 1) && (Z.of_nat i =? weight)
          then inl (Some PG_INT64_MIN)
          else inl None
        else to_int64_loop pos ds weight (S i) n' (newval + digit)
  end.

(** [num2int_numeric_to_int64]: [Some v] for [return true] with
    [*result = v]. *)
Definition num2int_numeric_to_int64 (num : Numeric) : option Z :=
  if NUM2INT_NUMERIC_IS_SPECIAL num then None
  else
  let ndigits := NUM2INT_NUMERIC_NDIGITS num in
  if ndigits =? 0 then Some 0
  else
  let weight := NUM2INT_NUMERIC_WEIGHT num in
  let pos := is_pos (NUM2INT_NUMERIC_SIGN num) in
  if ndigits >? weight + 1 then None
  else if weight >? 4 then None
  else
    match to_int64_loop pos (NUM2INT_NUMERIC_DIGITS num) weight
            0 (Z.to_nat (weight + 1)) 0 with
    | inl r => r
    | inr val => Some (if pos then val else - val)
    end.

(** The integral-digit loop shared, line for line, by
    [num2int_numeric_floor_to_int64] and the fractional branch of
    [numeric_cmp_int64_direct]; [None] is the overflow exit. *)
Fixpoint floor_loop (ds : list Z) (i : nat) (n : nat) (floor_val : Z)
    : option Z :=
  match n with
  | O => Some floor_val
  | S n' =>
      let digit := digit_at ds i in
      if floor_val >? PG_INT64_MAX / NUM2INT_NBASE then None else
      let floor_val := floor_val * NUM2INT_NBASE in
      if digit >? PG_INT64_MAX - floor_val then None
      else floor_loop ds (S i) n' (floor_val + digit)
  end.

(** [num2int_numeric_floor_to_int64] (the caller has excluded NaN and
    the infinities). *)
Definition num2int_numeric_floor_to_int64 (num : Numeric) : option Z :=
  let ndigits := NUM2INT_NUMERIC_NDIGITS num in
  if ndigits =? 0 then Some 0
  else
  let weight := NUM2INT_NUMERIC_WEIGHT num in
  let pos := is_pos (NUM2INT_NUMERIC_SIGN num) in
  if weight >? 4 then None
  else
  let integral_ndigits := weight + 1 in
  if integral_ndigits <=? 0 then Some (if pos then 0 else -1)
  else if ndigits <=? integral_ndigits then num2int_numeric_to_int64 num
  else
    match floor_loop (NUM2INT_NUMERIC_DIGITS num) 0
            (Z.to_nat integral_ndigits) 0 with
    | None => None
    | Some floor_val => Some (if pos then floor_val else - floor_val - 1)
    end.

(** ** Cross-Type Comparator: numeric vs integer *)

(** [numeric_cmp_int64_direct] *)
Definition numeric_cmp_int64_direct (num : Numeric) (val : Z) : Z :=
  if NUM2INT_NUMERIC_IS_SPECIAL num then
    if NUM2INT_NUMERIC_IS_NAN num then 1
    else if NUM2INT_NUMERIC_IS_PINF num then 1
    else -1
  else
  let num_sign := num2int_numeric_sign num in
  let val_sign := if val >? 0 then 1 else if val <? 0 then -1 else 0 in
  if negb (num_sign =? val_sign) then
    if num_sign <? val_sign then -1 else 1
  else if num_sign =? 0 then 0
  else
  match num2int_numeric_to_int64 num with
  | Some num_as_int64 =>
      if num_as_int64 <? val then -1
      else if num_as_int64 >? val then 1
      else 0
  | None =>
      if num2int_numeric_is_integral num then num_sign
      else
      let weight := NUM2INT_NUMERIC_WEIGHT num in
      if weight >? 4 then num_sign
      else
      let integral_ndigits := weight + 1 in
      let floor_val :=
        if integral_ndigits <=? 0 then Some (if num_sign >? 0 then 0 else -1)
        else
          match floor_loop (NUM2INT_NUMERIC_DIGITS num) 0
                  (Z.to_nat integral_ndigits) 0 with
          | None => None
          | Some f => Some (if num_sign <? 0 then - f - 1 else f)
          end in
      match floor_val with
      | None => num_sign
      | Some floor_val => if floor_val <? val then -1 else 1
      end
  end.

(** The int2 / int4 / int8 entry points only widen the integer. *)
Definition numeric_cmp_int2_internal (num : Numeric) (val : Z) : Z :=
  numeric_cmp_int64_direct num val.
Definition numeric_cmp_int4_internal (num : Numeric) (val : Z) : Z :=
  numeric_cmp_int64_direct num val.
Definition numeric_cmp_int8_internal (num : Numeric) (val : Z) : Z :=
  numeric_cmp_int64_direct num val.

(** ** Exact value of a finite numeric

    A finite numeric with digits [ds] and weight [w] denotes
    [sign * M * 10000^(w + 1 - length ds)], where [M] reads [ds] as a
    base-10000 natural number. *)

Fixpoint horner (acc : Z) (ds : list Z) : Z :=
  match ds with
  | [] => acc
  | d :: ds' => horner (acc * NUM2INT_NBASE + d) ds'
  end.

Definition signed (s : NumSign) (m : Z) : Z := if is_pos s then m else - m.

(** Number of digits after the decimal point (negative when the last
    digit sits left of the units position). *)
Definition frac_digits (w : Z) (ds : list Z) : Z := Z.of_nat (length ds) - (w + 1).

(** The comparison of the exact rational value of [num] with the integer
    [i], denominators cleared: [sign * M / 10000^k] against [i] for
    [k > 0], [sign * M * 10000^-k] against [i] otherwise. *)
Definition exact_compare (num : Numeric) (i : Z) : comparison :=
  match num with
  | NumFinite s w ds =>
      let m := signed s (horner 0 ds) in
      let k := frac_digits w ds in
      if 0 <=? k then Z.compare m (i * NUM2INT_NBASE ^ k)
      else Z.compare (m * NUM2INT_NBASE ^ (- k)) i
  | NumNaN | NumPInf => Gt
  | NumNInf => Lt
  end.

Definition cmp_to_int (c : comparison) : Z :=
  match c with Lt => -1 | Eq => 0 | Gt => 1 end.

(** Truncated magnitude [floor |num|] and exact floor of a finite
    numeric. *)
Definition trunc_magnitude (w : Z) (ds : list Z) : Z :=
  let k := frac_digits w ds in
  if 0 <=? k then horner 0 ds / NUM2INT_NBASE ^ k
  else horner 0 ds * NUM2INT_NBASE ^ (- k).

Definition has_fraction_exact (w : Z) (ds : list Z) : bool :=
  0 <? frac_digits w ds.

(** Sample values. *)
Definition num_10_0 := NumFinite NUM2INT_NUMERIC_POS 0 [10].
Definition num_10_5 := NumFinite NUM2INT_NUMERIC_POS 0 [10; 5000].
Definition num_m100_5 := NumFinite NUM2INT_NUMERIC_NEG 0 [100; 5000].
Definition num_32767_5 := NumFinite NUM2INT_NUMERIC_POS 1 [3; 2767; 5000].
Definition num_1e20m1 :=
  NumFinite NUM2INT_NUMERIC_POS 4 [9999; 9999; 9999; 9999; 9999].
Definition num_int64_min :=
  NumFinite NUM2INT_NUMERIC_NEG 4 [922; 3372; 368; 5477; 5808].

(** ** Floating-point operands

    A float4 or float8 value: NaN, an infinity, or the finite value
    [m * 2^e].  The format only shows in the conversions from integers,
    which round to nearest, ties to even, at 24 (float4) or 53 (float8)
    significant bits. *)

Inductive Float : Type :=
| FloatNaN
| FloatInf (neg : bool)
| FloatFinite (m e : Z).

Definition isnan (f : Float) : bool :=
  match f with FloatNaN => true | _ => false end.
Definition isinf (f : Float) : bool :=
  match f with FloatInf _ => true | _ => false end.

(** IEEE ordered comparison; [None] when a NaN is involved. *)
Definition float_cmp (a b : Float) : option comparison :=
  match a, b with
  | FloatNaN, _ | _, FloatNaN => None
  | FloatInf n1, FloatInf n2 =>
      Some (if Bool.eqb n1 n2 then Eq else if n1 then Lt else Gt)
  | FloatInf n, FloatFinite _ _ => Some (if n then Lt else Gt)
  | FloatFinite _ _, FloatInf n => Some (if n then Gt else Lt)
  | FloatFinite m1 e1, FloatFinite m2 e2 =>
      let e := Z.min e1 e2 in
      Some (Z.compare (m1 * 2 ^ (e1 - e)) (m2 * 2 ^ (e2 - e)))
  end.

Definition float_lt (a b : Float) : bool :=
  match float_cmp a b with Some Lt => true | _ => false end.
Definition float_gt (a b : Float) : bool :=
  match float_cmp a b with Some Gt => true | _ => false end.
Definition float_eq (a b : Float) : bool :=
  match float_cmp a b with Some Eq => true | _ => false end.

Definition float_zero : Float := FloatFinite 0 0.

(** Round the integer [n] to [p] significant bits, to nearest, ties to
    even. *)
Definition round_int (p n : Z) : Z :=
  let a := Z.abs n in
  if a <? 2 ^ p then n
  else
    let s := Z.log2 a + 1 - p in
    let q := a / 2 ^ s in
    let r := a mod 2 ^ s in
    let h := 2 ^ (s - 1) in
    let q' := if r <? h then q
              else if h <? r then q + 1
              else if Z.even q then q else q + 1 in
    Z.sgn n * (q' * 2 ^ s).

(** [(float4) n] and [(float8) n] for an integer [n]. *)
Definition int_to_float4 (n : Z) : Float := FloatFinite (round_int 24 n) 0.
Definition int_to_float8 (n : Z) : Float := FloatFinite (round_int 53 n) 0.

(** [floor], [floorf] and [trunc]. *)
Definition float_floor (f : Float) : Float :=
  match f with
  | FloatFinite m e => if 0 <=? e then f else FloatFinite (m / 2 ^ (- e)) 0
  | _ => f
  end.
Definition float_trunc (f : Float) : Float :=
  match f with
  | FloatFinite m e => if 0 <=? e then f else FloatFinite (Z.quot m (2 ^ (- e))) 0
  | _ => f
  end.

(** A cast from floating point to an integer type of range [lo, hi]
    truncates toward zero.  Out of range the C cast is undefined; the
    value is modelled as the one x86 conversion instructions produce, the
    least integer of the type. *)
Definition float_to_int (lo hi : Z) (f : Float) : Z :=
  match f with
  | FloatFinite m e =>
      let t := if 0 <=? e then m * 2 ^ e else Z.quot m (2 ^ (- e)) in
      if (lo <=? t) && (t <=? hi) then t else lo
  | _ => lo
  end.
Definition float_to_int16 := float_to_int PG_INT16_MIN PG_INT16_MAX.
Definition float_to_int32 := float_to_int PG_INT32_MIN PG_INT32_MAX.
Definition float_to_int64 := float_to_int PG_INT64_MIN PG_INT64_MAX.

(** [llabs] on int64: the absolute value of [PG_INT64_MIN] wraps to
    itself. *)
Definition llabs (v : Z) : Z := if v =? PG_INT64_MIN then PG_INT64_MIN else Z.abs v.

(** ** Cross-Type Comparators: float vs integer

    In [fval < ival] the integer operand is converted to the floating
    type first (usual arithmetic conversions). *)

Definition float_special_cmp (fval : Float) (k : Z) : Z :=
  if isnan fval then 1
  else if isinf fval then (if float_gt fval float_zero then 1 else -1)
  else k.

Definition float4_cmp_int2_internal (fval : Float) (ival : Z) : Z :=
  float_special_cmp fval
    (let ival_as_float4 := int_to_float4 ival in
     if negb (float_to_int16 ival_as_float4 =? ival) then
       (if float_lt fval (int_to_float4 ival) then -1 else 1)
     else if float_lt fval ival_as_float4 then -1
     else if float_gt fval ival_as_float4 then 1
     else 0).

Definition float4_cmp_int4_internal (fval : Float) (ival : Z) : Z :=
  float_special_cmp fval
    (let ival_as_float4 := int_to_float4 ival in
     if (Z.abs ival >? 16777216) &&
        negb (float_to_int32 ival_as_float4 =? ival) then
       (if float_lt fval ival_as_float4 then -1
        else if float_gt fval ival_as_float4 then 1
        else if float_lt ival_as_float4 (int_to_float4 ival) then -1 else 1)
     else if float_lt fval ival_as_float4 then -1
     else if float_gt fval ival_as_float4 then 1
     else 0).

Definition float4_cmp_int8_internal (fval : Float) (ival : Z) : Z :=
  float_special_cmp fval
    (let ival_as_float4 := int_to_float4 ival in
     if (llabs ival >? 16777216) &&
        negb (float_to_int64 ival_as_float4 =? ival) then
       (if float_lt fval ival_as_float4 then -1
        else if float_gt fval ival_as_float4 then 1
        else if float_lt ival_as_float4 (int_to_float4 ival) then -1 else 1)
     else if float_lt fval ival_as_float4 then -1
     else if float_gt fval ival_as_float4 then 1
     else 0).

Definition float8_cmp_int2_internal (fval : Float) (ival : Z) : Z :=
  float_special_cmp fval
    (let ival_as_float8 := int_to_float8 ival in
     if float_lt fval ival_as_float8 then -1
     else if float_gt fval ival_as_float8 then 1
     else 0).

Definition float8_cmp_int4_internal (fval : Float) (ival : Z) : Z :=
  float_special_cmp fval
    (let ival_as_float8 := int_to_float8 ival in
     if float_lt fval ival_as_float8 then -1
     else if float_gt fval ival_as_float8 then 1
     else 0).

Definition float8_cmp_int8_internal (fval : Float) (ival : Z) : Z :=
  float_special_cmp fval
    (let fval_rounded := float_trunc fval in
     if negb (float_eq fval fval_rounded) then
       (if float_lt fval (int_to_float8 ival) then -1 else 1)
     else
     let ival_as_float8 := int_to_float8 ival in
     if (llabs ival >? 9007199254740992) &&
        negb (float_to_int64 ival_as_float8 =? ival) then
       (if float_lt fval ival_as_float8 then -1
        else if float_gt fval ival_as_float8 then 1
        else if float_lt ival_as_float8 (int_to_float8 ival) then -1 else 1)
     else if float_lt fval ival_as_float8 then -1
     else if float_gt fval ival_as_float8 then 1
     else 0).

(** ** Planner support: constant conversion and SupportRequestSimplify *)

Definition Oid := Z.
Definition InvalidOid : Oid := 0.
Definition INT8OID : Oid := 20.
Definition INT2OID : Oid := 21.
Definition INT4OID : Oid := 23.
Definition FLOAT4OID : Oid := 700.
Definition FLOAT8OID : Oid := 701.
Definition NUMERICOID : Oid := 1700.

Definition NUM2INT_INT2EQ_OID : Oid := 94.
Definition NUM2INT_INT2LT_OID : Oid := 95.
Definition NUM2INT_INT2GT_OID : Oid := 520.
Definition NUM2INT_INT2LE_OID : Oid := 522.
Definition NUM2INT_INT2GE_OID : Oid := 524.
Definition NUM2INT_INT2NE_OID : Oid := 519.
Definition NUM2INT_INT4EQ_OID : Oid := 96.
Definition NUM2INT_INT4LT_OID : Oid := 97.
Definition NUM2INT_INT4GT_OID : Oid := 521.
Definition NUM2INT_INT4LE_OID : Oid := 523.
Definition NUM2INT_INT4GE_OID : Oid := 525.
Definition NUM2INT_INT4NE_OID : Oid := 518.
Definition NUM2INT_INT8EQ_OID : Oid := 410.
Definition NUM2INT_INT8LT_OID : Oid := 412.
Definition NUM2INT_INT8GT_OID : Oid := 413.
Definition NUM2INT_INT8LE_OID : Oid := 414.
Definition NUM2INT_INT8GE_OID : Oid := 415.
Definition NUM2INT_INT8NE_OID : Oid := 411.

Inductive OpType : Type :=
| OP_TYPE_UNKNOWN | OP_TYPE_EQ | OP_TYPE_NE | OP_TYPE_LT
| OP_TYPE_GT | OP_TYPE_LE | OP_TYPE_GE.

Definition OpType_to_nat (t : OpType) : nat :=
  match t with
  | OP_TYPE_UNKNOWN => 0 | OP_TYPE_EQ => 1 | OP_TYPE_NE => 2 | OP_TYPE_LT => 3
  | OP_TYPE_GT => 4 | OP_TYPE_LE => 5 | OP_TYPE_GE => 6
  end.

Record OperatorEntry : Type := {
  oid : Oid;
  funcid : Oid;
  type : OpType
}.

(** [find_operator_by_funcid] over the operator cache of the backend. *)
Fixpoint find_operator_by_funcid (ops : list OperatorEntry) (fid : Oid)
  : Oid * OpType :=
  match ops with
  | [] => (InvalidOid, OP_TYPE_UNKNOWN)
  | e :: rest => if funcid e =? fid then (oid e, type e)
                 else find_operator_by_funcid rest fid
  end.

Definition int_type_index (int_type : Oid) : nat :=
  if int_type =? INT2OID then 0%nat
  else if int_type =? INT4OID then 1%nat
  else 2%nat.

Definition native_op_oids : list (list Oid) :=
  [ [NUM2INT_INT2EQ_OID; NUM2INT_INT4EQ_OID; NUM2INT_INT8EQ_OID];
    [NUM2INT_INT2NE_OID; NUM2INT_INT4NE_OID; NUM2INT_INT8NE_OID];
    [NUM2INT_INT2LT_OID; NUM2INT_INT4LT_OID; NUM2INT_INT8LT_OID];
    [NUM2INT_INT2GT_OID; NUM2INT_INT4GT_OID; NUM2INT_INT8GT_OID];
    [NUM2INT_INT2LE_OID; NUM2INT_INT4LE_OID; NUM2INT_INT8LE_OID];
    [NUM2INT_INT2GE_OID; NUM2INT_INT4GE_OID; NUM2INT_INT8GE_OID] ].

Definition get_native_op_oid (op_type : OpType) (int_type : Oid) : Oid :=
  match op_type with
  | OP_TYPE_UNKNOWN => InvalidOid
  | _ => nth (int_type_index int_type)
             (nth (pred (OpType_to_nat op_type)) native_op_oids []) InvalidOid
  end.

(** A constant of a numeric, float4 or float8 type. *)
Inductive Datum : Type :=
| DNumeric (n : Numeric)
| DFloat4 (f : Float)
| DFloat8 (f : Float).

Record Const : Type := {
  constisnull : bool;
  constvalue : Datum
}.

Definition consttype (c : Const) : Oid :=
  match constvalue c with
  | DNumeric _ => NUMERICOID
  | DFloat4 _ => FLOAT4OID
  | DFloat8 _ => FLOAT8OID
  end.

Record Var : Type := {
  varattno : Z;
  vartype : Oid
}.

Record ConstConversion : Type := {
  valid : bool;
  has_fraction : bool;
  out_of_range_high : bool;
  out_of_range_low : bool;
  int_val : Z
}.

Definition conv_init : ConstConversion :=
  {| valid := false; has_fraction := false; out_of_range_high := false;
     out_of_range_low := false; int_val := 0 |}.

(** The result of the range checks of [convert_const_to_int] once the
    floor [v] is known, for the range [lo, hi] of the target type. *)
Definition conv_range (lo_below hi_above : bool) (hf : bool) (v : Z)
  : ConstConversion :=
  if lo_below then
    {| valid := false; has_fraction := hf; out_of_range_high := false;
       out_of_range_low := true; int_val := v |}
  else if hi_above then
    {| valid := false; has_fraction := hf; out_of_range_high := true;
       out_of_range_low := false; int_val := v |}
  else
    {| valid := true; has_fraction := hf; out_of_range_high := false;
       out_of_range_low := false; int_val := v |}.

Definition FLOAT4_INT16_MIN := int_to_float4 PG_INT16_MIN.
Definition FLOAT4_INT16_MAX := int_to_float4 PG_INT16_MAX.
Definition FLOAT4_INT32_MIN := int_to_float4 PG_INT32_MIN.
Definition FLOAT4_INT32_MAX := int_to_float4 PG_INT32_MAX.
Definition FLOAT8_INT16_MIN := int_to_float8 PG_INT16_MIN.
Definition FLOAT8_INT16_MAX := int_to_float8 PG_INT16_MAX.
Definition FLOAT8_INT32_MIN := int_to_float8 PG_INT32_MIN.
Definition FLOAT8_INT32_MAX := int_to_float8 PG_INT32_MAX.
Definition FLOAT8_INT64_MIN := int_to_float8 PG_INT64_MIN.
Definition FLOAT8_INT64_MAX := int_to_float8 PG_INT64_MAX.

Definition convert_const_to_int (const_node : Const) (int_type : Oid)
  : ConstConversion :=
  if constisnull const_node then conv_init
  else
  match constvalue const_node with
  | DNumeric num =>
      if NUM2INT_NUMERIC_IS_SPECIAL num then conv_init
      else
      let hf := negb (num2int_numeric_is_integral num) in
      match num2int_numeric_floor_to_int64 num with
      | Some v =>
          if int_type =? INT2OID then
            conv_range (v <? PG_INT16_MIN) (v >? PG_INT16_MAX) hf v
          else if int_type =? INT4OID then
            conv_range (v <? PG_INT32_MIN) (v >? PG_INT32_MAX) hf v
          else conv_range false false hf v
      | None =>
          if num2int_numeric_sign num <? 0 then conv_range true false hf 0
          else conv_range false true hf 0
      end
  | DFloat4 fval =>
      if isnan fval || isinf fval then conv_init
      else
      let floor_val := float_floor fval in
      let hf := negb (float_eq fval floor_val) in
      if int_type =? INT2OID then
        conv_range (float_lt floor_val FLOAT4_INT16_MIN)
                   (float_gt floor_val FLOAT4_INT16_MAX) hf
                   (float_to_int16 floor_val)
      else if int_type =? INT4OID then
        conv_range (float_lt floor_val FLOAT4_INT32_MIN)
                   (float_gt floor_val FLOAT4_INT32_MAX) hf
                   (float_to_int32 floor_val)
      else if int_type =? INT8OID then
        conv_range false false hf (float_to_int64 floor_val)
      else {| valid := false; has_fraction := hf; out_of_range_high := false;
              out_of_range_low := false; int_val := 0 |}
  | DFloat8 dval =>
      if isnan dval || isinf dval then conv_init
      else
      let floor_val := float_floor dval in
      let hf := negb (float_eq dval floor_val) in
      if int_type =? INT2OID then
        conv_range (float_lt floor_val FLOAT8_INT16_MIN)
                   (float_gt floor_val FLOAT8_INT16_MAX) hf
                   (float_to_int16 floor_val)
      else if int_type =? INT4OID then
        conv_range (float_lt floor_val FLOAT8_INT32_MIN)
                   (float_gt floor_val FLOAT8_INT32_MAX) hf
                   (float_to_int32 floor_val)
      else if int_type =? INT8OID then
        conv_range (float_lt floor_val FLOAT8_INT64_MIN)
                   (float_gt floor_val FLOAT8_INT64_MAX) hf
                   (float_to_int64 floor_val)
      else {| valid := false; has_fraction := hf; out_of_range_high := false;
              out_of_range_low := false; int_val := 0 |}
  end.

(** Two's-complement narrowing of [v] to [bits] bits. *)
Definition wrap_signed (bits v : Z) : Z :=
  let m := 2 ^ bits in
  let r := v mod m in
  if r >=? m / 2 then r - m else r.

(** Expression nodes the support function returns. *)
Inductive Node : Type :=
| BoolConst (b : bool)
| OpExprNode (opno : Oid) (var : Var) (const_type : Oid) (const_val : Z).

Definition make_int_const (int_type : Oid) (v : Z) : Oid * Z :=
  if int_type =? INT2OID then (INT2OID, wrap_signed 16 v)
  else if int_type =? INT4OID then (INT4OID, wrap_signed 32 v)
  else (INT8OID, v).

Definition build_native_opexpr (native_op_oid : Oid) (var_node : Var)
    (v : Z) (int_type : Oid) : Node :=
  let '(t, k) := make_int_const int_type v in
  OpExprNode native_op_oid var_node t k.

Definition type_max (int_type : Oid) : Z :=
  if int_type =? INT2OID then PG_INT16_MAX
  else if int_type =? INT4OID then PG_INT32_MAX
  else PG_INT64_MAX.

(** [compute_range_transform]: the native operator, the adjusted value
    and the [is_always_true] and [is_always_false] flags. *)
Definition compute_range_transform (op_type : OpType) (int_type : Oid)
    (iv : Z) (hf : bool) : Oid * Z * bool * bool :=
  if hf then
    match op_type with
    | OP_TYPE_GT | OP_TYPE_GE =>
        if iv >=? type_max int_type then (InvalidOid, iv, false, true)
        else (get_native_op_oid OP_TYPE_GE int_type, iv + 1, false, false)
    | _ =>
        if iv >=? type_max int_type then (InvalidOid, iv, true, false)
        else (get_native_op_oid OP_TYPE_LE int_type, iv, false, false)
    end
  else (get_native_op_oid op_type int_type, iv, false, false).

(** Arguments of the operator's function call. *)
Inductive Arg : Type :=
| ArgVar (v : Var)
| ArgConst (c : Const)
| ArgOther.

Record FuncExpr : Type := {
  fcall_funcid : Oid;
  args : list Arg
}.

(** The [SupportRequestSimplify] branch of [num2int_support]; [None] is
    the NULL pointer (no simplification). *)
Definition num2int_support_simplify (ops : list OperatorEntry)
    (func : FuncExpr) : option Node :=
  match args func with
  | [leftop; rightop] =>
      let nodes :=
        match leftop, rightop with
        | ArgConst c, ArgVar v => Some (v, c)
        | ArgVar v, ArgConst c => Some (v, c)
        | _, _ => None
        end in
      match nodes with
      | None => None
      | Some (var_node, const_node) =>
          if constisnull const_node then None
          else
          let '(opno, op_type) := find_operator_by_funcid ops (fcall_funcid func) in
          if opno =? InvalidOid then None
          else
          let int_type := vartype var_node in
          let conv := convert_const_to_int const_node int_type in
          if out_of_range_high conv || out_of_range_low conv then
            match op_type with
            | OP_TYPE_EQ => Some (BoolConst false)
            | OP_TYPE_NE => Some (BoolConst true)
            | OP_TYPE_LT | OP_TYPE_LE => Some (BoolConst (out_of_range_high conv))
            | OP_TYPE_GT | OP_TYPE_GE => Some (BoolConst (out_of_range_low conv))
            | OP_TYPE_UNKNOWN => None
            end
          else if negb (valid conv) then None
          else
          match op_type with
          | OP_TYPE_EQ =>
              if has_fraction conv then Some (BoolConst false)
              else Some (build_native_opexpr (get_native_op_oid OP_TYPE_EQ int_type)
                           var_node (int_val conv) int_type)
          | OP_TYPE_NE =>
              if has_fraction conv then Some (BoolConst true)
              else Some (build_native_opexpr (get_native_op_oid OP_TYPE_NE int_type)
                           var_node (int_val conv) int_type)
          | _ =>
              let '(native_op_oid, adjusted_val, is_always_true, is_always_false) :=
                compute_range_transform op_type int_type (int_val conv)
                  (has_fraction conv) in
              if is_always_true then Some (BoolConst true)
              else if is_always_false then Some (BoolConst false)
              else Some (build_native_opexpr native_op_oid var_node adjusted_val
                           int_type)
          end
      end
  | _ => None
  end.

(** Stored numeric constants are well formed. *)
Definition const_wf (c : Const) : Prop :=
  match constvalue c with DNumeric n => numeric_wf n | _ => True end.

(** Invariant of a conversion result: at most one overflow direction, and
    none when the result is valid. *)
Definition conv_consistent (conv : ConstConversion) : bool :=
  negb (out_of_range_high conv && out_of_range_low conv) &&
  (negb (valid conv) || (negb (out_of_range_high conv) && negb (out_of_range_low conv))).

(** An operator cache with the integer-vs-numeric operators; the
    operator and function OIDs are assigned when the extension is
    created, these are sample ones. *)
Definition sample_ops : list OperatorEntry :=
  [ {| oid := 90001; funcid := 91001; type := OP_TYPE_EQ |};
    {| oid := 90002; funcid := 91002; type := OP_TYPE_NE |};
    {| oid := 90003; funcid := 91003; type := OP_TYPE_LT |};
    {| oid := 90004; funcid := 91004; type := OP_TYPE_GT |};
    {| oid := 90005; funcid := 91005; type := OP_TYPE_LE |};
    {| oid := 90006; funcid := 91006; type := OP_TYPE_GE |} ].

Definition col (t : Oid) : Var := {| varattno := 1; vartype := t |}.

(** [col op c] with [op] the sample operator of function [fid]. *)
Definition pred_col_const (fid : Oid) (t : Oid) (num : Numeric) : FuncExpr :=
  {| fcall_funcid := fid;
     args := [ArgVar (col t); ArgConst {| constisnull := false; constvalue := DNumeric num |}] |}.

(** A stored constant holding a numeric, or a float4 or float8 value. *)
Definition numeric_const (num : Numeric) : Const :=
  {| constisnull := false; constvalue := DNumeric num |}.

Definition float8_const (d : Float) : Const :=
  {| constisnull := false; constvalue := DFloat8 d |}.

(** ** Hash functions for cross-type equality *)

Section Hashing.

(** [hash_any] and [hash_any_extended] over the bytes of a digit array,
    here given the digits themselves. *)
Variable hash_any : list Z -> Z.
Variable hash_any_extended : list Z -> Z -> Z.

Definition UInt32 (x : Z) : Z := x mod 2 ^ 32.
Definition UInt64 (x : Z) : Z := x mod 2 ^ 64.

(** [while (uval > 0) digits[ndigits++] = uval % NBASE; uval /= NBASE;]
    into the 5-entry array [digits], least significant first. *)
Fixpoint base10000_digits (fuel : nat) (uval : Z) : list Z :=
  match fuel with
  | O => []
  | S f => if uval >? 0 then uval mod NUM2INT_NBASE :: base10000_digits f (uval / NUM2INT_NBASE)
           else []
  end.

Fixpoint drop_zeros (l : list Z) : list Z :=
  match l with
  | 0 :: r => drop_zeros r
  | _ => l
  end.

(** [while (ndigits > 0 && digits[ndigits - 1] == 0) ndigits--;] *)
Definition strip_trailing_zeros (l : list Z) : list Z := rev (drop_zeros (rev l)).

(** [uval], the magnitude of [val] as uint64. *)
Definition int64_magnitude (val : Z) : Z :=
  if val <? 0 then (if val =? PG_INT64_MIN then PG_INT64_MAX + 1 else - val)
  else val.

Definition hash_int64_as_numeric_internal (val : Z) : Z :=
  if val =? 0 then UInt32 (-1)
  else
  let digits := rev (base10000_digits 5 (int64_magnitude val)) in
  let weight := Z.of_nat (length digits) - 1 in
  let digits := strip_trailing_zeros digits in
  Z.lxor (UInt32 (hash_any digits)) (UInt32 weight).

Definition hash_int64_as_numeric_extended_internal (val seed : Z) : Z :=
  if val =? 0 then UInt64 (seed - 1)
  else
  let digits := rev (base10000_digits 5 (int64_magnitude val)) in
  let weight := Z.of_nat (length digits) - 1 in
  let digits := strip_trailing_zeros digits in
  Z.lxor (UInt64 (hash_any_extended digits seed)) (UInt64 weight).

Definition hash_int2_as_numeric (ival : Z) := hash_int64_as_numeric_internal ival.
Definition hash_int4_as_numeric (ival : Z) := hash_int64_as_numeric_internal ival.
Definition hash_int8_as_numeric (ival : Z) := hash_int64_as_numeric_internal ival.
Definition hash_int2_as_numeric_extended (ival seed : Z) :=
  hash_int64_as_numeric_extended_internal ival seed.
Definition hash_int4_as_numeric_extended (ival seed : Z) :=
  hash_int64_as_numeric_extended_internal ival seed.
Definition hash_int8_as_numeric_extended (ival seed : Z) :=
  hash_int64_as_numeric_extended_internal ival seed.

Fixpoint count_leading_zeros (l : list Z) : nat :=
  match l with
  | 0 :: r => S (count_leading_zeros r)
  | _ => O
  end.

(** Modelled from the spec: the native numeric hash of the host
    ([hash_numeric], [hash_numeric_extended]), as the hash section of the
    module describes it: leading and trailing zero digits are skipped, the
    weight is decremented for each leading zero, a value without nonzero
    digits hashes to -1 (extended: [seed - 1]), and otherwise the hash of
    the remaining digits is XORed with the weight.  NaN and the
    infinities hash to 0 (extended: [seed]). *)
Definition hash_numeric (key : Numeric) : Z :=
  match key with
  | NumFinite _ w ds =>
      let lead := count_leading_zeros ds in
      let weight := w - Z.of_nat lead in
      match skipn lead ds with
      | [] => UInt32 (-1)
      | rest => Z.lxor (UInt32 (hash_any (strip_trailing_zeros rest))) (UInt32 weight)
      end
  | _ => 0
  end.

Definition hash_numeric_extended (key : Numeric) (seed : Z) : Z :=
  match key with
  | NumFinite _ w ds =>
      let lead := count_leading_zeros ds in
      let weight := w - Z.of_nat lead in
      match skipn lead ds with
      | [] => UInt64 (seed - 1)
      | rest => Z.lxor (UInt64 (hash_any_extended (strip_trailing_zeros rest) seed))
                  (UInt64 weight)
      end
  | _ => UInt64 seed
  end.

End Hashing.

(** ** Equality and the SQL-callable operator functions *)

(** [numeric_eq_int64_direct] *)
Definition numeric_eq_int64_direct (num : Numeric) (val : Z) : bool :=
  if NUM2INT_NUMERIC_IS_SPECIAL num then false
  else
  let num_sign := num2int_numeric_sign num in
  let val_sign := if val >? 0 then 1 else if val <? 0 then -1 else 0 in
  if negb (num_sign =? val_sign) then false
  else if num_sign =? 0 then true
  else
  match num2int_numeric_to_int64 num with
  | None => false
  | Some num_as_int64 => num_as_int64 =? val
  end.

(** Btree support functions. *)
Definition numeric_cmp_int2 (num : Numeric) (val : Z) : Z := numeric_cmp_int2_internal num val.
Definition numeric_cmp_int4 (num : Numeric) (val : Z) : Z := numeric_cmp_int4_internal num val.
Definition numeric_cmp_int8 (num : Numeric) (val : Z) : Z := numeric_cmp_int8_internal num val.
Definition int2_cmp_numeric (val : Z) (num : Numeric) : Z := - numeric_cmp_int2_internal num val.
Definition int4_cmp_numeric (val : Z) (num : Numeric) : Z := - numeric_cmp_int4_internal num val.
Definition int8_cmp_numeric (val : Z) (num : Numeric) : Z := - numeric_cmp_int8_internal num val.

(** [numeric op int] operators. *)
Definition numeric_eq_int2 (num : Numeric) (val : Z) : bool := numeric_eq_int64_direct num val.
Definition numeric_eq_int4 (num : Numeric) (val : Z) : bool := numeric_eq_int64_direct num val.
Definition numeric_eq_int8 (num : Numeric) (val : Z) : bool := numeric_eq_int64_direct num val.
Definition numeric_ne_int2 (num : Numeric) (val : Z) : bool := negb (numeric_eq_int64_direct num val).
Definition numeric_ne_int4 (num : Numeric) (val : Z) : bool := negb (numeric_eq_int64_direct num val).
Definition numeric_ne_int8 (num : Numeric) (val : Z) : bool := negb (numeric_eq_int64_direct num val).
Definition numeric_lt_int2 (num : Numeric) (val : Z) : bool := numeric_cmp_int2_internal num val <? 0.
Definition numeric_lt_int4 (num : Numeric) (val : Z) : bool := numeric_cmp_int4_internal num val <? 0.
Definition numeric_lt_int8 (num : Numeric) (val : Z) : bool := numeric_cmp_int8_internal num val <? 0.
Definition numeric_gt_int2 (num : Numeric) (val : Z) : bool := numeric_cmp_int2_internal num val >? 0.
Definition numeric_gt_int4 (num : Numeric) (val : Z) : bool := numeric_cmp_int4_internal num val >? 0.
Definition numeric_gt_int8 (num : Numeric) (val : Z) : bool := numeric_cmp_int8_internal num val >? 0.
Definition numeric_le_int2 (num : Numeric) (val : Z) : bool := numeric_cmp_int2_internal num val <=? 0.
Definition numeric_le_int4 (num : Numeric) (val : Z) : bool := numeric_cmp_int4_internal num val <=? 0.
Definition numeric_le_int8 (num : Numeric) (val : Z) : bool := numeric_cmp_int8_internal num val <=? 0.
Definition numeric_ge_int2 (num : Numeric) (val : Z) : bool := numeric_cmp_int2_internal num val >=? 0.
Definition numeric_ge_int4 (num : Numeric) (val : Z) : bool := numeric_cmp_int4_internal num val >=? 0.
Definition numeric_ge_int8 (num : Numeric) (val : Z) : bool := numeric_cmp_int8_internal num val >=? 0.

(** [int op numeric] operators: the comparator is called with the
    operands swapped and its sign read the other way. *)
Definition int2_eq_numeric (val : Z) (num : Numeric) : bool := numeric_eq_int64_direct num val.
Definition int4_eq_numeric (val : Z) (num : Numeric) : bool := numeric_eq_int64_direct num val.
Definition int8_eq_numeric (val : Z) (num : Numeric) : bool := numeric_eq_int64_direct num val.
Definition int2_ne_numeric (val : Z) (num : Numeric) : bool := negb (numeric_eq_int64_direct num val).
Definition int4_ne_numeric (val : Z) (num : Numeric) : bool := negb (numeric_eq_int64_direct num val).
Definition int8_ne_numeric (val : Z) (num : Numeric) : bool := negb (numeric_eq_int64_direct num val).
Definition int2_lt_numeric (ival : Z) (num : Numeric) : bool := numeric_cmp_int2_internal num ival >? 0.
Definition int4_lt_numeric (ival : Z) (num : Numeric) : bool := numeric_cmp_int4_internal num ival >? 0.
Definition int8_lt_numeric (ival : Z) (num : Numeric) : bool := numeric_cmp_int8_internal num ival >? 0.
Definition int2_gt_numeric (ival : Z) (num : Numeric) : bool := numeric_cmp_int2_internal num ival <? 0.
Definition int4_gt_numeric (ival : Z) (num : Numeric) : bool := numeric_cmp_int4_internal num ival <? 0.
Definition int8_gt_numeric (ival : Z) (num : Numeric) : bool := numeric_cmp_int8_internal num ival <? 0.
Definition int2_le_numeric (ival : Z) (num : Numeric) : bool := numeric_cmp_int2_internal num ival >=? 0.
Definition int4_le_numeric (ival : Z) (num : Numeric) : bool := numeric_cmp_int4_internal num ival >=? 0.
Definition int8_le_numeric (ival : Z) (num : Numeric) : bool := numeric_cmp_int8_internal num ival >=? 0.
Definition int2_ge_numeric (ival : Z) (num : Numeric) : bool := numeric_cmp_int2_internal num ival <=? 0.
Definition int4_ge_numeric (ival : Z) (num : Numeric) : bool := numeric_cmp_int4_internal num ival <=? 0.
Definition int8_ge_numeric (ival : Z) (num : Numeric) : bool := numeric_cmp_int8_internal num ival <=? 0.

(** Float equality operators, both operand orders. *)
Definition float4_eq_int2 (fval : Float) (ival : Z) : bool := float4_cmp_int2_internal fval ival =? 0.
Definition float4_eq_int4 (fval : Float) (ival : Z) : bool := float4_cmp_int4_internal fval ival =? 0.
Definition float4_eq_int8 (fval : Float) (ival : Z) : bool := float4_cmp_int8_internal fval ival =? 0.
Definition float8_eq_int2 (fval : Float) (ival : Z) : bool := float8_cmp_int2_internal fval ival =? 0.
Definition float8_eq_int4 (fval : Float) (ival : Z) : bool := float8_cmp_int4_internal fval ival =? 0.
Definition float8_eq_int8 (fval : Float) (ival : Z) : bool := float8_cmp_int8_internal fval ival =? 0.
Definition int2_eq_float4 (ival : Z) (fval : Float) : bool := float4_cmp_int2_internal fval ival =? 0.
Definition int4_eq_float4 (ival : Z) (fval : Float) : bool := float4_cmp_int4_internal fval ival =? 0.
Definition int8_eq_float4 (ival : Z) (fval : Float) : bool := float4_cmp_int8_internal fval ival =? 0.
Definition int2_eq_float8 (ival : Z) (fval : Float) : bool := float8_cmp_int2_internal fval ival =? 0.
Definition int4_eq_float8 (ival : Z) (fval : Float) : bool := float8_cmp_int4_internal fval ival =? 0.
Definition int8_eq_float8 (ival : Z) (fval : Float) : bool := float8_cmp_int8_internal fval ival =? 0.

(** What a comparison result [c] of the left against the right operand
    means for an operator of kind [op]. *)
Definition cmp_holds (op : OpType) (c : comparison) : bool :=
  match op, c with
  | OP_TYPE_EQ, Eq => true
  | OP_TYPE_NE, (Lt | Gt) => true
  | OP_TYPE_LT, Lt => true
  | OP_TYPE_GT, Gt => true
  | OP_TYPE_LE, (Lt | Eq) => true
  | OP_TYPE_GE, (Gt | Eq) => true
  | _, _ => false
  end.

(** The [numeric op int] functions with the operator kind their names
    carry. *)
Definition numeric_int_operators : list (OpType * (Numeric -> Z -> bool)) :=
  [ (OP_TYPE_EQ, numeric_eq_int2); (OP_TYPE_EQ, numeric_eq_int4); (OP_TYPE_EQ, numeric_eq_int8);
    (OP_TYPE_NE, numeric_ne_int2); (OP_TYPE_NE, numeric_ne_int4); (OP_TYPE_NE, numeric_ne_int8);
    (OP_TYPE_LT, numeric_lt_int2); (OP_TYPE_LT, numeric_lt_int4); (OP_TYPE_LT, numeric_lt_int8);
    (OP_TYPE_GT, numeric_gt_int2); (OP_TYPE_GT, numeric_gt_int4); (OP_TYPE_GT, numeric_gt_int8);
    (OP_TYPE_LE, numeric_le_int2); (OP_TYPE_LE, numeric_le_int4); (OP_TYPE_LE, numeric_le_int8);
    (OP_TYPE_GE, numeric_ge_int2); (OP_TYPE_GE, numeric_ge_int4); (OP_TYPE_GE, numeric_ge_int8) ].

(** The [int op numeric] function of an integer type and operator kind. *)
Definition int_numeric_operator (int_type : Oid) (op : OpType) : Z -> Numeric -> bool :=
  let pick f2 f4 f8 :=
    if int_type =? INT2OID then f2 else if int_type =? INT4OID then f4 else f8 in
  match op with
  | OP_TYPE_EQ => pick int2_eq_numeric int4_eq_numeric int8_eq_numeric
  | OP_TYPE_NE => pick int2_ne_numeric int4_ne_numeric int8_ne_numeric
  | OP_TYPE_LT => pick int2_lt_numeric int4_lt_numeric int8_lt_numeric
  | OP_TYPE_GT => pick int2_gt_numeric int4_gt_numeric int8_gt_numeric
  | OP_TYPE_LE => pick int2_le_numeric int4_le_numeric int8_le_numeric
  | OP_TYPE_GE => pick int2_ge_numeric int4_ge_numeric int8_ge_numeric
  | OP_TYPE_UNKNOWN => fun _ _ => false
  end.

(** The [int op float] functions; each calls the [float op int]
    comparator with the operands swapped. *)
Definition int2_ne_float4 (ival : Z) (fval : Float) : bool :=
  negb (float4_cmp_int2_internal fval ival =? 0).
Definition int2_ne_float8 (ival : Z) (fval : Float) : bool :=
  negb (float8_cmp_int2_internal fval ival =? 0).
Definition int4_ne_float4 (ival : Z) (fval : Float) : bool :=
  negb (float4_cmp_int4_internal fval ival =? 0).
Definition int4_ne_float8 (ival : Z) (fval : Float) : bool :=
  negb (float8_cmp_int4_internal fval ival =? 0).
Definition int8_ne_float4 (ival : Z) (fval : Float) : bool :=
  negb (float4_cmp_int8_internal fval ival =? 0).
Definition int8_ne_float8 (ival : Z) (fval : Float) : bool :=
  negb (float8_cmp_int8_internal fval ival =? 0).
Definition int2_lt_float4 (ival : Z) (fval : Float) : bool :=
  float4_cmp_int2_internal fval ival >? 0.
Definition int2_lt_float8 (ival : Z) (fval : Float) : bool :=
  float8_cmp_int2_internal fval ival >? 0.
Definition int4_lt_float4 (ival : Z) (fval : Float) : bool :=
  float4_cmp_int4_internal fval ival >? 0.
Definition int4_lt_float8 (ival : Z) (fval : Float) : bool :=
  float8_cmp_int4_internal fval ival >? 0.
Definition int8_lt_float4 (ival : Z) (fval : Float) : bool :=
  float4_cmp_int8_internal fval ival >? 0.
Definition int8_lt_float8 (ival : Z) (fval : Float) : bool :=
  float8_cmp_int8_internal fval ival >? 0.
Definition int2_gt_float4 (ival : Z) (fval : Float) : bool :=
  float4_cmp_int2_internal fval ival <? 0.
Definition int2_gt_float8 (ival : Z) (fval : Float) : bool :=
  float8_cmp_int2_internal fval ival <? 0.
Definition int4_gt_float4 (ival : Z) (fval : Float) : bool :=
  float4_cmp_int4_internal fval ival <? 0.
Definition int4_gt_float8 (ival : Z) (fval : Float) : bool :=
  float8_cmp_int4_internal fval ival <? 0.
Definition int8_gt_float4 (ival : Z) (fval : Float) : bool :=
  float4_cmp_int8_internal fval ival <? 0.
Definition int8_gt_float8 (ival : Z) (fval : Float) : bool :=
  float8_cmp_int8_internal fval ival <? 0.
Definition int2_le_float4 (ival : Z) (fval : Float) : bool :=
  float4_cmp_int2_internal fval ival >=? 0.
Definition int2_le_float8 (ival : Z) (fval : Float) : bool :=
  float8_cmp_int2_internal fval ival >=? 0.
Definition int4_le_float4 (ival : Z) (fval : Float) : bool :=
  float4_cmp_int4_internal fval ival >=? 0.
Definition int4_le_float8 (ival : Z) (fval : Float) : bool :=
  float8_cmp_int4_internal fval ival >=? 0.
Definition int8_le_float4 (ival : Z) (fval : Float) : bool :=
  float4_cmp_int8_internal fval ival >=? 0.
Definition int8_le_float8 (ival : Z) (fval : Float) : bool :=
  float8_cmp_int8_internal fval ival >=? 0.
Definition int2_ge_float4 (ival : Z) (fval : Float) : bool :=
  float4_cmp_int2_internal fval ival <=? 0.
Definition int2_ge_float8 (ival : Z) (fval : Float) : bool :=
  float8_cmp_int2_internal fval ival <=? 0.
Definition int4_ge_float4 (ival : Z) (fval : Float) : bool :=
  float4_cmp_int4_internal fval ival <=? 0.
Definition int4_ge_float8 (ival : Z) (fval : Float) : bool :=
  float8_cmp_int4_internal fval ival <=? 0.
Definition int8_ge_float4 (ival : Z) (fval : Float) : bool :=
  float4_cmp_int8_internal fval ival <=? 0.
Definition int8_ge_float8 (ival : Z) (fval : Float) : bool :=
  float8_cmp_int8_internal fval ival <=? 0.

(** The [int op float] function of a float type, an integer type and an
    operator kind. *)
Definition int_float_operator (float_type int_type : Oid) (op : OpType)
    : Z -> Float -> bool :=
  let pick f2 f4 f8 :=
    if int_type =? INT2OID then f2 else if int_type =? INT4OID then f4 else f8 in
  let pickf g4 g8 := if float_type =? FLOAT4OID then g4 else g8 in
  match op with
  | OP_TYPE_EQ => pickf (pick int2_eq_float4 int4_eq_float4 int8_eq_float4)
                        (pick int2_eq_float8 int4_eq_float8 int8_eq_float8)
  | OP_TYPE_NE => pickf (pick int2_ne_float4 int4_ne_float4 int8_ne_float4)
                        (pick int2_ne_float8 int4_ne_float8 int8_ne_float8)
  | OP_TYPE_LT => pickf (pick int2_lt_float4 int4_lt_float4 int8_lt_float4)
                        (pick int2_lt_float8 int4_lt_float8 int8_lt_float8)
  | OP_TYPE_GT => pickf (pick int2_gt_float4 int4_gt_float4 int8_gt_float4)
                        (pick int2_gt_float8 int4_gt_float8 int8_gt_float8)
  | OP_TYPE_LE => pickf (pick int2_le_float4 int4_le_float4 int8_le_float4)
                        (pick int2_le_float8 int4_le_float8 int8_le_float8)
  | OP_TYPE_GE => pickf (pick int2_ge_float4 int4_ge_float4 int8_ge_float4)
                        (pick int2_ge_float8 int4_ge_float8 int8_ge_float8)
  | OP_TYPE_UNKNOWN => fun _ _ => false
  end.

(** ** Planner support: SupportRequestIndexCondition *)

(** [classify_operator]: linear scan of the operator cache by operator
    OID. *)
Fixpoint classify_operator (ops : list OperatorEntry) (opno : Oid) : OpType :=
  match ops with
  | [] => OP_TYPE_UNKNOWN
  | e :: rest => if oid e =? opno then type e else classify_operator rest opno
  end.

(** An operator clause [req->node]: its operator and arguments. *)
Record OpExpr : Type := {
  opexpr_opno : Oid;
  opexpr_args : list Arg
}.

(** The [SupportRequestIndexCondition] branch of [num2int_support]:
    [req->node] is [Some] clause when [is_opclause] holds; the result is
    the value left in [req->lossy] and the returned list ([None] for
    NULL). *)
Definition num2int_support_index_condition (ops : list OperatorEntry)
    (req_node : option OpExpr) : bool * option (list Node) :=
  let lossy := false in
  match req_node with
  | None => (lossy, None)
  | Some clause =>
  match opexpr_args clause with
  | [leftop; rightop] =>
      let nodes :=
        match leftop, rightop with
        | ArgConst c, ArgVar v => Some (v, c)
        | ArgVar v, ArgConst c => Some (v, c)
        | _, _ => None
        end in
      match nodes with
      | None => (lossy, None)
      | Some (var_node, const_node) =>
          let op_type := classify_operator ops (opexpr_opno clause) in
          match op_type with
          | OP_TYPE_UNKNOWN => (lossy, None)
          | _ =>
          let int_type := vartype var_node in
          let conv := convert_const_to_int const_node int_type in
          if negb (valid conv) then (lossy, None)
          else if (match op_type with OP_TYPE_EQ => true | _ => false end)
                  && has_fraction conv then (lossy, None)
          else
          let '(native_op_oid, adjusted_val) :=
            match op_type with
            | OP_TYPE_EQ | OP_TYPE_NE =>
                (get_native_op_oid op_type int_type, int_val conv)
            | _ =>
                let '(native_op_oid, adjusted_val, is_always_true, is_always_false) :=
                  compute_range_transform op_type int_type (int_val conv)
                    (has_fraction conv) in
                if is_always_true then
                  (get_native_op_oid OP_TYPE_LE int_type, type_max int_type)
                else if is_always_false then
                  (get_native_op_oid OP_TYPE_GT int_type, type_max int_type)
                else (native_op_oid, adjusted_val)
            end in
          (lossy, Some [build_native_opexpr native_op_oid var_node adjusted_val int_type])
          end
      end
  | _ => (lossy, None)
  end
  end.

(** ** Meaning of the rewritten predicates *)

(** The builtin integer operators named by the native OIDs
    ([int2 = int2], [int4 < int4], ...), applied to the column value [x]
    and the constant [k]. *)
Definition native_op_holds (opno : Oid) (x k : Z) : option bool :=
  let is_one l := existsb (Z.eqb opno) l in
  if is_one [NUM2INT_INT2EQ_OID; NUM2INT_INT4EQ_OID; NUM2INT_INT8EQ_OID] then Some (x =? k)
  else if is_one [NUM2INT_INT2NE_OID; NUM2INT_INT4NE_OID; NUM2INT_INT8NE_OID] then
    Some (negb (x =? k))
  else if is_one [NUM2INT_INT2LT_OID; NUM2INT_INT4LT_OID; NUM2INT_INT8LT_OID] then Some (x <? k)
  else if is_one [NUM2INT_INT2GT_OID; NUM2INT_INT4GT_OID; NUM2INT_INT8GT_OID] then Some (k <? x)
  else if is_one [NUM2INT_INT2LE_OID; NUM2INT_INT4LE_OID; NUM2INT_INT8LE_OID] then Some (x <=? k)
  else if is_one [NUM2INT_INT2GE_OID; NUM2INT_INT4GE_OID; NUM2INT_INT8GE_OID] then Some (k <=? x)
  else None.

(** The value of a returned node on a row whose column holds [x]. *)
Definition node_holds (n : Node) (x : Z) : option bool :=
  match n with
  | BoolConst b => Some b
  | OpExprNode opno _ _ k => native_op_holds opno x k
  end.

(** The values a column of type [int_type] can hold. *)
Definition in_int_type (int_type : Oid) (x : Z) : Prop :=
  if int_type =? INT2OID then in_int16 x
  else if int_type =? INT4OID then in_int32 x
  else in_int64 x.

(** The integer types the operators take. *)
Definition int_type_ok (t : Oid) : Prop := t = INT2OID \/ t = INT4OID \/ t = INT8OID.

(** ** Hashing integers as floats *)

Section FloatHashing.

(** The host's [hashfloat4], [hashfloat4extended], [hashfloat8] and
    [hashfloat8extended]. *)
Variable hashfloat4 : Float -> Z.
Variable hashfloat4extended : Float -> Z -> Z.
Variable hashfloat8 : Float -> Z.
Variable hashfloat8extended : Float -> Z -> Z.

Definition hash_int2_as_float4 (ival : Z) : Z := hashfloat4 (int_to_float4 ival).
Definition hash_int4_as_float4 (ival : Z) : Z := hashfloat4 (int_to_float4 ival).
Definition hash_int8_as_float4 (ival : Z) : Z := hashfloat4 (int_to_float4 ival).
Definition hash_int2_as_float4_extended (ival seed : Z) : Z :=
  hashfloat4extended (int_to_float4 ival) seed.
Definition hash_int4_as_float4_extended (ival seed : Z) : Z :=
  hashfloat4extended (int_to_float4 ival) seed.
Definition hash_int8_as_float4_extended (ival seed : Z) : Z :=
  hashfloat4extended (int_to_float4 ival) seed.
Definition hash_int2_as_float8 (ival : Z) : Z := hashfloat8 (int_to_float8 ival).
Definition hash_int4_as_float8 (ival : Z) : Z := hashfloat8 (int_to_float8 ival).
Definition hash_int8_as_float8 (ival : Z) : Z := hashfloat8 (int_to_float8 ival).
Definition hash_int2_as_float8_extended (ival seed : Z) : Z :=
  hashfloat8extended (int_to_float8 ival) seed.
Definition hash_int4_as_float8_extended (ival seed : Z) : Z :=
  hashfloat8extended (int_to_float8 ival) seed.
Definition hash_int8_as_float8_extended (ival seed : Z) : Z :=
  hashfloat8extended (int_to_float8 ival) seed.

End FloatHashing.

Example cmp_ex1 : numeric_cmp_int64_direct num_10_5 10 = 1.
Proof. reflexivity. Qed.
Example cmp_ex2 : numeric_cmp_int64_direct num_10_5 11 = -1.
Proof. reflexivity. Qed.
Example cmp_ex3 : numeric_cmp_int64_direct num_m100_5 (-101) = 1.
Proof. reflexivity. Qed.
Example cmp_ex4 : numeric_cmp_int64_direct num_m100_5 (-100) = -1.
Proof. reflexivity. Qed.
Example cmp_ex5 : numeric_cmp_int64_direct num_int64_min PG_INT64_MIN = 0.
Proof. reflexivity. Qed.
Example floor_ex1 : num2int_numeric_floor_to_int64 num_m100_5 = Some (-101).
Proof. reflexivity. Qed.
Example floor_ex2 : num2int_numeric_floor_to_int64 num_1e20m1 = None.
Proof. reflexivity. Qed.

(** ** Lemmas on the digit model *)

Section DigitLemmas.

Lemma B_pos : 0 < NUM2INT_NBASE.
Proof. unfold NUM2INT_NBASE; lia. Qed.

Lemma max_div_B : PG_INT64_MAX / NUM2INT_NBASE = 922337203685477.
Proof. reflexivity. Qed.

Lemma horner_app acc l1 l2 :
  horner acc (l1 ++ l2) = horner (horner acc l1) l2.
Proof. revert acc; induction l1 as [|d l1 IH]; intros acc; simpl; auto. Qed.

Lemma horner_acc acc l :
  horner acc l = acc * NUM2INT_NBASE ^ Z.of_nat (length l) + horner 0 l.
Proof.
  revert acc; induction l as [|d l IH]; intros acc; cbn [horner length].
  - lia.
  - rewrite (IH (acc * NUM2INT_NBASE + d)), (IH (0 * NUM2INT_NBASE + d)).
    rewrite Nat2Z.inj_succ, Z.pow_succ_r by lia. ring.
Qed.

Lemma horner_nonneg l :
  Forall (fun d => 0 <= d) l -> 0 <= horner 0 l.
Proof.
  intros H. induction H as [|d l Hd Hl IH]; cbn [horner length]; [lia|].
  rewrite horner_acc. pose proof B_pos.
  pose proof (Z.pow_nonneg NUM2INT_NBASE (Z.of_nat (length l))). nia.
Qed.

Lemma horner_lt l :
  Forall (fun d => 0 <= d < NUM2INT_NBASE) l ->
  horner 0 l < NUM2INT_NBASE ^ Z.of_nat (length l).
Proof.
  intros H. induction H as [|d l Hd Hl IH]; cbn [horner length]; [simpl; lia|].
  rewrite horner_acc, Nat2Z.inj_succ, Z.pow_succ_r by lia.
  nia.
Qed.

Lemma horner_repeat0 acc n :
  horner acc (repeat 0 n) = acc * NUM2INT_NBASE ^ Z.of_nat n.
Proof.
  rewrite horner_acc, repeat_length.
  assert (H : horner 0 (repeat 0 n) = 0).
  { induction n; simpl; auto. }
  rewrite H; lia.
Qed.

Lemma horner_ge_acc acc l :
  0 <= acc -> Forall (fun d => 0 <= d) l ->
  acc * NUM2INT_NBASE ^ Z.of_nat (length l) <= horner acc l.
Proof.
  intros Ha Hl. rewrite horner_acc. pose proof (horner_nonneg l Hl). lia.
Qed.

(** A numeric whose leading digit is nonzero reads at least
    [10000^(ndigits-1)]. *)
Lemma horner_lower d l :
  1 <= d -> Forall (fun x => 0 <= x) l ->
  NUM2INT_NBASE ^ Z.of_nat (length l) <= horner 0 (d :: l).
Proof.
  intros Hd Hl. cbn [horner]. rewrite horner_acc.
  pose proof (horner_nonneg l Hl).
  pose proof (Z.pow_nonneg NUM2INT_NBASE (Z.of_nat (length l))).
  unfold NUM2INT_NBASE in *. nia.
Qed.

(** A digit list ending in a nonzero digit reads at least 1. *)
Lemma horner_last_pos l :
  Forall (fun d => 0 <= d) l -> l <> [] -> last l 0 <> 0 -> 1 <= horner 0 l.
Proof.
  intros Hf Hne Hl.
  destruct (exists_last Hne) as [l' [x ->]].
  rewrite last_last in Hl. rewrite horner_app. simpl.
  apply Forall_app in Hf as [Hf1 Hf2]. inversion Hf2; subst.
  pose proof (horner_nonneg l' Hf1). pose proof B_pos. nia.
Qed.

Lemma digit_at_nonneg ds j :
  Forall (fun d => 0 <= d) ds -> 0 <= digit_at ds j.
Proof.
  intros H. unfold digit_at. revert j.
  induction H as [|d l Hd Hl IH]; intros [|j]; simpl; auto; lia.
Qed.

Lemma map_digit_at_seq ds n :
  map (digit_at ds) (seq 0 n) = firstn n ds ++ repeat 0 (n - length ds).
Proof.
  revert n; induction ds as [|d ds IH]; intros n.
  - rewrite firstn_nil, Nat.sub_0_r. simpl.
    transitivity (map (fun _ : nat => 0) (seq 0 n)).
    + apply map_ext. intros [|a]; reflexivity.
    + rewrite map_const, length_seq. reflexivity.
  - destruct n as [|n]; simpl; auto.
    rewrite <- seq_shift, map_map. f_equal. apply IH.
Qed.

Lemma map_digit_at_nonneg ds l :
  Forall (fun d => 0 <= d) ds -> Forall (fun d => 0 <= d) (map (digit_at ds) l).
Proof.
  intros H. apply Forall_forall. intros x Hx.
  apply in_map_iff in Hx as [j [<- _]]. now apply digit_at_nonneg.
Qed.

Lemma pow_B_ge1 n : 1 <= NUM2INT_NBASE ^ Z.of_nat n.
Proof.
  pose proof (Z.pow_pos_nonneg NUM2INT_NBASE (Z.of_nat n) B_pos (Nat2Z.is_nonneg n)). lia.
Qed.

(** The overflow-checked accumulation computes the base-10000 reading of
    the digits it walks, and fails exactly when that reading exceeds
    [PG_INT64_MAX]. *)
Lemma floor_loop_spec ds i n v :
  0 <= v <= PG_INT64_MAX -> Forall (fun d => 0 <= d) ds ->
  floor_loop ds i n v =
  let h := horner v (map (digit_at ds) (seq i n)) in
  if h <=? PG_INT64_MAX then Some h else None.
Proof.
  intros Hv Hds. revert i v Hv.
  induction n as [|n IH]; intros i v Hv; cbn [floor_loop seq map horner].
  - destruct (Z.leb_spec v PG_INT64_MAX); [reflexivity | lia].
  - rewrite max_div_B.
    pose proof (digit_at_nonneg ds i Hds) as Hd.
    set (d := digit_at ds i) in *.
    set (rest := map (digit_at ds) (seq (S i) n)).
    assert (Hr : Forall (fun x => 0 <= x) rest) by now apply map_digit_at_nonneg.
    assert (Hge : (v * NUM2INT_NBASE + d) <= horner (v * NUM2INT_NBASE + d) rest).
    { assert (0 <= v * NUM2INT_NBASE + d) by (unfold NUM2INT_NBASE; lia).
      pose proof (horner_ge_acc (v * NUM2INT_NBASE + d) rest ltac:(assumption) Hr) as G.
      pose proof (pow_B_ge1 (length rest)). unfold NUM2INT_NBASE in *. nia. }
    unfold NUM2INT_NBASE in *.
    destruct (Z.gtb_spec v 922337203685477).
    + destruct (Z.leb_spec (horner (v * 10000 + d) rest) PG_INT64_MAX);
        [unfold PG_INT64_MAX in *; lia | reflexivity].
    + destruct (Z.gtb_spec d (PG_INT64_MAX - v * 10000)).
      * destruct (Z.leb_spec (horner (v * 10000 + d) rest) PG_INT64_MAX);
          [lia | reflexivity].
      * apply IH. unfold PG_INT64_MAX in *. lia.
Qed.

Lemma to_int64_loop_pos_spec ds w i n v :
  0 <= v <= PG_INT64_MAX -> Forall (fun d => 0 <= d) ds ->
  to_int64_loop true ds w i n v =
  match floor_loop ds i n v with Some h => inr h | None => inl None end.
Proof.
  intros Hv Hds. revert i v Hv.
  induction n as [|n IH]; intros i v Hv; cbn [to_int64_loop floor_loop]; auto.
  rewrite max_div_B. pose proof (digit_at_nonneg ds i Hds).
  unfold NUM2INT_NBASE.
  destruct (Z.gtb_spec v 922337203685477); auto.
  destruct (Z.gtb_spec (digit_at ds i) (PG_INT64_MAX - v * 10000)); auto.
  apply IH. unfold PG_INT64_MAX in *. lia.
Qed.

(** For a negative numeric the walk also accepts a magnitude of exactly
    [PG_INT64_MAX + 1] on its last step, returning [PG_INT64_MIN]. *)
Lemma to_int64_loop_neg_spec ds w i n v :
  0 <= v <= PG_INT64_MAX -> Forall (fun d => 0 <= d) ds ->
  Z.of_nat i + Z.of_nat n = w + 1 ->
  to_int64_loop false ds w i n v =
  let h := horner v (map (digit_at ds) (seq i n)) in
  if h <=? PG_INT64_MAX then inr h
  else if h =? PG_INT64_MAX + 1 then inl (Some PG_INT64_MIN)
  else inl None.
Proof.
  intros Hv Hds. revert i v Hv.
  induction n as [|n IH]; intros i v Hv Hi; cbn [to_int64_loop seq map horner].
  - destruct (Z.leb_spec v PG_INT64_MAX); [reflexivity | lia].
  - rewrite max_div_B.
    pose proof (digit_at_nonneg ds i Hds) as Hd.
    set (d := digit_at ds i) in *.
    set (rest := map (digit_at ds) (seq (S i) n)).
    assert (Hr : Forall (fun x => 0 <= x) rest) by now apply map_digit_at_nonneg.
    assert (Hlen : length rest = n) by (unfold rest; now rewrite length_map, length_seq).
    assert (Ha : 0 <= v * NUM2INT_NBASE + d) by (unfold NUM2INT_NBASE; lia).
    pose proof (horner_ge_acc _ rest Ha Hr) as G.
    pose proof (pow_B_ge1 (length rest)) as P1.
    unfold NUM2INT_NBASE in *.
    destruct (Z.gtb_spec v 922337203685477).
    + destruct (Z.leb_spec (horner (v * 10000 + d) rest) PG_INT64_MAX);
        [unfold PG_INT64_MAX in *; nia|].
      destruct (Z.eqb_spec (horner (v * 10000 + d) rest) (PG_INT64_MAX + 1));
        [unfold PG_INT64_MAX in *; nia | reflexivity].
    + destruct (Z.gtb_spec d (PG_INT64_MAX - v * 10000)).
      * destruct n as [|n].
        -- subst rest. cbn [seq map horner].
           replace (Z.of_nat i =? w) with true by (symmetry; apply Z.eqb_eq; lia).
           rewrite andb_true_r.
           destruct (Z.leb_spec (v * 10000 + d) PG_INT64_MAX); [lia|].
           destruct (Z.eqb_spec (v * 10000) (PG_INT64_MAX - d + 1));
             destruct (Z.eqb_spec (v * 10000 + d) (PG_INT64_MAX + 1));
             try reflexivity; lia.
        -- replace (Z.of_nat i =? w) with false by (symmetry; apply Z.eqb_neq; lia).
           rewrite andb_false_r.
           assert (P2 : 10000 <= 10000 ^ Z.of_nat (length rest)).
           { rewrite Hlen. rewrite <- (Z.pow_1_r 10000) at 1.
             apply Z.pow_le_mono_r; lia. }
           destruct (Z.leb_spec (horner (v * 10000 + d) rest) PG_INT64_MAX);
             [unfold PG_INT64_MAX in *; nia|].
           destruct (Z.eqb_spec (horner (v * 10000 + d) rest) (PG_INT64_MAX + 1));
             [unfold PG_INT64_MAX in *; nia | reflexivity].
      * apply IH; [unfold PG_INT64_MAX in *; lia | lia].
Qed.

Lemma Forall_digits_nonneg ds :
  Forall (fun d => 0 <= d < NUM2INT_NBASE) ds -> Forall (fun d => 0 <= d) ds.
Proof. apply Forall_impl. intros a Ha; lia. Qed.

Lemma Forall_skipn_Z (P : Z -> Prop) n l : Forall P l -> Forall P (skipn n l).
Proof.
  intros H. rewrite <- (firstn_skipn n l) in H. now apply Forall_app in H.
Qed.

Lemma last_app_ne (l1 l2 : list Z) d : l2 <> [] -> last (l1 ++ l2) d = last l2 d.
Proof.
  intros H. induction l1 as [|a l1 IH]; simpl; auto.
  rewrite IH. destruct (l1 ++ l2) eqn:E; auto.
  apply app_eq_nil in E as [_ E]. congruence.
Qed.

Lemma pow_B_pos k : 0 <= k -> 0 < NUM2INT_NBASE ^ k.
Proof. intros. apply Z.pow_pos_nonneg; [apply B_pos | lia]. Qed.

(** Integral numeric: the padded walk over [weight + 1] digits reads the
    truncated magnitude. *)
Lemma integral_prefix ds w :
  Z.of_nat (length ds) <= w + 1 ->
  horner 0 (map (digit_at ds) (seq 0 (Z.to_nat (w + 1)))) = trunc_magnitude w ds.
Proof.
  intros H. rewrite map_digit_at_seq.
  rewrite firstn_all2 by lia.
  rewrite horner_app, horner_repeat0.
  unfold trunc_magnitude, frac_digits.
  rewrite Nat2Z.inj_sub by lia. rewrite Z2Nat.id by lia.
  destruct (Z.leb_spec 0 (Z.of_nat (length ds) - (w + 1))).
  - replace (Z.of_nat (length ds) - (w + 1)) with 0 by lia.
    replace (w + 1 - Z.of_nat (length ds)) with 0 by lia.
    rewrite Z.pow_0_r, Z.div_1_r. lia.
  - f_equal. f_equal. lia.
Qed.

(** Fractional numeric: its reading splits into the truncated magnitude
    and a nonzero remainder below [10000^k]. *)
Lemma frac_decomp ds w :
  Forall (fun d => 0 <= d < NUM2INT_NBASE) ds -> ds <> [] -> last ds 0 <> 0 ->
  0 < frac_digits w ds ->
  exists r, horner 0 ds =
            trunc_magnitude w ds * NUM2INT_NBASE ^ frac_digits w ds + r /\
            1 <= r < NUM2INT_NBASE ^ frac_digits w ds.
Proof.
  intros Hf Hne Hl Hk.
  assert (Hn := Forall_digits_nonneg ds Hf).
  assert (Hpk := pow_B_pos (frac_digits w ds) ltac:(lia)).
  assert (Hdecomp : exists p r, horner 0 ds = p * NUM2INT_NBASE ^ frac_digits w ds + r /\
                                1 <= r < NUM2INT_NBASE ^ frac_digits w ds).
  { unfold frac_digits in *.
    destruct (Z.leb_spec (w + 1) 0).
    - exists 0, (horner 0 ds). split; [lia|]. split.
      + now apply horner_last_pos.
      + eapply Z.lt_le_trans; [apply horner_lt; assumption|].
        apply Z.pow_le_mono_r; [unfold NUM2INT_NBASE; lia | lia].
    - set (n := Z.to_nat (w + 1)).
      assert (E : horner 0 ds = horner 0 (firstn n ds) *
                  NUM2INT_NBASE ^ Z.of_nat (length (skipn n ds)) + horner 0 (skipn n ds)).
      { rewrite <- (firstn_skipn n ds) at 1. now rewrite horner_app, horner_acc. }
      rewrite E.
      assert (Hlen : Z.of_nat (length (skipn n ds)) = Z.of_nat (length ds) - (w + 1)).
      { rewrite length_skipn. unfold n. rewrite Nat2Z.inj_sub; [lia|].
        apply Nat2Z.inj_le. rewrite Z2Nat.id; lia. }
      exists (horner 0 (firstn n ds)), (horner 0 (skipn n ds)).
      rewrite Hlen. split; [reflexivity|]. split.
      + apply horner_last_pos.
        * now apply Forall_skipn_Z.
        * intros E0. apply (f_equal (@length Z)) in E0. simpl in E0. lia.
        * rewrite <- (firstn_skipn n ds) in Hl.
          rewrite last_app_ne in Hl; [assumption|].
          intros E0. apply (f_equal (@length Z)) in E0. simpl in E0. lia.
      + rewrite <- Hlen. apply horner_lt. now apply Forall_skipn_Z. }
  destruct Hdecomp as [p [r [Hm Hr]]].
  exists r. split; [|assumption].
  assert (Hp : p = trunc_magnitude w ds).
  { unfold trunc_magnitude.
    destruct (Z.leb_spec 0 (frac_digits w ds)); [|lia].
    apply Z.div_unique with r; [lia|]. rewrite Hm. ring. }
  now rewrite <- Hp.
Qed.

(** In the fractional case with a nonnegative weight the integral-digit
    loop reads exactly the truncated magnitude. *)
Lemma frac_prefix ds w :
  0 < w + 1 < Z.of_nat (length ds) ->
  Forall (fun d => 0 <= d < NUM2INT_NBASE) ds ->
  horner 0 (map (digit_at ds) (seq 0 (Z.to_nat (w + 1)))) = trunc_magnitude w ds.
Proof.
  intros Hw Hf.
  assert (Hn := Forall_digits_nonneg ds Hf).
  rewrite map_digit_at_seq.
  replace (Z.to_nat (w + 1) - length ds)%nat with O by lia.
  rewrite app_nil_r.
  unfold trunc_magnitude, frac_digits.
  destruct (Z.leb_spec 0 (Z.of_nat (length ds) - (w + 1))); [|lia].
  set (n := Z.to_nat (w + 1)).
  assert (E : horner 0 ds = horner 0 (firstn n ds) *
              NUM2INT_NBASE ^ Z.of_nat (length (skipn n ds)) + horner 0 (skipn n ds)).
  { rewrite <- (firstn_skipn n ds) at 1. now rewrite horner_app, horner_acc. }
  rewrite E.
  assert (Hlen : Z.of_nat (length (skipn n ds)) = Z.of_nat (length ds) - (w + 1)).
  { rewrite length_skipn. unfold n. rewrite Nat2Z.inj_sub; [lia|].
    apply Nat2Z.inj_le. rewrite Z2Nat.id; lia. }
  rewrite Hlen.
  pose proof (horner_lt (skipn n ds) (Forall_skipn_Z _ _ _ Hf)) as Hlt.
  pose proof (horner_nonneg (skipn n ds) (Forall_skipn_Z _ _ _ Hn)) as Hge.
  rewrite Hlen in Hlt.
  apply Z.div_unique with (horner 0 (skipn n ds)); [lia | ring].
Qed.

(** The leading digit of a stored numeric is nonzero, so the truncated
    magnitude is at least [10000^weight]. *)
Lemma trunc_ge_pow ds w :
  Forall (fun d => 0 <= d < NUM2INT_NBASE) ds -> ds <> [] -> hd 0 ds <> 0 ->
  0 <= w -> NUM2INT_NBASE ^ w <= trunc_magnitude w ds.
Proof.
  intros Hf Hne Hh Hw.
  assert (Hn := Forall_digits_nonneg ds Hf).
  assert (Hlow : NUM2INT_NBASE ^ (Z.of_nat (length ds) - 1) <= horner 0 ds).
  { destruct ds as [|d l]; [congruence|].
    inversion Hf; subst. simpl in Hh.
    replace (Z.of_nat (length (d :: l)) - 1) with (Z.of_nat (length l))
      by (simpl length; lia).
    apply horner_lower; [lia|]. inversion Hn; assumption. }
  assert (HL : 1 <= Z.of_nat (length ds))
    by (destruct ds; [congruence | simpl length; lia]).
  unfold trunc_magnitude, frac_digits.
  destruct (Z.leb_spec 0 (Z.of_nat (length ds) - (w + 1))).
  - set (k := Z.of_nat (length ds) - (w + 1)) in *.
    replace (Z.of_nat (length ds) - 1) with (w + k) in Hlow by lia.
    rewrite Z.pow_add_r in Hlow by lia.
    pose proof (pow_B_pos k ltac:(lia)).
    apply Z.div_le_mono with (c := NUM2INT_NBASE ^ k) in Hlow; [|lia].
    rewrite Z.div_mul in Hlow by lia. exact Hlow.
  - replace w with ((Z.of_nat (length ds) - 1) + - (Z.of_nat (length ds) - (w + 1)))
      at 1 by lia.
    rewrite Z.pow_add_r by lia.
    pose proof (pow_B_pos (- (Z.of_nat (length ds) - (w + 1))) ltac:(lia)).
    nia.
Qed.

Lemma pow_B_5 : NUM2INT_NBASE ^ 5 = 100000000000000000000.
Proof. reflexivity. Qed.

Lemma trunc_nonneg ds w :
  Forall (fun d => 0 <= d < NUM2INT_NBASE) ds -> 0 <= trunc_magnitude w ds.
Proof.
  intros Hf. pose proof (horner_nonneg ds (Forall_digits_nonneg ds Hf)).
  unfold trunc_magnitude.
  destruct (Z.leb_spec 0 (frac_digits w ds)).
  - apply Z.div_pos; [lia | now apply pow_B_pos].
  - pose proof (pow_B_pos (- frac_digits w ds) ltac:(lia)). nia.
Qed.

(** All digits after the decimal point: the truncated magnitude is 0. *)
Lemma trunc_neg_weight ds w :
  Forall (fun d => 0 <= d < NUM2INT_NBASE) ds -> w + 1 <= 0 ->
  trunc_magnitude w ds = 0.
Proof.
  intros Hf Hw. unfold trunc_magnitude, frac_digits.
  destruct (Z.leb_spec 0 (Z.of_nat (length ds) - (w + 1))); [|lia].
  apply Z.div_small. split.
  - apply horner_nonneg, Forall_digits_nonneg, Hf.
  - eapply Z.lt_le_trans; [apply horner_lt; assumption|].
    apply Z.pow_le_mono_r; [unfold NUM2INT_NBASE; lia | lia].
Qed.

(** A stored integral nonzero numeric has magnitude at least 1. *)
Lemma trunc_integral_pos ds w :
  Forall (fun d => 0 <= d < NUM2INT_NBASE) ds -> ds <> [] -> hd 0 ds <> 0 ->
  has_fraction_exact w ds = false -> 1 <= trunc_magnitude w ds.
Proof.
  intros Hf Hne Hh Hfr. unfold has_fraction_exact, frac_digits in Hfr.
  apply Z.ltb_ge in Hfr.
  assert (HL : 1 <= Z.of_nat (length ds))
    by (destruct ds; [congruence | simpl length; lia]).
  pose proof (trunc_ge_pow ds w Hf Hne Hh ltac:(lia)).
  pose proof (Z.pow_pos_nonneg NUM2INT_NBASE w B_pos ltac:(lia)). lia.
Qed.

Lemma big_weight_trunc ds w :
  Forall (fun d => 0 <= d < NUM2INT_NBASE) ds -> ds <> [] -> hd 0 ds <> 0 ->
  4 < w -> PG_INT64_MAX + 1 < trunc_magnitude w ds.
Proof.
  intros Hf Hne Hh Hw.
  pose proof (trunc_ge_pow ds w Hf Hne Hh ltac:(lia)).
  assert (NUM2INT_NBASE ^ 5 <= NUM2INT_NBASE ^ w)
    by (apply Z.pow_le_mono_r; unfold NUM2INT_NBASE; lia).
  rewrite pow_B_5 in *. unfold PG_INT64_MAX. lia.
Qed.

Lemma is_integral_finite s w ds :
  ds <> [] ->
  num2int_numeric_is_integral (NumFinite s w ds) = negb (has_fraction_exact w ds).
Proof.
  intros Hne. unfold num2int_numeric_is_integral, has_fraction_exact, frac_digits.
  cbn [NUM2INT_NUMERIC_IS_SPECIAL NUM2INT_NUMERIC_NDIGITS NUM2INT_NUMERIC_WEIGHT].
  replace (Z.of_nat (length ds) =? 0) with false
    by (symmetry; apply Z.eqb_neq; destruct ds; [congruence | simpl length; lia]).
  destruct (Z.leb_spec (Z.of_nat (length ds)) (w + 1));
    destruct (Z.ltb_spec 0 (Z.of_nat (length ds) - (w + 1))); simpl; auto; lia.
Qed.

Lemma sign_finite s w ds :
  ds <> [] ->
  num2int_numeric_sign (NumFinite s w ds) = if is_pos s then 1 else -1.
Proof.
  intros Hne. unfold num2int_numeric_sign.
  cbn [NUM2INT_NUMERIC_IS_SPECIAL NUM2INT_NUMERIC_NDIGITS NUM2INT_NUMERIC_SIGN].
  replace (Z.of_nat (length ds) =? 0) with false
    by (symmetry; apply Z.eqb_neq; destruct ds; [congruence | simpl length; lia]).
  reflexivity.
Qed.

(** [num2int_numeric_to_int64] on a stored finite nonzero numeric: it
    fails on fractions, and otherwise returns the exact value whenever it
    lies in int64. *)
Lemma to_int64_spec s w ds :
  numeric_wf (NumFinite s w ds) -> ds <> [] ->
  num2int_numeric_to_int64 (NumFinite s w ds) =
  if has_fraction_exact w ds then None
  else
    let t := trunc_magnitude w ds in
    if is_pos s then (if t <=? PG_INT64_MAX then Some t else None)
    else (if t <=? PG_INT64_MAX + 1 then Some (- t) else None).
Proof.
  intros [Hf Hhl] Hne. specialize (Hhl Hne) as [Hh Hl].
  assert (HL : 1 <= Z.of_nat (length ds))
    by (destruct ds; [congruence | simpl length; lia]).
  assert (Hn := Forall_digits_nonneg ds Hf).
  unfold num2int_numeric_to_int64.
  cbn [NUM2INT_NUMERIC_IS_SPECIAL NUM2INT_NUMERIC_NDIGITS NUM2INT_NUMERIC_WEIGHT
       NUM2INT_NUMERIC_SIGN NUM2INT_NUMERIC_DIGITS].
  replace (Z.of_nat (length ds) =? 0) with false by (symmetry; apply Z.eqb_neq; lia).
  unfold has_fraction_exact, frac_digits.
  destruct (Z.gtb_spec (Z.of_nat (length ds)) (w + 1)).
  { destruct (Z.ltb_spec 0 (Z.of_nat (length ds) - (w + 1))); [reflexivity | lia]. }
  destruct (Z.ltb_spec 0 (Z.of_nat (length ds) - (w + 1))); [lia|].
  cbv zeta.
  destruct (Z.gtb_spec w 4).
  { pose proof (big_weight_trunc ds w Hf Hne Hh ltac:(lia)).
    destruct (is_pos s).
    - destruct (Z.leb_spec (trunc_magnitude w ds) PG_INT64_MAX); [lia | reflexivity].
    - destruct (Z.leb_spec (trunc_magnitude w ds) (PG_INT64_MAX + 1));
        [lia | reflexivity]. }
  pose proof (integral_prefix ds w ltac:(lia)) as Hp.
  destruct (is_pos s).
  - rewrite to_int64_loop_pos_spec by (unfold PG_INT64_MAX; lia || assumption).
    rewrite floor_loop_spec by (unfold PG_INT64_MAX; lia || assumption).
    cbv zeta. rewrite Hp.
    destruct (Z.leb_spec (trunc_magnitude w ds) PG_INT64_MAX); reflexivity.
  - rewrite to_int64_loop_neg_spec
      by (unfold PG_INT64_MAX; (rewrite Z2Nat.id; lia) || lia || assumption).
    cbv zeta. rewrite Hp.
    destruct (Z.leb_spec (trunc_magnitude w ds) PG_INT64_MAX);
      [destruct (Z.leb_spec (trunc_magnitude w ds) (PG_INT64_MAX + 1));
         [reflexivity | lia]|].
    destruct (Z.eqb_spec (trunc_magnitude w ds) (PG_INT64_MAX + 1)).
    + destruct (Z.leb_spec (trunc_magnitude w ds) (PG_INT64_MAX + 1)); [|lia].
      rewrite e. reflexivity.
    + destruct (Z.leb_spec (trunc_magnitude w ds) (PG_INT64_MAX + 1));
        [lia | reflexivity].
Qed.

(** The integral-digit loop on a fractional numeric with a nonnegative
    weight. *)
Lemma floor_loop_frac ds w :
  Forall (fun d => 0 <= d < NUM2INT_NBASE) ds ->
  0 < w + 1 < Z.of_nat (length ds) ->
  floor_loop ds 0 (Z.to_nat (w + 1)) 0 =
  let t := trunc_magnitude w ds in
  if t <=? PG_INT64_MAX then Some t else None.
Proof.
  intros Hf Hw.
  rewrite floor_loop_spec
    by (unfold PG_INT64_MAX; lia || apply Forall_digits_nonneg, Hf).
  cbv zeta. now rewrite frac_prefix.
Qed.

(** [num2int_numeric_floor_to_int64] on a stored fractional numeric. *)
Lemma floor_to_int64_frac_spec s w ds :
  numeric_wf (NumFinite s w ds) -> ds <> [] -> has_fraction_exact w ds = true ->
  num2int_numeric_floor_to_int64 (NumFinite s w ds) =
  let t := trunc_magnitude w ds in
  if t <=? PG_INT64_MAX then Some (if is_pos s then t else - t - 1) else None.
Proof.
  intros [Hf Hhl] Hne Hfr. specialize (Hhl Hne) as [Hh Hl].
  unfold has_fraction_exact, frac_digits in Hfr. apply Z.ltb_lt in Hfr.
  assert (HL : 1 <= Z.of_nat (length ds))
    by (destruct ds; [congruence | simpl length; lia]).
  unfold num2int_numeric_floor_to_int64.
  cbn [NUM2INT_NUMERIC_NDIGITS NUM2INT_NUMERIC_WEIGHT
       NUM2INT_NUMERIC_SIGN NUM2INT_NUMERIC_DIGITS].
  replace (Z.of_nat (length ds) =? 0) with false by (symmetry; apply Z.eqb_neq; lia).
  cbv zeta.
  destruct (Z.gtb_spec w 4).
  { pose proof (big_weight_trunc ds w Hf Hne Hh ltac:(lia)).
    destruct (Z.leb_spec (trunc_magnitude w ds) PG_INT64_MAX); [lia | reflexivity]. }
  destruct (Z.leb_spec (w + 1) 0).
  { rewrite (trunc_neg_weight ds w Hf ltac:(lia)). reflexivity. }
  destruct (Z.leb_spec (Z.of_nat (length ds)) (w + 1)); [lia|].
  rewrite floor_loop_frac by (assumption || lia). cbv zeta.
  destruct (Z.leb_spec (trunc_magnitude w ds) PG_INT64_MAX); reflexivity.
Qed.

(** The exact comparison of a stored finite nonzero numeric with an
    integer, in terms of its truncated magnitude: a fraction is compared
    through its floor and never ties. *)
Lemma exact_compare_spec s w ds i :
  numeric_wf (NumFinite s w ds) -> ds <> [] ->
  exact_compare (NumFinite s w ds) i =
  let t := trunc_magnitude w ds in
  if has_fraction_exact w ds then
    (if (if is_pos s then t else - t - 1) <? i then Lt else Gt)
  else Z.compare (signed s t) i.
Proof.
  intros [Hf Hhl] Hne. specialize (Hhl Hne) as [Hh Hl].
  unfold exact_compare. cbv zeta.
  unfold has_fraction_exact.
  destruct (Z.ltb_spec 0 (frac_digits w ds)) as [Hk | Hk].
  - destruct (frac_decomp ds w Hf Hne Hl Hk) as [r [Hm Hr]].
    destruct (Z.leb_spec 0 (frac_digits w ds)); [|lia].
    rewrite Hm. set (P := NUM2INT_NBASE ^ frac_digits w ds) in *.
    set (t := trunc_magnitude w ds) in *.
    unfold signed. destruct (is_pos s).
    + destruct (Z.ltb_spec t i).
      * apply Z.compare_lt_iff. nia.
      * apply Z.compare_gt_iff. nia.
    + destruct (Z.ltb_spec (- t - 1) i).
      * apply Z.compare_lt_iff. nia.
      * apply Z.compare_gt_iff. nia.
  - unfold trunc_magnitude.
    destruct (Z.leb_spec 0 (frac_digits w ds)).
    + replace (frac_digits w ds) with 0 by lia.
      rewrite Z.pow_0_r, Z.div_1_r, Z.mul_1_r. reflexivity.
    + unfold signed. destruct (is_pos s); [reflexivity|].
      rewrite Z.mul_opp_l. reflexivity.
Qed.

Lemma exact_compare_zero s w i :
  exact_compare (NumFinite s w []) i = Z.compare 0 i.
Proof.
  unfold exact_compare. cbn [horner]. replace (signed s 0) with 0 by (destruct s; reflexivity).
  destruct (Z.leb_spec 0 (frac_digits w [])).
  - pose proof (pow_B_pos (frac_digits w []) H).
    destruct (Z.compare_spec 0 i);
      [apply Z.compare_eq_iff | apply Z.compare_lt_iff | apply Z.compare_gt_iff]; nia.
  - reflexivity.
Qed.

End DigitLemmas.

(** Case analysis on the integer comparisons left in a goal. *)
Ltac no_if t :=
  lazymatch t with context [if _ then _ else _] => fail | _ => idtac end.

Ltac zsplit :=
  repeat (match goal with
          | |- context [Z.ltb ?a ?b] => no_if a; no_if b; destruct (Z.ltb_spec a b)
          | |- context [Z.gtb ?a ?b] => no_if a; no_if b; destruct (Z.gtb_spec a b)
          | |- context [Z.leb ?a ?b] => no_if a; no_if b; destruct (Z.leb_spec a b)
          | |- context [Z.eqb ?a ?b] => no_if a; no_if b; destruct (Z.eqb_spec a b)
          | |- context [Z.compare ?a ?b] =>
              no_if a; no_if b; destruct (Z.compare_spec a b)
          end; cbn [negb andb orb cmp_to_int]).

(** The comparator agrees with the exact comparison on every stored
    finite numeric and every int64. *)
Lemma numeric_cmp_int64_direct_finite s w ds v :
  numeric_wf (NumFinite s w ds) -> in_int64 v ->
  numeric_cmp_int64_direct (NumFinite s w ds) v =
  cmp_to_int (exact_compare (NumFinite s w ds) v).
Proof.
  intros Hwf Hv. unfold in_int64, PG_INT64_MIN in Hv.
  destruct (list_eq_dec Z.eq_dec ds []) as [-> | Hne].
  - rewrite exact_compare_zero.
    unfold numeric_cmp_int64_direct, num2int_numeric_sign.
    destruct v; reflexivity.
  - pose proof Hwf as [Hf Hhl]. specialize (Hhl Hne) as [Hh Hl].
    rewrite exact_compare_spec by assumption.
    unfold numeric_cmp_int64_direct.
    cbn [NUM2INT_NUMERIC_IS_SPECIAL NUM2INT_NUMERIC_WEIGHT NUM2INT_NUMERIC_DIGITS].
    cbv zeta.
    rewrite sign_finite, to_int64_spec, is_integral_finite by assumption.
    pose proof (trunc_nonneg ds w Hf) as Ht0.
    destruct (has_fraction_exact w ds) eqn:Hfr; cbn [negb].
    + unfold has_fraction_exact, frac_digits in Hfr. apply Z.ltb_lt in Hfr.
      destruct (Z.gtb_spec w 4).
      { pose proof (big_weight_trunc ds w Hf Hne Hh ltac:(lia)).
        set (t := trunc_magnitude w ds) in *. clearbody t.
        destruct (is_pos s); zsplit; try reflexivity; unfold PG_INT64_MAX in *; lia. }
      destruct (Z.leb_spec (w + 1) 0).
      { rewrite (trunc_neg_weight ds w Hf ltac:(lia)).
        destruct (is_pos s); zsplit; try reflexivity; lia. }
      rewrite floor_loop_frac by (assumption || lia). cbv zeta.
      set (t := trunc_magnitude w ds) in *. clearbody t.
      destruct (is_pos s); zsplit; try reflexivity; unfold PG_INT64_MAX in *; lia.
    + pose proof (trunc_integral_pos ds w Hf Hne Hh Hfr).
      set (t := trunc_magnitude w ds) in *. clearbody t.
      unfold signed.
      destruct (is_pos s); zsplit; try reflexivity; unfold PG_INT64_MAX in *; lia.
Qed.

Lemma numeric_wfb_sound n : numeric_wfb n = true -> numeric_wf n.
Proof.
  destruct n as [| | |sg w ds]; simpl; auto.
  intros H. apply andb_prop in H as [H1 H2]. split.
  - apply Forall_forall. intros x Hx. rewrite forallb_forall in H1.
    specialize (H1 x Hx). apply andb_prop in H1 as [A B].
    apply Z.leb_le in A. apply Z.ltb_lt in B. lia.
  - intros Hne. destruct ds as [|d ds]; [congruence|].
    apply andb_prop in H2 as [A B]. apply negb_true_iff in A, B.
    apply Z.eqb_neq in A, B. auto.
Qed.

(** Exact floor of a stored fractional numeric, in terms of its truncated
    magnitude. *)
Lemma exact_floor_frac s w ds :
  numeric_wf (NumFinite s w ds) -> ds <> [] -> has_fraction_exact w ds = true ->
  signed s (horner 0 ds) / NUM2INT_NBASE ^ frac_digits w ds =
  (if is_pos s then trunc_magnitude w ds else - trunc_magnitude w ds - 1).
Proof.
  intros [Hf Hhl] Hne Hfr. specialize (Hhl Hne) as [Hh Hl].
  unfold has_fraction_exact in Hfr. apply Z.ltb_lt in Hfr.
  destruct (frac_decomp ds w Hf Hne Hl Hfr) as [r [Hm Hr]].
  rewrite Hm. unfold signed. destruct (is_pos s).
  - symmetry. apply Z.div_unique with r; [lia | ring].
  - symmetry. apply Z.div_unique with (NUM2INT_NBASE ^ frac_digits w ds - r);
      [lia | ring].
Qed.

(** ** Claims *)

(** C1: for every stored numeric that is not NaN or an infinity and every
    integer of the operand width, [numeric_cmp_int2_internal],
    [numeric_cmp_int4_internal] and [numeric_cmp_int8_internal] (all
    through [numeric_cmp_int64_direct]) return -1, 0 or +1 as the exact
    rational value of the numeric is below, equal to or above the
    integer. *)
Theorem numeric_cmp_matches_exact_value num :
  numeric_wf num -> NUM2INT_NUMERIC_IS_SPECIAL num = false ->
  (forall v, in_int16 v ->
     numeric_cmp_int2_internal num v = cmp_to_int (exact_compare num v)) /\
  (forall v, in_int32 v ->
     numeric_cmp_int4_internal num v = cmp_to_int (exact_compare num v)) /\
  (forall v, in_int64 v ->
     numeric_cmp_int8_internal num v = cmp_to_int (exact_compare num v)).
Proof.
  intros Hwf Hsp. destruct num as [| | |s w ds]; try discriminate.
  unfold in_int16, in_int32.
  split; [|split]; intros v Hv; apply numeric_cmp_int64_direct_finite; auto;
    unfold in_int64, PG_INT16_MIN, PG_INT16_MAX, PG_INT32_MIN, PG_INT32_MAX,
      PG_INT64_MIN, PG_INT64_MAX in *; lia.
Qed.

Lemma numeric_cmp_matches_exact_value_witness :
  numeric_cmp_int4_internal num_m100_5 (-100) =
  cmp_to_int (exact_compare num_m100_5 (-100)).
Proof.
  destruct (numeric_cmp_matches_exact_value num_m100_5
              (numeric_wfb_sound num_m100_5 eq_refl) eq_refl) as [_ [H _]].
  apply H. unfold in_int32, PG_INT32_MIN, PG_INT32_MAX. lia.
Defined.

(** C2: on a negative stored numeric with a fractional part whose
    truncated magnitude [t] fits in int64, floor extraction succeeds with
    [-t - 1], the exact floor (toward negative infinity); on a positive
    one it returns [t].  Decimal -100.5 floors to -101. *)
Theorem floor_to_int64_rounds_down s w ds :
  numeric_wf (NumFinite s w ds) -> ds <> [] ->
  has_fraction_exact w ds = true ->
  trunc_magnitude w ds <= PG_INT64_MAX ->
  num2int_numeric_floor_to_int64 (NumFinite s w ds) =
    Some (if is_pos s then trunc_magnitude w ds else - trunc_magnitude w ds - 1) /\
  num2int_numeric_floor_to_int64 (NumFinite s w ds) =
    Some (signed s (horner 0 ds) / NUM2INT_NBASE ^ frac_digits w ds) /\
  num2int_numeric_floor_to_int64 num_m100_5 = Some (-101).
Proof.
  intros Hwf Hne Hfr Ht.
  assert (E : num2int_numeric_floor_to_int64 (NumFinite s w ds) =
              Some (if is_pos s then trunc_magnitude w ds
                    else - trunc_magnitude w ds - 1)).
  { rewrite floor_to_int64_frac_spec by assumption. cbv zeta.
    destruct (Z.leb_spec (trunc_magnitude w ds) PG_INT64_MAX); [reflexivity | lia]. }
  split; [exact E|]. split; [|reflexivity].
  rewrite E, exact_floor_frac by assumption. reflexivity.
Qed.

Lemma floor_to_int64_rounds_down_witness :
  num2int_numeric_floor_to_int64 num_m100_5 = Some (- 100 - 1).
Proof.
  destruct (floor_to_int64_rounds_down NUM2INT_NUMERIC_NEG 0 [100; 5000]
              (numeric_wfb_sound num_m100_5 eq_refl) ltac:(discriminate) eq_refl
              ltac:(vm_compute; discriminate)) as [H _].
  exact H.
Defined.

(** C10: [num2int_numeric_to_int64] accepts -9223372036854775808 and
    returns [PG_INT64_MIN]; any stored numeric on which it succeeds
    although its magnitude exceeds [PG_INT64_MAX] is negative, integral,
    of magnitude exactly [PG_INT64_MAX + 1], i.e. equal to
    [PG_INT64_MIN], and the result is [PG_INT64_MIN]. *)
Theorem to_int64_accepts_only_int64_min :
  num2int_numeric_to_int64 num_int64_min = Some PG_INT64_MIN /\
  exact_compare num_int64_min PG_INT64_MIN = Eq /\
  (forall num r,
     numeric_wf num ->
     num2int_numeric_to_int64 num = Some r ->
     match num with
     | NumFinite s w ds =>
         PG_INT64_MAX < trunc_magnitude w ds ->
         s = NUM2INT_NUMERIC_NEG /\ has_fraction_exact w ds = false /\
         trunc_magnitude w ds = PG_INT64_MAX + 1 /\ r = PG_INT64_MIN /\
         exact_compare num PG_INT64_MIN = Eq
     | _ => False
     end).
Proof.
  split; [reflexivity|]. split; [reflexivity|].
  intros num r Hwf Hr.
  destruct num as [| | |s w ds]; try discriminate.
  intros Hbig.
  destruct (list_eq_dec Z.eq_dec ds []) as [-> | Hne].
  { exfalso. unfold trunc_magnitude in Hbig. cbn [horner] in Hbig.
    destruct (0 <=? frac_digits w []);
      rewrite ?Zdiv_0_l, ?Z.mul_0_l in Hbig; unfold PG_INT64_MAX in Hbig; lia. }
  rewrite to_int64_spec in Hr by assumption.
  destruct (has_fraction_exact w ds) eqn:Hfr; [discriminate|].
  cbv zeta in Hr.
  rewrite exact_compare_spec by assumption. rewrite Hfr. cbv zeta.
  destruct s; cbn [is_pos signed] in *.
  - destruct (Z.leb_spec (trunc_magnitude w ds) PG_INT64_MAX); [lia | discriminate].
  - destruct (Z.leb_spec (trunc_magnitude w ds) (PG_INT64_MAX + 1)); [|discriminate].
    injection Hr as <-.
    assert (Et : trunc_magnitude w ds = PG_INT64_MAX + 1) by lia.
    rewrite Et. repeat split; reflexivity.
Qed.

Lemma to_int64_accepts_only_int64_min_witness :
  NUM2INT_NUMERIC_NEG = NUM2INT_NUMERIC_NEG /\
  trunc_magnitude 4 [922; 3372; 368; 5477; 5808] = PG_INT64_MAX + 1.
Proof.
  destruct to_int64_accepts_only_int64_min as [E [_ H]].
  destruct (H num_int64_min PG_INT64_MIN (numeric_wfb_sound num_int64_min eq_refl) E
              ltac:(vm_compute; reflexivity)) as [Hs [_ [Ht _]]].
  split; [exact Hs | exact Ht].
Defined.

(** ** Lemmas on the constant conversion *)

Lemma conv_range_consistent a b hf v : conv_consistent (conv_range a b hf v) = true.
Proof. destruct a, b; reflexivity. Qed.

Lemma convert_consistent c t : conv_consistent (convert_const_to_int c t) = true.
Proof.
  unfold convert_const_to_int.
  destruct (constisnull c); [reflexivity|].
  destruct (constvalue c) as [num|f|f];
  repeat match goal with
         | |- context [if ?b then _ else _] => destruct b
         | |- context [match ?o with Some _ => _ | None => _ end] => destruct o
         end; first [apply conv_range_consistent | reflexivity].
Qed.

Lemma convert_valid_in_range c t :
  valid (convert_const_to_int c t) = true ->
  out_of_range_high (convert_const_to_int c t) = false /\
  out_of_range_low (convert_const_to_int c t) = false.
Proof.
  intros Hv. pose proof (convert_consistent c t) as H. unfold conv_consistent in H.
  rewrite Hv in H.
  destruct (out_of_range_high _), (out_of_range_low _); auto; discriminate.
Qed.

Lemma convert_direction c t :
  out_of_range_high (convert_const_to_int c t) &&
  out_of_range_low (convert_const_to_int c t) = false.
Proof.
  pose proof (convert_consistent c t) as H. unfold conv_consistent in H.
  apply andb_prop in H as [H _]. now apply negb_true_iff in H.
Qed.

Lemma conv_range_has_fraction a b hf v : has_fraction (conv_range a b hf v) = hf.
Proof. destruct a, b; reflexivity. Qed.

Lemma conv_range_int_val a b hf v : int_val (conv_range a b hf v) = v.
Proof. destruct a, b; reflexivity. Qed.

Lemma conv_range_valid a b hf v :
  valid (conv_range a b hf v) = true -> a = false /\ b = false.
Proof. destruct a, b; cbn; auto; discriminate. Qed.

Lemma float_to_int_le lo hi f : lo <= hi -> float_to_int lo hi f <= hi.
Proof.
  intros H. destruct f as [| |m e]; cbn [float_to_int]; [lia | lia|].
  match goal with |- context [if ?b then _ else _] => destruct b eqn:E end;
    [apply andb_prop in E as [_ E]; apply Z.leb_le in E|]; lia.
Qed.

Lemma numeric_has_fraction_nonempty s w ds :
  negb (num2int_numeric_is_integral (NumFinite s w ds)) = true ->
  ds <> [] /\ has_fraction_exact w ds = true.
Proof.
  intros H. destruct (list_eq_dec Z.eq_dec ds []) as [->|Hne]; [discriminate|].
  rewrite is_integral_finite in H by assumption. rewrite negb_involutive in H. auto.
Qed.

(** A valid conversion with a fractional part has its floor at most the
    maximum of the column type. *)
Lemma convert_frac_le_max c t :
  const_wf c ->
  valid (convert_const_to_int c t) = true ->
  has_fraction (convert_const_to_int c t) = true ->
  int_val (convert_const_to_int c t) <= type_max t.
Proof.
  intros Hwf. unfold const_wf in Hwf. unfold convert_const_to_int.
  destruct (constisnull c); [discriminate|].
  destruct (constvalue c) as [num|f|f].
  - destruct num as [| | |s w ds]; try discriminate.
    cbn [NUM2INT_NUMERIC_IS_SPECIAL].
    destruct (num2int_numeric_floor_to_int64 (NumFinite s w ds)) as [v|] eqn:Efl;
      [|destruct (_ <? 0); intros Hv; discriminate].
    intros Hv Hf.
    assert (Hfr : negb (num2int_numeric_is_integral (NumFinite s w ds)) = true).
    { destruct (t =? INT2OID), (t =? INT4OID);
        rewrite conv_range_has_fraction in Hf; exact Hf. }
    apply numeric_has_fraction_nonempty in Hfr as [Hne Hfr].
    rewrite floor_to_int64_frac_spec in Efl by assumption. cbv zeta in Efl.
    destruct (Z.leb_spec (trunc_magnitude w ds) PG_INT64_MAX); [|discriminate].
    pose proof (trunc_nonneg ds w (proj1 Hwf)) as Ht.
    assert (Hv64 : v <= PG_INT64_MAX)
      by (destruct (is_pos s); injection Efl as <-; lia).
    unfold type_max.
    destruct (t =? INT2OID); [|destruct (t =? INT4OID)];
      rewrite conv_range_int_val; auto;
      destruct (conv_range_valid _ _ _ _ Hv) as [_ Hb]; rewrite Z.gtb_ltb in Hb; apply Z.ltb_ge in Hb; lia.
  - destruct (isnan f || isinf f); [discriminate|]. unfold type_max.
    destruct (t =? INT2OID); [|destruct (t =? INT4OID); [|destruct (t =? INT8OID)]];
      try discriminate; intros Hv Hf;
      rewrite conv_range_int_val;
      apply float_to_int_le; unfold PG_INT16_MIN, PG_INT16_MAX, PG_INT32_MIN,
        PG_INT32_MAX, PG_INT64_MIN, PG_INT64_MAX; lia.
  - destruct (isnan f || isinf f); [discriminate|]. unfold type_max.
    destruct (t =? INT2OID); [|destruct (t =? INT4OID); [|destruct (t =? INT8OID)]];
      try discriminate; intros Hv Hf;
      rewrite conv_range_int_val;
      apply float_to_int_le; unfold PG_INT16_MIN, PG_INT16_MAX, PG_INT32_MIN,
        PG_INT32_MAX, PG_INT64_MIN, PG_INT64_MAX; lia.
Qed.

Lemma floor_to_int64_integral s w ds v :
  numeric_wf (NumFinite s w ds) -> has_fraction_exact w ds = false ->
  num2int_numeric_floor_to_int64 (NumFinite s w ds) = Some v ->
  exact_compare (NumFinite s w ds) v = Eq.
Proof.
  intros Hwf Hfr H.
  destruct (list_eq_dec Z.eq_dec ds []) as [->|Hne].
  { injection H as <-. rewrite exact_compare_zero. reflexivity. }
  assert (HL : 1 <= Z.of_nat (length ds))
    by (destruct ds; [congruence | simpl length; lia]).
  assert (Hk : Z.of_nat (length ds) <= w + 1)
    by (unfold has_fraction_exact, frac_digits in Hfr; apply Z.ltb_ge in Hfr; lia).
  unfold num2int_numeric_floor_to_int64 in H.
  cbn [NUM2INT_NUMERIC_NDIGITS NUM2INT_NUMERIC_WEIGHT] in H.
  replace (Z.of_nat (length ds) =? 0) with false in H by (symmetry; apply Z.eqb_neq; lia).
  destruct (w >? 4); [discriminate|].
  replace (w + 1 <=? 0) with false in H by (symmetry; apply Z.leb_gt; lia).
  replace (Z.of_nat (length ds) <=? w + 1) with true in H by (symmetry; apply Z.leb_le; lia).
  rewrite to_int64_spec, Hfr in H by assumption. cbv zeta in H.
  rewrite exact_compare_spec, Hfr by assumption. cbv zeta.
  destruct s; cbn [is_pos signed] in *;
    match type of H with context [if ?b then _ else _] => destruct b end;
    try discriminate; injection H as <-; apply Z.compare_refl.
Qed.

Lemma convert_numeric_integral c t num :
  constvalue c = DNumeric num -> numeric_wf num ->
  valid (convert_const_to_int c t) = true ->
  has_fraction (convert_const_to_int c t) = false ->
  exact_compare num (int_val (convert_const_to_int c t)) = Eq.
Proof.
  intros Ec Hwf. unfold convert_const_to_int. rewrite Ec.
  destruct (constisnull c); [discriminate|].
  destruct num as [| | |s w ds]; try discriminate. cbn [NUM2INT_NUMERIC_IS_SPECIAL].
  destruct (num2int_numeric_floor_to_int64 (NumFinite s w ds)) as [v|] eqn:Efl;
    [|destruct (_ <? 0); discriminate].
  intros _ Hf.
  assert (Hf' : negb (num2int_numeric_is_integral (NumFinite s w ds)) = false)
    by (destruct (t =? INT2OID), (t =? INT4OID); rewrite conv_range_has_fraction in Hf;
        exact Hf).
  assert (Hv : int_val (if t =? INT2OID then
                  conv_range (v <? PG_INT16_MIN) (v >? PG_INT16_MAX)
                    (negb (num2int_numeric_is_integral (NumFinite s w ds))) v
                else if t =? INT4OID then
                  conv_range (v <? PG_INT32_MIN) (v >? PG_INT32_MAX)
                    (negb (num2int_numeric_is_integral (NumFinite s w ds))) v
                else conv_range false false
                    (negb (num2int_numeric_is_integral (NumFinite s w ds))) v) = v)
    by (destruct (t =? INT2OID), (t =? INT4OID); apply conv_range_int_val).
  rewrite Hv. destruct (list_eq_dec Z.eq_dec ds []) as [->|Hne].
  - injection Efl as <-. rewrite exact_compare_zero. reflexivity.
  - apply floor_to_int64_integral; [assumption| |assumption].
    rewrite is_integral_finite in Hf' by assumption.
    now rewrite negb_involutive in Hf'.
Qed.

Lemma convert_null_invalid c t :
  valid (convert_const_to_int c t) = true \/
  out_of_range_high (convert_const_to_int c t) || out_of_range_low (convert_const_to_int c t) = true ->
  constisnull c = false.
Proof.
  unfold convert_const_to_int. destruct (constisnull c); [|reflexivity].
  intros [H|H]; discriminate.
Qed.

Ltac unfold_simplify Hfind Hopno Hnull :=
  unfold num2int_support_simplify; cbn [args fcall_funcid];
  rewrite Hnull, Hfind; cbv beta iota;
  match goal with
  | |- context [?a =? InvalidOid] => destruct (Z.eqb_spec a InvalidOid); [contradiction|]
  end.

(** ** Claims on the simplifier *)

(** C3: a range predicate [col op c] whose constant converts validly with
    a fractional part is rewritten by boundary adjustment: [>] and [>=]
    become [>=] against floor+1, or fold to false when the floor is the
    column type's maximum; [<] and [<=] become [<=] against the floor, or
    fold to true when the floor is the maximum.  So on int2, [col >
    32767.5] folds to false and [col <= 32767.5] to true, and on int4
    [col > 10.5] becomes [col >= 11] and [col < 10.5] becomes
    [col <= 10]. *)
Theorem simplify_range_fraction ops fid v c opno op :
  const_wf c ->
  find_operator_by_funcid ops fid = (opno, op) -> opno <> InvalidOid ->
  valid (convert_const_to_int c (vartype v)) = true ->
  has_fraction (convert_const_to_int c (vartype v)) = true ->
  ((op = OP_TYPE_GT \/ op = OP_TYPE_GE) ->
   num2int_support_simplify ops
     {| fcall_funcid := fid; args := [ArgVar v; ArgConst c] |} =
   Some (if int_val (convert_const_to_int c (vartype v)) =? type_max (vartype v)
         then BoolConst false
         else build_native_opexpr (get_native_op_oid OP_TYPE_GE (vartype v)) v
                (int_val (convert_const_to_int c (vartype v)) + 1) (vartype v))) /\
  ((op = OP_TYPE_LT \/ op = OP_TYPE_LE) ->
   num2int_support_simplify ops
     {| fcall_funcid := fid; args := [ArgVar v; ArgConst c] |} =
   Some (if int_val (convert_const_to_int c (vartype v)) =? type_max (vartype v)
         then BoolConst true
         else build_native_opexpr (get_native_op_oid OP_TYPE_LE (vartype v)) v
                (int_val (convert_const_to_int c (vartype v))) (vartype v))) /\
  num2int_support_simplify sample_ops (pred_col_const 91004 INT2OID num_32767_5) =
    Some (BoolConst false) /\
  num2int_support_simplify sample_ops (pred_col_const 91005 INT2OID num_32767_5) =
    Some (BoolConst true) /\
  num2int_support_simplify sample_ops (pred_col_const 91004 INT4OID num_10_5) =
    Some (OpExprNode NUM2INT_INT4GE_OID (col INT4OID) INT4OID 11) /\
  num2int_support_simplify sample_ops (pred_col_const 91003 INT4OID num_10_5) =
    Some (OpExprNode NUM2INT_INT4LE_OID (col INT4OID) INT4OID 10).
Proof.
  intros Hwf Hfind Hopno Hv Hf.
  assert (Hnull := convert_null_invalid c (vartype v) (or_introl Hv)).
  destruct (convert_valid_in_range _ _ Hv) as [Hh Hl].
  pose proof (convert_frac_le_max c (vartype v) Hwf Hv Hf) as Hle.
  split; [|split]; [intros Hop; unfold_simplify Hfind Hopno Hnull;
                    rewrite Hh, Hl, Hv; cbn [orb negb]..|vm_compute; repeat split].
  - destruct Hop as [-> | ->]; unfold compute_range_transform; rewrite Hf;
      rewrite Z.geb_leb; destruct (Z.leb_spec (type_max (vartype v))
                                     (int_val (convert_const_to_int c (vartype v))));
      destruct (Z.eqb_spec (int_val (convert_const_to_int c (vartype v)))
                  (type_max (vartype v))); try lia; reflexivity.
  - destruct Hop as [-> | ->]; unfold compute_range_transform; rewrite Hf;
      rewrite Z.geb_leb; destruct (Z.leb_spec (type_max (vartype v))
                                     (int_val (convert_const_to_int c (vartype v))));
      destruct (Z.eqb_spec (int_val (convert_const_to_int c (vartype v)))
                  (type_max (vartype v))); try lia; reflexivity.
Qed.

Lemma simplify_range_fraction_witness :
  num2int_support_simplify sample_ops (pred_col_const 91004 INT4OID num_10_5) =
  Some (build_native_opexpr NUM2INT_INT4GE_OID (col INT4OID) (10 + 1) INT4OID).
Proof.
  destruct (simplify_range_fraction sample_ops 91004 (col INT4OID)
              {| constisnull := false; constvalue := DNumeric num_10_5 |} 90004
              OP_TYPE_GT (numeric_wfb_sound num_10_5 eq_refl) eq_refl
              ltac:(discriminate) eq_refl eq_refl) as [H _].
  unfold pred_col_const. rewrite (H (or_introl eq_refl)). vm_compute. reflexivity.
Defined.

(** C4: when the converted constant is out of range of the column type,
    the predicate folds to a boolean constant fixed by the operator kind
    and the overflow direction (at most one direction is set): [=] to
    false, [<>] to true, [<] and [<=] to "above range", [>] and [>=] to
    "below range"; no native predicate is built. *)
Theorem simplify_out_of_range ops fid v c opno op :
  find_operator_by_funcid ops fid = (opno, op) -> opno <> InvalidOid ->
  op <> OP_TYPE_UNKNOWN ->
  out_of_range_high (convert_const_to_int c (vartype v)) ||
  out_of_range_low (convert_const_to_int c (vartype v)) = true ->
  out_of_range_high (convert_const_to_int c (vartype v)) &&
  out_of_range_low (convert_const_to_int c (vartype v)) = false /\
  num2int_support_simplify ops
    {| fcall_funcid := fid; args := [ArgVar v; ArgConst c] |} =
  Some (BoolConst
          match op with
          | OP_TYPE_EQ => false
          | OP_TYPE_NE => true
          | OP_TYPE_LT | OP_TYPE_LE => out_of_range_high (convert_const_to_int c (vartype v))
          | OP_TYPE_GT | OP_TYPE_GE => out_of_range_low (convert_const_to_int c (vartype v))
          | OP_TYPE_UNKNOWN => false
          end).
Proof.
  intros Hfind Hopno Hop Hoor.
  assert (Hnull := convert_null_invalid c (vartype v) (or_intror Hoor)).
  split; [apply convert_direction|].
  unfold_simplify Hfind Hopno Hnull. rewrite Hoor.
  destruct op; [contradiction|reflexivity..].
Qed.

Lemma simplify_out_of_range_witness :
  num2int_support_simplify sample_ops (pred_col_const 91003 INT8OID num_1e20m1) =
  Some (BoolConst (out_of_range_high
          (convert_const_to_int {| constisnull := false; constvalue := DNumeric num_1e20m1 |}
             INT8OID))).
Proof.
  destruct (simplify_out_of_range sample_ops 91003 (col INT8OID)
              {| constisnull := false; constvalue := DNumeric num_1e20m1 |} 90003
              OP_TYPE_LT eq_refl ltac:(discriminate) ltac:(discriminate)
              ltac:(vm_compute; reflexivity)) as [_ H].
  exact H.
Defined.

(** C5 (as the code has it): on an int8 column, [col > 99999999999999999999]
    (a constant above the int64 range) folds to the boolean constant
    false, not true: no int64 value exceeds it. *)
Theorem simplify_int8_gt_huge_false ops fid opno :
  find_operator_by_funcid ops fid = (opno, OP_TYPE_GT) -> opno <> InvalidOid ->
  exact_compare num_1e20m1 PG_INT64_MAX = Gt /\
  num2int_support_simplify ops (pred_col_const fid INT8OID num_1e20m1) =
    Some (BoolConst false).
Proof.
  intros Hfind Hopno. split; [reflexivity|].
  unfold pred_col_const.
  unfold_simplify Hfind Hopno (eq_refl : constisnull
    {| constisnull := false; constvalue := DNumeric num_1e20m1 |} = false).
  vm_compute. reflexivity.
Qed.

Lemma simplify_int8_gt_huge_false_witness :
  num2int_support_simplify sample_ops (pred_col_const 91004 INT8OID num_1e20m1) =
    Some (BoolConst false).
Proof.
  exact (proj2 (simplify_int8_gt_huge_false sample_ops 91004 90004 eq_refl
                  ltac:(discriminate))).
Defined.

(** C5 counterexample: the simplifier does not fold
    [int8 col > 99999999999999999999] to true. *)
Lemma simplify_int8_gt_huge_counterexample :
  num2int_support_simplify sample_ops (pred_col_const 91004 INT8OID num_1e20m1) <>
    Some (BoolConst true).
Proof. vm_compute. discriminate. Qed.

(** C6: an equality predicate whose constant converts validly folds to
    false when the constant has a fractional part, and otherwise becomes
    the native same-width equality against the floor, which is then the
    exact value of a numeric constant.  On int4, [col = 10.0] becomes
    the native [col = 10] and [col = 10.5] folds to false. *)
Theorem simplify_eq ops fid v c opno :
  const_wf c ->
  find_operator_by_funcid ops fid = (opno, OP_TYPE_EQ) -> opno <> InvalidOid ->
  valid (convert_const_to_int c (vartype v)) = true ->
  (has_fraction (convert_const_to_int c (vartype v)) = true ->
   num2int_support_simplify ops
     {| fcall_funcid := fid; args := [ArgVar v; ArgConst c] |} =
   Some (BoolConst false)) /\
  (has_fraction (convert_const_to_int c (vartype v)) = false ->
   num2int_support_simplify ops
     {| fcall_funcid := fid; args := [ArgVar v; ArgConst c] |} =
   Some (build_native_opexpr (get_native_op_oid OP_TYPE_EQ (vartype v)) v
           (int_val (convert_const_to_int c (vartype v))) (vartype v)) /\
   forall num, constvalue c = DNumeric num ->
     exact_compare num (int_val (convert_const_to_int c (vartype v))) = Eq) /\
  num2int_support_simplify sample_ops (pred_col_const 91001 INT4OID num_10_0) =
    Some (OpExprNode NUM2INT_INT4EQ_OID (col INT4OID) INT4OID 10) /\
  num2int_support_simplify sample_ops (pred_col_const 91001 INT4OID num_10_5) =
    Some (BoolConst false).
Proof.
  intros Hwf Hfind Hopno Hv.
  assert (Hnull := convert_null_invalid c (vartype v) (or_introl Hv)).
  destruct (convert_valid_in_range _ _ Hv) as [Hh Hl].
  split; [|split; [|vm_compute; split; reflexivity]];
    intros Hf; [|split]; try (unfold_simplify Hfind Hopno Hnull;
                             rewrite Hh, Hl, Hv, Hf; reflexivity).
  intros num Ec. unfold const_wf in Hwf. rewrite Ec in Hwf.
  apply (convert_numeric_integral c); assumption.
Qed.

Lemma simplify_eq_witness :
  num2int_support_simplify sample_ops (pred_col_const 91001 INT4OID num_10_0) =
  Some (build_native_opexpr NUM2INT_INT4EQ_OID (col INT4OID) 10 INT4OID).
Proof.
  destruct (simplify_eq sample_ops 91001 (col INT4OID)
              {| constisnull := false; constvalue := DNumeric num_10_0 |} 90001
              (numeric_wfb_sound num_10_0 eq_refl) eq_refl
              ltac:(discriminate) eq_refl) as [_ [H _]].
  unfold pred_col_const. rewrite (proj1 (H eq_refl)). reflexivity.
Defined.

(** ** Lemmas on the float comparators *)

Lemma round_int_small n : Z.abs n <= 16777216 -> round_int 24 n = n.
Proof.
  intros H. unfold round_int.
  destruct (Z.ltb_spec (Z.abs n) (2 ^ 24)) as [_|Hge]; [reflexivity|].
  assert (Hn : n = 16777216 \/ n = -16777216) by lia.
  destruct Hn as [-> | ->]; vm_compute; reflexivity.
Qed.

(** ** Claims on the special values and the float comparators *)

(** C7: NaN and +Infinity compare greater than every integer (the
    comparator returns +1) and -Infinity compares less (-1), in the
    numeric comparator, its int2/int4/int8 entry points, and the six
    float comparators. *)
Theorem special_values_total_order (v : Z) :
  numeric_cmp_int64_direct NumNaN v = 1 /\
  numeric_cmp_int64_direct NumPInf v = 1 /\
  numeric_cmp_int64_direct NumNInf v = -1 /\
  (forall cmp, In cmp [numeric_cmp_int2_internal; numeric_cmp_int4_internal;
                       numeric_cmp_int8_internal] ->
     cmp NumNaN v = 1 /\ cmp NumPInf v = 1 /\ cmp NumNInf v = -1) /\
  (forall cmp, In cmp [float4_cmp_int2_internal; float4_cmp_int4_internal;
                       float4_cmp_int8_internal; float8_cmp_int2_internal;
                       float8_cmp_int4_internal; float8_cmp_int8_internal] ->
     cmp FloatNaN v = 1 /\ cmp (FloatInf false) v = 1 /\ cmp (FloatInf true) v = -1).
Proof.
  split; [reflexivity|]. split; [reflexivity|]. split; [reflexivity|].
  split; intros cmp Hin; repeat (destruct Hin as [<- | Hin]);
    try contradiction; repeat split; reflexivity.
Qed.

Lemma special_values_total_order_witness :
  float8_cmp_int8_internal (FloatInf true) 7 = -1.
Proof.
  destruct (special_values_total_order 7) as [_ [_ [_ [_ H]]]].
  destruct (H float8_cmp_int8_internal ltac:(simpl; tauto)) as [_ [_ E]].
  exact E.
Defined.

(** C8: [float4_cmp_int4_internal f n] is 0 exactly when [f] equals [n]
    for [|n| <= 2^24]; for [|n| > 2^24] a 0 result requires that
    [(int32)(float4)n] give back [n]; and for [n = 2^24 + 1] and the
    nearest float4, [2^24], the result is not 0. *)
Theorem float4_cmp_int4_equality :
  (forall f n, Z.abs n <= 16777216 ->
     float4_cmp_int4_internal f n = 0 <-> float_eq f (FloatFinite n 0) = true) /\
  (forall f n, 16777216 < Z.abs n ->
     float4_cmp_int4_internal f n = 0 -> float_to_int32 (int_to_float4 n) = n) /\
  int_to_float4 16777217 = FloatFinite 16777216 0 /\
  float4_cmp_int4_internal (int_to_float4 16777217) 16777217 <> 0.
Proof.
  split; [|split; [|split; [reflexivity | vm_compute; discriminate]]].
  - intros f n Hn. unfold float4_cmp_int4_internal, float_special_cmp.
    destruct f as [|[|]|m e]; cbn [isnan isinf float_gt float_eq float_cmp];
      [split; discriminate..|].
    cbv zeta. unfold int_to_float4. rewrite (round_int_small n Hn).
    replace (Z.abs n >? 16777216) with false
      by (symmetry; rewrite Z.gtb_ltb; apply Z.ltb_ge; lia).
    cbn [andb]. unfold float_lt, float_gt, float_eq. cbn [float_cmp].
    destruct (Z.compare _ _); split; congruence.
  - intros f n Hn. unfold float4_cmp_int4_internal, float_special_cmp.
    destruct f as [|[|]|m e]; cbn [isnan isinf float_gt float_cmp];
      [discriminate..|].
    cbv zeta.
    replace (Z.abs n >? 16777216) with true
      by (symmetry; rewrite Z.gtb_ltb; apply Z.ltb_lt; lia).
    cbn [andb]. destruct (Z.eqb_spec (float_to_int32 (int_to_float4 n)) n) as [E|E];
      [intros; exact E|cbn [negb]].
    repeat match goal with |- context [if ?b then _ else _] => destruct b end;
      discriminate.
Qed.

Lemma float4_cmp_int4_equality_witness :
  float4_cmp_int4_internal (FloatFinite 5 1) 10 = 0.
Proof.
  destruct float4_cmp_int4_equality as [H _].
  apply (H (FloatFinite 5 1) 10 ltac:(vm_compute; discriminate)).
  vm_compute. reflexivity.
Defined.

(** ** Lemmas on the hash adapters *)

Lemma base10000_digits_horner l fuel :
  Forall (fun d => 0 <= d < NUM2INT_NBASE) l -> l <> [] -> hd 0 l <> 0 ->
  (length l <= fuel)%nat ->
  base10000_digits fuel (horner 0 l) = rev l.
Proof.
  revert fuel. induction l as [|d l' IH] using rev_ind; intros fuel Hf Hne Hhd Hlen;
    [congruence|].
  rewrite length_app in Hlen. cbn [length] in Hlen.
  destruct fuel as [|f]; [lia|].
  apply Forall_app in Hf as [Hf' Hd]. inversion Hd as [|? ? [Hd0 HdB] _]; subst.
  rewrite horner_app. cbn [horner]. rewrite rev_app_distr. cbn [rev app].
  pose proof (horner_nonneg l' (Forall_digits_nonneg l' Hf')) as Hx.
  assert (Hpos : horner 0 l' * NUM2INT_NBASE + d > 0).
  { destruct l' as [|d0 r].
    - cbn in Hhd |- *. lia.
    - cbn [hd app] in Hhd.
      assert (1 <= horner 0 (d0 :: r)).
      { pose proof (horner_lower d0 r) as Hl.
        inversion Hf' as [|? ? [Hd1 _] Hr]; subst.
        assert (1 <= d0) by lia.
        specialize (Hl ltac:(lia) (Forall_digits_nonneg r Hr)).
        pose proof (pow_B_ge1 (length r)). lia. }
      unfold NUM2INT_NBASE in *. lia. }
  cbn [base10000_digits]. replace (_ >? 0) with true by (symmetry; lia).
  rewrite <- (Z.mod_unique (horner 0 l' * NUM2INT_NBASE + d) NUM2INT_NBASE
                (horner 0 l') d) by (lia || ring).
  rewrite <- (Z.div_unique (horner 0 l' * NUM2INT_NBASE + d) NUM2INT_NBASE
                (horner 0 l') d) by (lia || ring).
  f_equal.
  destruct l' as [|d0 r].
  - destruct f; reflexivity.
  - apply IH; [assumption | discriminate | exact Hhd | cbn [length] in *; lia].
Qed.

Lemma drop_zeros_repeat m l :
  hd 0 l <> 0 -> drop_zeros (repeat 0 m ++ l) = l.
Proof.
  intros H. induction m as [|m IH]; cbn [repeat app].
  - destruct l as [|x r]; [reflexivity|]. cbn in H.
    destruct x; [congruence | reflexivity | reflexivity].
  - exact IH.
Qed.

Lemma hd_rev_last (l : list Z) : hd 0 (rev l) = last l 0.
Proof.
  induction l as [|x r IH] using rev_ind; [reflexivity|].
  rewrite rev_app_distr. cbn. rewrite last_app_ne by discriminate. reflexivity.
Qed.

Lemma strip_trailing_zeros_pad ds m :
  ds <> [] -> last ds 0 <> 0 ->
  strip_trailing_zeros (ds ++ repeat 0 m) = ds.
Proof.
  intros Hne Hl. unfold strip_trailing_zeros.
  rewrite rev_app_distr, rev_repeat, drop_zeros_repeat, rev_involutive; [reflexivity|].
  rewrite hd_rev_last. exact Hl.
Qed.

Lemma count_leading_zeros_nz (l : list Z) : hd 0 l <> 0 -> count_leading_zeros l = O.
Proof. destruct l as [|x r]; [reflexivity|]. cbn. destruct x; [congruence|reflexivity..]. Qed.

(** The digit array the adapter builds for an integer equal to a stored
    numeric, and its weight, are the numeric's own digits (padded with the
    zero digits up to the decimal point) and weight. *)
Lemma hash_digits_of_numeric s w ds n :
  numeric_wf (NumFinite s w ds) -> ds <> [] -> in_int64 n ->
  exact_compare (NumFinite s w ds) n = Eq ->
  n <> 0 /\
  rev (base10000_digits 5 (int64_magnitude n)) =
    ds ++ repeat 0 (Z.to_nat (w + 1 - Z.of_nat (length ds))) /\
  Z.of_nat (length ds) <= w + 1.
Proof.
  intros Hwf Hne Hn Heq. pose proof Hwf as [Hf Hhl]. destruct (Hhl Hne) as [Hh Hl].
  rewrite exact_compare_spec in Heq by assumption. cbv zeta in Heq.
  destruct (has_fraction_exact w ds) eqn:Hfr.
  { destruct (_ <? n); discriminate. }
  apply Z.compare_eq in Heq.
  pose proof (trunc_integral_pos ds w Hf Hne Hh Hfr) as Ht1.
  assert (Hk : Z.of_nat (length ds) <= w + 1)
    by (unfold has_fraction_exact, frac_digits in Hfr; apply Z.ltb_ge in Hfr; lia).
  assert (Hmag : int64_magnitude n = trunc_magnitude w ds).
  { unfold int64_magnitude. destruct s; cbn [signed is_pos] in Heq; subst n.
    - replace (trunc_magnitude w ds <? 0) with false by (symmetry; apply Z.ltb_ge; lia).
      reflexivity.
    - replace (- trunc_magnitude w ds <? 0) with true by (symmetry; apply Z.ltb_lt; lia).
      destruct (Z.eqb_spec (- trunc_magnitude w ds) PG_INT64_MIN) as [E|E];
        unfold PG_INT64_MIN, PG_INT64_MAX in *; lia. }
  assert (Hw : w <= 4).
  { destruct (Z.leb_spec w 4) as [|Hw]; [assumption|].
    pose proof (big_weight_trunc ds w Hf Hne Hh Hw).
    unfold in_int64, PG_INT64_MIN, PG_INT64_MAX in *.
    destruct s; cbn [signed is_pos] in Heq; lia. }
  split; [destruct s; cbn [signed is_pos] in Heq; lia|]. split; [|assumption].
  set (m := Z.to_nat (w + 1 - Z.of_nat (length ds))).
  assert (Hm : Z.of_nat m = w + 1 - Z.of_nat (length ds)) by (unfold m; lia).
  assert (HT : trunc_magnitude w ds = horner 0 (ds ++ repeat 0 m)).
  { rewrite horner_app, horner_repeat0, Hm. unfold trunc_magnitude, frac_digits.
    destruct (Z.leb_spec 0 (Z.of_nat (length ds) - (w + 1))) as [H0|H0].
    - assert (Z.of_nat (length ds) - (w + 1) = 0) as -> by lia.
      replace (w + 1 - Z.of_nat (length ds)) with 0 by lia.
      rewrite Z.pow_0_r, Z.div_1_r, Z.mul_1_r. reflexivity.
    - f_equal. f_equal. lia. }
  rewrite Hmag, HT, base10000_digits_horner, rev_involutive; [reflexivity|..].
  - apply Forall_app. split; [assumption|]. apply Forall_forall.
    intros x Hx. apply repeat_spec in Hx. subst. unfold NUM2INT_NBASE. lia.
  - destruct ds; [congruence | discriminate].
  - destruct ds; [congruence | exact Hh].
  - rewrite length_app, repeat_length. lia.
Qed.

(** ** Claim on the hash adapters *)

(** C9: for every integer of the operand width and every stored numeric
    equal to it, the integer-as-numeric hash (the unseeded one and the
    seeded extended one, from int2, int4 and int8) is the native numeric
    hash of that numeric; this covers 0 and [PG_INT64_MIN]. *)
Theorem hash_int_as_numeric_matches hash_any hash_any_extended num n seed :
  numeric_wf num -> exact_compare num n = Eq ->
  (in_int64 n ->
   hash_int8_as_numeric hash_any n = hash_numeric hash_any num /\
   hash_int8_as_numeric_extended hash_any_extended n seed =
     hash_numeric_extended hash_any_extended num seed) /\
  (in_int32 n ->
   hash_int4_as_numeric hash_any n = hash_numeric hash_any num /\
   hash_int4_as_numeric_extended hash_any_extended n seed =
     hash_numeric_extended hash_any_extended num seed) /\
  (in_int16 n ->
   hash_int2_as_numeric hash_any n = hash_numeric hash_any num /\
   hash_int2_as_numeric_extended hash_any_extended n seed =
     hash_numeric_extended hash_any_extended num seed).
Proof.
  intros Hwf Heq.
  assert (Hmain : in_int64 n ->
    hash_int64_as_numeric_internal hash_any n = hash_numeric hash_any num /\
    hash_int64_as_numeric_extended_internal hash_any_extended n seed =
      hash_numeric_extended hash_any_extended num seed).
  { intros Hn. destruct num as [| | |s w ds]; try discriminate.
    destruct (list_eq_dec Z.eq_dec ds []) as [->|Hne].
    - rewrite exact_compare_zero in Heq. apply Z.compare_eq in Heq. subst n.
      split; reflexivity.
    - destruct (hash_digits_of_numeric s w ds n Hwf Hne Hn Heq) as [Hn0 [Hd Hk]].
      destruct (Hwf) as [_ Hhl]. destruct (Hhl Hne) as [Hh Hl].
      unfold hash_int64_as_numeric_internal, hash_int64_as_numeric_extended_internal,
        hash_numeric, hash_numeric_extended.
      replace (n =? 0) with false by (symmetry; apply Z.eqb_neq; exact Hn0).
      rewrite Hd, count_leading_zeros_nz by exact Hh. cbn [skipn Z.of_nat].
      assert (Hs0 : strip_trailing_zeros ds = ds).
      { pose proof (strip_trailing_zeros_pad ds 0 Hne Hl) as E.
        rewrite app_nil_r in E. exact E. }
      rewrite strip_trailing_zeros_pad, length_app, repeat_length by assumption.
      replace (Z.of_nat (length ds + Z.to_nat (w + 1 - Z.of_nat (length ds))) - 1)
        with (w - 0) by lia.
      destruct ds as [|d r]; [congruence|]. rewrite Hs0. split; reflexivity. }
  unfold in_int16, in_int32, in_int64, PG_INT16_MIN, PG_INT16_MAX, PG_INT32_MIN,
    PG_INT32_MAX, PG_INT64_MIN, PG_INT64_MAX in *.
  split; [|split]; intros Hn; apply Hmain; lia.
Qed.

Lemma hash_int_as_numeric_matches_witness :
  hash_int8_as_numeric (fun l => fold_left (fun a d => a * 31 + d) l 7) PG_INT64_MIN =
  hash_numeric (fun l => fold_left (fun a d => a * 31 + d) l 7) num_int64_min.
Proof.
  destruct (hash_int_as_numeric_matches
              (fun l => fold_left (fun a d => a * 31 + d) l 7)
              (fun l s => fold_left (fun a d => a * 31 + d) l s)
              num_int64_min PG_INT64_MIN 42
              (numeric_wfb_sound num_int64_min eq_refl) eq_refl) as [H _].
  apply H. unfold in_int64, PG_INT64_MIN, PG_INT64_MAX. lia.
Defined.

(** ** Lemmas on the operator functions *)

(** The comparator on every stored numeric, NaN and the infinities
    included. *)
Lemma numeric_cmp_int64_direct_exact num v :
  numeric_wf num -> in_int64 v ->
  numeric_cmp_int64_direct num v = cmp_to_int (exact_compare num v).
Proof.
  intros Hwf Hv. destruct num as [| | |s w ds]; try reflexivity.
  apply numeric_cmp_int64_direct_finite; assumption.
Qed.

Lemma numeric_eq_int64_direct_exact num v :
  numeric_wf num -> in_int64 v ->
  numeric_eq_int64_direct num v = cmp_holds OP_TYPE_EQ (exact_compare num v).
Proof.
  intros Hwf Hv. destruct num as [| | |s w ds]; try reflexivity.
  unfold in_int64, PG_INT64_MIN in Hv.
  destruct (list_eq_dec Z.eq_dec ds []) as [-> | Hne].
  - rewrite exact_compare_zero.
    unfold numeric_eq_int64_direct, num2int_numeric_sign.
    destruct v; reflexivity.
  - pose proof Hwf as [Hf Hhl]. specialize (Hhl Hne) as [Hh Hl].
    rewrite exact_compare_spec by assumption.
    unfold numeric_eq_int64_direct. cbn [NUM2INT_NUMERIC_IS_SPECIAL]. cbv zeta.
    rewrite sign_finite, to_int64_spec by assumption.
    pose proof (trunc_nonneg ds w Hf) as Ht0.
    destruct (has_fraction_exact w ds) eqn:Hfr.
    + set (t := trunc_magnitude w ds) in *. clearbody t.
      destruct (is_pos s); zsplit; cbn [cmp_holds]; try reflexivity; lia.
    + pose proof (trunc_integral_pos ds w Hf Hne Hh Hfr).
      set (t := trunc_magnitude w ds) in *. clearbody t. cbv zeta. unfold signed.
      destruct (is_pos s); zsplit; cbn [cmp_holds]; try reflexivity;
        unfold PG_INT64_MAX in *; lia.
Qed.

(** Every [int op numeric] function reads the exact comparison of the
    integer with the numeric. *)
Lemma int_numeric_operator_exact t op x num :
  numeric_wf num -> in_int64 x -> op <> OP_TYPE_UNKNOWN ->
  int_numeric_operator t op x num = cmp_holds op (CompOpp (exact_compare num x)).
Proof.
  intros Hwf Hx Hop.
  pose proof (numeric_cmp_int64_direct_exact num x Hwf Hx) as Hc.
  pose proof (numeric_eq_int64_direct_exact num x Hwf Hx) as He.
  unfold int_numeric_operator.
  destruct op; [contradiction|..];
    destruct (t =? INT2OID), (t =? INT4OID);
    unfold int2_eq_numeric, int4_eq_numeric, int8_eq_numeric, int2_ne_numeric,
      int4_ne_numeric, int8_ne_numeric, int2_lt_numeric, int4_lt_numeric,
      int8_lt_numeric, int2_gt_numeric, int4_gt_numeric, int8_gt_numeric,
      int2_le_numeric, int4_le_numeric, int8_le_numeric, int2_ge_numeric,
      int4_ge_numeric, int8_ge_numeric, numeric_cmp_int2_internal,
      numeric_cmp_int4_internal, numeric_cmp_int8_internal;
    rewrite ?Hc, ?He; destruct (exact_compare num x); reflexivity.
Qed.

Ltac oid_eqb :=
  repeat match goal with
         | |- context [?a =? ?b] =>
             let r := eval vm_compute in (a =? b) in
             lazymatch r with true => idtac | false => idtac end;
             change (a =? b) with r
         end; cbv beta iota;
  repeat match goal with
         | H : context [?a =? ?b] |- _ =>
             let r := eval vm_compute in (a =? b) in
             lazymatch r with true => idtac | false => idtac end;
             change (a =? b) with r in H; cbv beta iota in H
         end.

(** [num2int_numeric_floor_to_int64] against the exact value: a result
    [v] is the floor, and a failure means the value lies beyond int64. *)
Lemma floor_to_int64_exact s w ds :
  numeric_wf (NumFinite s w ds) ->
  (forall v, num2int_numeric_floor_to_int64 (NumFinite s w ds) = Some v ->
     in_int64 v /\
     forall x, exact_compare (NumFinite s w ds) x =
       if num2int_numeric_is_integral (NumFinite s w ds) then Z.compare v x
       else if v <? x then Lt else Gt) /\
  (num2int_numeric_floor_to_int64 (NumFinite s w ds) = None ->
     ds <> [] /\
     (is_pos s = false ->
        forall x, PG_INT64_MIN <= x -> exact_compare (NumFinite s w ds) x = Lt) /\
     (is_pos s = true ->
        forall x, x <= PG_INT64_MAX -> exact_compare (NumFinite s w ds) x = Gt) /\
     (is_pos s = true ->
        exact_compare (NumFinite s w ds) (PG_INT64_MAX + 1) <> Lt)).
Proof.
  intros Hwf.
  destruct (list_eq_dec Z.eq_dec ds []) as [-> | Hne].
  { split; [|discriminate].
    intros v Hv. injection Hv as <-.
    split; [unfold in_int64, PG_INT64_MIN, PG_INT64_MAX; lia|].
    intros x. rewrite exact_compare_zero. reflexivity. }
  pose proof Hwf as [Hf Hhl]. specialize (Hhl Hne) as [Hh Hl].
  pose proof (trunc_nonneg ds w Hf) as Ht0.
  rewrite is_integral_finite by assumption.
  destruct (has_fraction_exact w ds) eqn:Hfr; cbn [negb].
  - rewrite floor_to_int64_frac_spec by assumption. cbv zeta.
    split.
    + intros v Hv.
      destruct (Z.leb_spec (trunc_magnitude w ds) PG_INT64_MAX); [|discriminate].
      injection Hv as <-.
      split; [unfold in_int64, PG_INT64_MIN, PG_INT64_MAX in *; destruct (is_pos s); lia|].
      intros x. rewrite exact_compare_spec, Hfr by assumption. reflexivity.
    + intros Hn.
      destruct (Z.leb_spec (trunc_magnitude w ds) PG_INT64_MAX); [discriminate|].
      split; [assumption|].
      split; [|split]; intros Hs; [intros x Hx| intros x Hx|];
        rewrite exact_compare_spec, Hfr by assumption; cbv zeta; rewrite Hs;
        set (t := trunc_magnitude w ds) in *; clearbody t;
        unfold PG_INT64_MIN, PG_INT64_MAX in *; zsplit; try reflexivity;
        try discriminate; lia.
  - assert (HL : 1 <= Z.of_nat (length ds))
      by (destruct ds; [congruence | simpl length; lia]).
    assert (Hk : Z.of_nat (length ds) <= w + 1)
      by (unfold has_fraction_exact, frac_digits in Hfr; apply Z.ltb_ge in Hfr; lia).
    pose proof (trunc_integral_pos ds w Hf Hne Hh Hfr) as Ht1.
    assert (E : num2int_numeric_floor_to_int64 (NumFinite s w ds) =
                num2int_numeric_to_int64 (NumFinite s w ds)).
    { unfold num2int_numeric_floor_to_int64.
      cbn [NUM2INT_NUMERIC_NDIGITS NUM2INT_NUMERIC_WEIGHT].
      replace (Z.of_nat (length ds) =? 0) with false
        by (symmetry; apply Z.eqb_neq; lia).
      destruct (Z.gtb_spec w 4).
      - rewrite to_int64_spec, Hfr by assumption.
        pose proof (big_weight_trunc ds w Hf Hne Hh ltac:(lia)).
        cbv zeta. destruct (is_pos s); zsplit; try reflexivity; lia.
      - replace (w + 1 <=? 0) with false by (symmetry; apply Z.leb_gt; lia).
        replace (Z.of_nat (length ds) <=? w + 1) with true
          by (symmetry; apply Z.leb_le; lia).
        reflexivity. }
    rewrite E, to_int64_spec, Hfr by assumption. cbv zeta.
    split.
    + intros v Hv. destruct (is_pos s) eqn:Hs;
        [destruct (Z.leb_spec (trunc_magnitude w ds) PG_INT64_MAX)
        |destruct (Z.leb_spec (trunc_magnitude w ds) (PG_INT64_MAX + 1))];
        try discriminate; injection Hv as <-;
        (split; [unfold in_int64, PG_INT64_MIN, PG_INT64_MAX in *; lia|]);
        intros x; rewrite exact_compare_spec, Hfr by assumption; cbv zeta;
        unfold signed; rewrite Hs; reflexivity.
    + intros Hn. split; [assumption|].
      split; [|split]; intros Hs; [intros x Hx| intros x Hx|];
        rewrite Hs in Hn;
        match type of Hn with
        | context [?a <=? ?b] => destruct (Z.leb_spec a b); [discriminate|]
        end;
        rewrite exact_compare_spec, Hfr by assumption; cbv zeta; unfold signed;
        rewrite Hs;
        set (t := trunc_magnitude w ds) in *; clearbody t;
        unfold PG_INT64_MIN, PG_INT64_MAX in *; zsplit; try reflexivity;
        try discriminate; lia.
Qed.

(** ** Lemmas on the planner rewrites *)

Lemma in_int_type_int64 t x : int_type_ok t -> in_int_type t x -> in_int64 x.
Proof.
  intros [-> | [-> | ->]]; unfold in_int_type; oid_eqb;
    unfold in_int16, in_int32, in_int64, PG_INT16_MIN, PG_INT16_MAX, PG_INT32_MIN,
      PG_INT32_MAX, PG_INT64_MIN, PG_INT64_MAX; lia.
Qed.

Lemma in_int_type_max t x : int_type_ok t -> in_int_type t x -> x <= type_max t.
Proof.
  intros [-> | [-> | ->]]; unfold in_int_type, type_max; oid_eqb;
    unfold in_int16, in_int32, in_int64; lia.
Qed.

Lemma type_max_in t : int_type_ok t -> in_int_type t (type_max t).
Proof.
  intros [-> | [-> | ->]]; unfold in_int_type, type_max; oid_eqb;
    unfold in_int16, in_int32, in_int64, PG_INT16_MIN, PG_INT16_MAX, PG_INT32_MIN,
      PG_INT32_MAX, PG_INT64_MIN, PG_INT64_MAX; lia.
Qed.

Lemma in_int_type_succ t v :
  int_type_ok t -> in_int_type t v -> v < type_max t -> in_int_type t (v + 1).
Proof.
  intros [-> | [-> | ->]]; unfold in_int_type, type_max; oid_eqb;
    unfold in_int16, in_int32, in_int64; lia.
Qed.

Lemma wrap_signed_id bits v :
  0 < bits -> - 2 ^ (bits - 1) <= v < 2 ^ (bits - 1) -> wrap_signed bits v = v.
Proof.
  intros Hb Hv. unfold wrap_signed.
  assert (Hm : 2 ^ bits = 2 ^ (bits - 1) * 2)
    by (rewrite Z.mul_comm, <- Z.pow_succ_r by lia; f_equal; lia).
  rewrite Hm, Z.div_mul by lia.
  set (P := 2 ^ (bits - 1)) in *.
  destruct (Z.leb_spec 0 v).
  - rewrite Z.mod_small by lia.
    destruct (Z.geb_spec v P); lia.
  - rewrite <- (Z.mod_unique v (P * 2) (-1) (v + P * 2)) by lia.
    destruct (Z.geb_spec (v + P * 2) P); lia.
Qed.

Ltac oid_existsb :=
  repeat match goal with
         | |- context [existsb ?f ?l] =>
             let r := eval vm_compute in (existsb f l) in
             lazymatch r with true => idtac | false => idtac end;
             change (existsb f l) with r
         end; cbv beta iota.

(** A native clause built from the table of [get_native_op_oid] holds
    exactly when the column value stands in relation [op] to the
    constant. *)
Lemma native_node_holds op t var v x :
  int_type_ok t -> op <> OP_TYPE_UNKNOWN -> in_int_type t v ->
  node_holds (build_native_opexpr (get_native_op_oid op t) var v t) x =
  Some (cmp_holds op (Z.compare x v)).
Proof.
  intros Ht Hop Hv.
  destruct Ht as [-> | [-> | ->]]; unfold in_int_type in Hv; oid_eqb;
    unfold build_native_opexpr, make_int_const; oid_eqb;
    [rewrite (wrap_signed_id 16 v) by (unfold in_int16, PG_INT16_MIN, PG_INT16_MAX in Hv;
                                       cbn; lia)
    |rewrite (wrap_signed_id 32 v) by (unfold in_int32, PG_INT32_MIN, PG_INT32_MAX in Hv;
                                       cbn; lia)
    |];
    destruct op; try contradiction;
    cbn [node_holds get_native_op_oid OpType_to_nat pred native_op_oids nth
         int_type_index];
    unfold native_op_holds; oid_eqb; oid_existsb;
    unfold cmp_holds; zsplit; reflexivity || lia.
Qed.

(** The conversion of a numeric constant for a column of an integer
    type: a valid result is the floor, inside the column range, with
    [has_fraction] telling whether the constant is integral; an overflow
    direction means the constant lies above (below) every column
    value. *)
Lemma convert_numeric_spec c t num :
  constvalue c = DNumeric num -> numeric_wf num -> int_type_ok t ->
  (valid (convert_const_to_int c t) = true ->
     in_int_type t (int_val (convert_const_to_int c t)) /\
     forall x, exact_compare num x =
       if has_fraction (convert_const_to_int c t)
       then (if int_val (convert_const_to_int c t) <? x then Lt else Gt)
       else Z.compare (int_val (convert_const_to_int c t)) x) /\
  (out_of_range_high (convert_const_to_int c t) = true ->
     forall x, in_int_type t x -> exact_compare num x = Gt) /\
  (out_of_range_low (convert_const_to_int c t) = true ->
     forall x, in_int_type t x -> exact_compare num x = Lt).
Proof.
  intros Ec Hwf Ht.
  unfold convert_const_to_int. rewrite Ec.
  destruct (constisnull c); [split; [|split]; intros H; discriminate|].
  destruct num as [| | |s w ds]; cbn [NUM2INT_NUMERIC_IS_SPECIAL];
    try (split; [|split]; intros H; discriminate).
  destruct (floor_to_int64_exact s w ds Hwf) as [Hsome Hnone].
  destruct (num2int_numeric_floor_to_int64 _) as [v|] eqn:Efl.
  - destruct (Hsome v eq_refl) as [Hv64 Hform].
    destruct Ht as [-> | [-> | ->]]; unfold type_max; oid_eqb;
      unfold conv_range;
      destruct (num2int_numeric_is_integral _) eqn:Ei; cbn [negb];
      unfold PG_INT16_MIN, PG_INT16_MAX, PG_INT32_MIN, PG_INT32_MAX in *;
      zsplit; cbn [valid has_fraction out_of_range_high out_of_range_low int_val];
      repeat match goal with
             | |- _ /\ _ => split
             | |- _ = true -> _ => intro
             | |- forall _, _ => intro
             end;
      try discriminate; rewrite ?Hform, ?Ei;
      unfold in_int_type in *; oid_eqb;
      unfold in_int16, in_int32, in_int64, PG_INT16_MIN, PG_INT16_MAX,
        PG_INT32_MIN, PG_INT32_MAX, PG_INT64_MIN, PG_INT64_MAX in *;
      zsplit; try reflexivity; lia.
  - destruct (Hnone eq_refl) as [Hne [Hneg [Hpos _]]].
    rewrite sign_finite by exact Hne.
    destruct (is_pos s) eqn:Hs; cbn -[exact_compare in_int_type];
      repeat match goal with
             | |- _ /\ _ => split
             | |- _ = true -> _ => intro
             end;
      try discriminate; intros x Hx;
      pose proof (in_int_type_int64 t x Ht Hx) as Hx64; unfold in_int64 in Hx64.
    + apply Hpos; [reflexivity | lia].
    + apply Hneg; [reflexivity | lia].
Qed.

Lemma some_inv {A} (a b : A) : Some a = Some b -> b = a.
Proof. congruence. Qed.

Lemma pair_inv {A B} (a c : A) (b d : B) : (a, b) = (c, d) -> c = a /\ d = b.
Proof. intros H. injection H as -> ->. split; reflexivity. Qed.

Ltac cmp_finish :=
  cbn [node_holds CompOpp]; unfold cmp_holds; zsplit; try reflexivity; lia.

(** ** Extras: the simplifier and the index condition *)

(** The [SupportRequestSimplify] rewrite of a [col op c] call keeps
    its value on every row. *)
Lemma simplify_var_const_sound ops fid v c num opno op node x :
  constvalue c = DNumeric num -> numeric_wf num ->
  find_operator_by_funcid ops fid = (opno, op) -> op <> OP_TYPE_UNKNOWN ->
  int_type_ok (vartype v) -> in_int_type (vartype v) x ->
  num2int_support_simplify ops
    {| fcall_funcid := fid; args := [ArgVar v; ArgConst c] |} = Some node ->
  node_holds node x = Some (int_numeric_operator (vartype v) op x num).
Proof.
  intros Ec Hwf Hfind Hop Ht Hx.
  pose proof (in_int_type_int64 _ _ Ht Hx) as Hx64.
  pose proof (in_int_type_max _ _ Ht Hx) as Hxm.
  rewrite int_numeric_operator_exact by assumption.
  destruct (convert_numeric_spec c (vartype v) num Ec Hwf Ht) as [Hval [Hhi Hlo]].
  pose proof (convert_direction c (vartype v)) as Hdir.
  unfold num2int_support_simplify. cbn [args fcall_funcid].
  destruct (constisnull c); [discriminate|]. rewrite Hfind.
  destruct (opno =? InvalidOid); [discriminate|].
  set (conv := convert_const_to_int c (vartype v)) in *.
  destruct (out_of_range_high conv) eqn:Eh, (out_of_range_low conv) eqn:El;
    cbn [orb andb negb] in *; [discriminate| | |].
  - rewrite (Hhi eq_refl x Hx). destruct op; try contradiction; intros Hs;
      injection Hs as <-; reflexivity.
  - rewrite (Hlo eq_refl x Hx). destruct op; try contradiction; intros Hs;
      injection Hs as <-; reflexivity.
  - destruct (valid conv) eqn:Ev; [|discriminate]. cbn [negb].
    destruct (Hval eq_refl) as [Hiv Hform]. rewrite Hform.
    pose proof (in_int_type_max _ _ Ht Hiv) as Hivm.
    set (iv := int_val conv) in *.
    destruct op; try contradiction;
      destruct (has_fraction conv) eqn:Ef;
      unfold compute_range_transform; rewrite ?Ef, ?Z.geb_leb;
      try destruct (Z.leb_spec (type_max (vartype v)) iv);
      cbv beta iota; intros Hs; apply some_inv in Hs; subst node;
      try rewrite native_node_holds
        by (assumption || discriminate || (apply in_int_type_succ; assumption || lia));
      cmp_finish.
Qed.

(** On every row, a [col op c] call with a stored numeric constant on an
    int2, int4 or int8 column, when [SupportRequestSimplify] replaces it,
    is replaced by an expression of the same value: the folded boolean or
    the native predicate holds exactly when the original
    [intN op numeric] function returns true. *)
Theorem simplify_numeric_sound ops fid v c num opno op node x :
  constvalue c = DNumeric num -> numeric_wf num ->
  find_operator_by_funcid ops fid = (opno, op) -> op <> OP_TYPE_UNKNOWN ->
  int_type_ok (vartype v) -> in_int_type (vartype v) x ->
  num2int_support_simplify ops
    {| fcall_funcid := fid; args := [ArgVar v; ArgConst c] |} = Some node ->
  node_holds node x = Some (int_numeric_operator (vartype v) op x num).
Proof. exact (simplify_var_const_sound ops fid v c num opno op node x). Qed.

(** With the constant as left operand ([c op col], a [numeric op int]
    call), [SupportRequestSimplify] returns the same replacement as for
    [col op c]: it holds exactly when the [int op numeric] function of the
    same operator kind holds on [(col, c)], the operands of the original
    call swapped.  So [10.5 < col] on int4 becomes [col <= 10], false at
    [col = 11] where the original call is true. *)
Theorem simplify_const_var_swapped ops fid v c num opno op node x :
  constvalue c = DNumeric num -> numeric_wf num ->
  find_operator_by_funcid ops fid = (opno, op) -> op <> OP_TYPE_UNKNOWN ->
  int_type_ok (vartype v) -> in_int_type (vartype v) x ->
  num2int_support_simplify ops
    {| fcall_funcid := fid; args := [ArgConst c; ArgVar v] |} = Some node ->
  node_holds node x = Some (int_numeric_operator (vartype v) op x num) /\
  (num2int_support_simplify sample_ops (
     {| fcall_funcid := 91003;
        args := [ArgConst {| constisnull := false; constvalue := DNumeric num_10_5 |};
                 ArgVar (col INT4OID)] |}) =
     Some (OpExprNode NUM2INT_INT4LE_OID (col INT4OID) INT4OID 10) /\
   numeric_lt_int4 num_10_5 11 = true).
Proof.
  intros Ec Hwf Hfind Hop Ht Hx Hs.
  split; [|split; vm_compute; reflexivity].
  apply (simplify_var_const_sound ops fid v c num opno op node x); try assumption.
Qed.


(** For a [col op c] clause with a stored numeric constant on an int2,
    int4 or int8 column and an operator other than [<>], a non-NULL
    answer of the [SupportRequestIndexCondition] branch is one native
    clause on the same column, never a boolean constant, marked not
    lossy, and it holds on a row exactly when the original
    [intN op numeric] function returns true. *)
Theorem index_condition_numeric_sound ops opno v c num x lossy l :
  constvalue c = DNumeric num -> numeric_wf num ->
  classify_operator ops opno <> OP_TYPE_NE ->
  int_type_ok (vartype v) -> in_int_type (vartype v) x ->
  num2int_support_index_condition ops
    (Some {| opexpr_opno := opno; opexpr_args := [ArgVar v; ArgConst c] |}) =
    (lossy, Some l) ->
  lossy = false /\
  exists n, l = [n] /\
    (exists opno' t k, n = OpExprNode opno' v t k) /\
    node_holds n x = Some (int_numeric_operator (vartype v)
                             (classify_operator ops opno) x num).
Proof.
  intros Ec Hwf Hne Ht Hx.
  pose proof (in_int_type_int64 _ _ Ht Hx) as Hx64.
  pose proof (in_int_type_max _ _ Ht Hx) as Hxm.
  pose proof (type_max_in _ Ht) as Hmax.
  destruct (convert_numeric_spec c (vartype v) num Ec Hwf Ht) as [Hval _].
  unfold num2int_support_index_condition. cbn [opexpr_args opexpr_opno].
  destruct (classify_operator ops opno) eqn:Eop; try contradiction;
    [intros Hs; apply pair_inv in Hs as [_ Hs]; discriminate|..];
    rewrite int_numeric_operator_exact by (assumption || discriminate);
    set (conv := convert_const_to_int c (vartype v)) in *;
    (destruct (valid conv) eqn:Ev;
       [|intros Hs; apply pair_inv in Hs as [_ Hs]; discriminate]);
    destruct (Hval eq_refl) as [Hiv Hform]; rewrite Hform;
    pose proof (in_int_type_max _ _ Ht Hiv) as Hivm;
    set (iv := int_val conv) in *;
    destruct (has_fraction conv) eqn:Ef; cbn [negb andb];
    try (intros Hs; apply pair_inv in Hs as [_ Hs]; discriminate);
    unfold compute_range_transform; rewrite ?Ef, ?Z.geb_leb;
    try destruct (Z.leb_spec (type_max (vartype v)) iv);
    cbv beta iota; intros Hs; apply pair_inv in Hs as [<- Hs];
    apply some_inv in Hs; subst l;
    (split; [reflexivity|]); eexists; (split; [reflexivity|]);
    (split; [unfold build_native_opexpr; destruct (make_int_const _ _); eauto|]);
    rewrite native_node_holds
      by (assumption || discriminate || (apply in_int_type_succ; assumption || lia));
    cmp_finish.
Qed.


(** ** Extras: the numeric operators and their helpers *)

(** Every SQL-callable [numeric op int] and [int op numeric] function,
    and the six [cmp] support functions, read the exact comparison of a
    stored numeric (NaN and the infinities included) with an integer. *)
Theorem numeric_operators_exact num x :
  numeric_wf num -> in_int64 x ->
  (forall op f, In (op, f) numeric_int_operators ->
     f num x = cmp_holds op (exact_compare num x)) /\
  (forall t op, op <> OP_TYPE_UNKNOWN ->
     int_numeric_operator t op x num = cmp_holds op (CompOpp (exact_compare num x))) /\
  numeric_cmp_int2 num x = cmp_to_int (exact_compare num x) /\
  numeric_cmp_int4 num x = cmp_to_int (exact_compare num x) /\
  numeric_cmp_int8 num x = cmp_to_int (exact_compare num x) /\
  int2_cmp_numeric x num = cmp_to_int (CompOpp (exact_compare num x)) /\
  int4_cmp_numeric x num = cmp_to_int (CompOpp (exact_compare num x)) /\
  int8_cmp_numeric x num = cmp_to_int (CompOpp (exact_compare num x)).
Proof.
  intros Hwf Hx.
  pose proof (numeric_cmp_int64_direct_exact num x Hwf Hx) as Hc.
  pose proof (numeric_eq_int64_direct_exact num x Hwf Hx) as He.
  split; [|split; [intros t op Hop; apply int_numeric_operator_exact; assumption|]].
  - intros op f Hin. cbn [numeric_int_operators In] in Hin.
    repeat destruct Hin as [Hin | Hin];
      try (apply pair_inv in Hin as [-> ->]); try contradiction;
      unfold numeric_eq_int2, numeric_eq_int4, numeric_eq_int8, numeric_ne_int2,
        numeric_ne_int4, numeric_ne_int8, numeric_lt_int2, numeric_lt_int4,
        numeric_lt_int8, numeric_gt_int2, numeric_gt_int4, numeric_gt_int8,
        numeric_le_int2, numeric_le_int4, numeric_le_int8, numeric_ge_int2,
        numeric_ge_int4, numeric_ge_int8, numeric_cmp_int2_internal,
        numeric_cmp_int4_internal, numeric_cmp_int8_internal;
      rewrite ?Hc, ?He; destruct (exact_compare num x); reflexivity.
  - unfold numeric_cmp_int2, numeric_cmp_int4, numeric_cmp_int8, int2_cmp_numeric,
      int4_cmp_numeric, int8_cmp_numeric, numeric_cmp_int2_internal,
      numeric_cmp_int4_internal, numeric_cmp_int8_internal.
    rewrite Hc. destruct (exact_compare num x); repeat split.
Qed.

(** The equality functions never disagree with the comparator: on a
    stored numeric and an int64, [numeric_eq_int64_direct] returns true
    exactly when [numeric_cmp_int64_direct] returns 0. *)
Theorem numeric_eq_agrees_with_cmp num x :
  numeric_wf num -> in_int64 x ->
  numeric_eq_int64_direct num x = (numeric_cmp_int64_direct num x =? 0).
Proof.
  intros Hwf Hx.
  rewrite numeric_eq_int64_direct_exact, numeric_cmp_int64_direct_exact by assumption.
  destruct (exact_compare num x); reflexivity.
Qed.

(** [num2int_numeric_to_int64] succeeds with [v] on a stored numeric
    exactly when the numeric is the integer [v] and [v] is in int64: it
    refuses NaN, the infinities, fractions and out-of-range values. *)
Theorem to_int64_exact num v :
  numeric_wf num ->
  (num2int_numeric_to_int64 num = Some v <-> in_int64 v /\ exact_compare num v = Eq).
Proof.
  intros Hwf. destruct num as [| | |s w ds];
    try (split; [discriminate | intros [_ H]; discriminate]).
  destruct (list_eq_dec Z.eq_dec ds []) as [-> | Hne].
  - rewrite exact_compare_zero. cbn. split.
    + intros H. injection H as <-.
      split; [unfold in_int64, PG_INT64_MIN, PG_INT64_MAX; lia | reflexivity].
    + intros [_ H]. destruct v; try discriminate. reflexivity.
  - pose proof Hwf as [Hf Hhl]. specialize (Hhl Hne) as [Hh Hl].
    rewrite to_int64_spec, exact_compare_spec by assumption.
    pose proof (trunc_nonneg ds w Hf) as Ht0.
    destruct (has_fraction_exact w ds).
    + cbv zeta. split; [discriminate|].
      intros [_ H]. destruct (_ <? v); discriminate.
    + cbv zeta. unfold signed.
      destruct (is_pos s);
        [destruct (Z.leb_spec (trunc_magnitude w ds) PG_INT64_MAX)
        |destruct (Z.leb_spec (trunc_magnitude w ds) (PG_INT64_MAX + 1))];
        (split;
         [intros Hs; first
            [discriminate
            |injection Hs as <-;
             split; [unfold in_int64, PG_INT64_MIN, PG_INT64_MAX in *; lia
                    | apply Z.compare_refl]]
         |intros [Hv Hc]; apply Z.compare_eq in Hc; subst v; try reflexivity;
          unfold in_int64, PG_INT64_MIN, PG_INT64_MAX in *; lia]).
Qed.

(** [num2int_numeric_floor_to_int64] on a stored finite numeric returns
    [v] exactly when [v] is in int64 and is the floor of the numeric:
    [v <= num < v + 1]; it fails only when the floor is out of int64. *)
Theorem floor_to_int64_is_floor num v :
  numeric_wf num -> NUM2INT_NUMERIC_IS_SPECIAL num = false ->
  (num2int_numeric_floor_to_int64 num = Some v <->
   in_int64 v /\ exact_compare num v <> Lt /\ exact_compare num (v + 1) = Lt).
Proof.
  intros Hwf Hsp. destruct num as [| | |s w ds]; try discriminate.
  destruct (floor_to_int64_exact s w ds Hwf) as [Hsome Hnone].
  split.
  - intros H. destruct (Hsome v H) as [Hv Hform]. split; [exact Hv|].
    rewrite !Hform.
    destruct (num2int_numeric_is_integral _); zsplit; split; try congruence; lia.
  - intros [Hv [H1 H2]].
    destruct (num2int_numeric_floor_to_int64 _) as [v'|] eqn:Efl.
    + destruct (Hsome v' eq_refl) as [_ Hform]. rewrite !Hform in *.
      f_equal. revert H1 H2.
      destruct (num2int_numeric_is_integral _); zsplit; intros; congruence || lia.
    + destruct (Hnone eq_refl) as [_ [Hneg [Hpos Hmax]]].
      unfold in_int64 in Hv. destruct (is_pos s).
      * destruct (Z.leb_spec (v + 1) PG_INT64_MAX).
        -- rewrite (Hpos eq_refl (v + 1)) in H2 by assumption. discriminate.
        -- replace (v + 1) with (PG_INT64_MAX + 1) in H2 by lia.
           contradiction (Hmax eq_refl).
      * exfalso. apply H1, Hneg; [reflexivity | lia].
Qed.

(** The conversion of a stored numeric constant for an int2, int4 or
    int8 column: a valid result is the floor of the constant, inside the
    column range, and [has_fraction] is set exactly when the constant is
    not that integer; an overflow direction means the constant lies
    above (below) every value of the column type. *)
Theorem convert_numeric_floor c t num :
  constvalue c = DNumeric num -> numeric_wf num -> int_type_ok t ->
  (valid (convert_const_to_int c t) = true ->
     in_int_type t (int_val (convert_const_to_int c t)) /\
     exact_compare num (int_val (convert_const_to_int c t)) <> Lt /\
     exact_compare num (int_val (convert_const_to_int c t) + 1) = Lt /\
     (has_fraction (convert_const_to_int c t) = true <->
      exact_compare num (int_val (convert_const_to_int c t)) <> Eq)) /\
  (out_of_range_high (convert_const_to_int c t) = true ->
     forall x, in_int_type t x -> exact_compare num x = Gt) /\
  (out_of_range_low (convert_const_to_int c t) = true ->
     forall x, in_int_type t x -> exact_compare num x = Lt).
Proof.
  intros Ec Hwf Ht.
  destruct (convert_numeric_spec c t num Ec Hwf Ht) as [Hval Hoor].
  split; [|exact Hoor].
  intros Hv. destruct (Hval Hv) as [Hin Hform]. split; [exact Hin|].
  rewrite !Hform.
  destruct (has_fraction _); zsplit; repeat split; try congruence; lia.
Qed.

(** [num2int_numeric_sign] returns -1, 0 or 1 as a stored numeric
    other than NaN is below, equal to or above zero (the infinities
    included). *)
Theorem numeric_sign_exact num :
  numeric_wf num -> NUM2INT_NUMERIC_IS_NAN num = false ->
  num2int_numeric_sign num = cmp_to_int (exact_compare num 0).
Proof.
  intros Hwf Hnan. destruct num as [| | |s w ds]; try discriminate; try reflexivity.
  destruct (list_eq_dec Z.eq_dec ds []) as [-> | Hne].
  - rewrite exact_compare_zero. reflexivity.
  - pose proof Hwf as [Hf Hhl]. specialize (Hhl Hne) as [Hh Hl].
    rewrite sign_finite, exact_compare_spec by assumption.
    pose proof (trunc_nonneg ds w Hf) as Ht0.
    destruct (has_fraction_exact w ds) eqn:Hfr; cbv zeta.
    + set (t := trunc_magnitude w ds) in *. clearbody t.
      destruct (is_pos s); zsplit; reflexivity || lia.
    + pose proof (trunc_integral_pos ds w Hf Hne Hh Hfr).
      set (t := trunc_magnitude w ds) in *. clearbody t. unfold signed.
      destruct (is_pos s); zsplit; reflexivity || lia.
Qed.

(** [num2int_numeric_is_integral] holds on a stored finite numeric
    exactly when the numeric equals some integer. *)
Theorem numeric_is_integral_exact num :
  numeric_wf num -> NUM2INT_NUMERIC_IS_SPECIAL num = false ->
  (num2int_numeric_is_integral num = true <-> exists z, exact_compare num z = Eq).
Proof.
  intros Hwf Hsp. destruct num as [| | |s w ds]; try discriminate.
  destruct (list_eq_dec Z.eq_dec ds []) as [-> | Hne].
  - split; [intros _; exists 0; rewrite exact_compare_zero; reflexivity | reflexivity].
  - rewrite is_integral_finite by assumption.
    pose proof Hwf as [Hf Hhl]. specialize (Hhl Hne) as [Hh Hl].
    split.
    + intros H. exists (signed s (trunc_magnitude w ds)).
      rewrite exact_compare_spec by assumption.
      destruct (has_fraction_exact w ds); [discriminate|]. apply Z.compare_refl.
    + intros [z Hz]. rewrite exact_compare_spec in Hz by assumption.
      destruct (has_fraction_exact w ds); [|reflexivity].
      cbv zeta in Hz. destruct (_ <? z); discriminate.
Qed.

(** ** Lemmas on the float comparators, continued *)

Lemma round_int_exact p n : 0 < p -> Z.abs n <= 2 ^ p -> round_int p n = n.
Proof.
  intros Hp H. unfold round_int.
  destruct (Z.ltb_spec (Z.abs n) (2 ^ p)) as [_|Hge]; [reflexivity|].
  assert (Ha : Z.abs n = 2 ^ p) by lia. rewrite Ha.
  rewrite Z.log2_pow2 by lia.
  replace (p + 1 - p) with 1 by lia. cbv zeta.
  rewrite Z.pow_1_r, Z.sub_diag, Z.pow_0_r.
  assert (E : 2 ^ p = 2 ^ (p - 1) * 2)
    by (rewrite Z.mul_comm, <- Z.pow_succ_r by lia; f_equal; lia).
  rewrite E, Z.mod_mul, Z.div_mul by lia. cbn [Z.ltb Z.compare].
  rewrite <- E, <- Ha, Z.mul_comm. apply Z.abs_sgn.
Qed.

(** A finite float equal to an integer is its own truncation. *)
Lemma float_cmp_int_eq_trunc f n :
  float_cmp f (FloatFinite n 0) = Some Eq -> float_eq f (float_trunc f) = true.
Proof.
  intros H. pose proof H as H0.
  destruct f as [|[|]|m e]; try discriminate.
  unfold float_trunc.
  destruct (Z.leb_spec 0 e).
  - unfold float_eq, float_cmp. rewrite Z.compare_refl. reflexivity.
  - cbn [float_cmp] in H. rewrite Z.min_l in H by lia.
    injection H as H. apply Z.compare_eq in H.
    rewrite Z.sub_diag, Z.pow_0_r, Z.mul_1_r in H.
    replace (0 - e) with (- e) in H by lia.
    replace (Z.quot m (2 ^ (- e))) with n
      by (rewrite H, Z.quot_mul; [reflexivity | apply Z.pow_nonzero; lia]).
    unfold float_eq. rewrite H0. reflexivity.
Qed.

(** The common tail of the six float comparators against a finite
    operand. *)
Lemma float_std_cmp f x :
  isnan x = false -> isinf x = false ->
  float_special_cmp f
    (if float_lt f x then -1 else if float_gt f x then 1 else 0) =
  match float_cmp f x with Some c => cmp_to_int c | None => 1 end.
Proof.
  intros Hn Hi. destruct x as [|xn|mx ex]; try discriminate.
  destruct f as [|[|]|m e]; try reflexivity.
  unfold float_special_cmp, float_lt, float_gt. cbn [isnan isinf float_cmp].
  destruct (Z.compare _ _); reflexivity.
Qed.

(** A zero result of a float comparator means the float equals the
    integer converted to the float type. *)
Lemma float_special_cmp_zero f k :
  float_special_cmp f k = 0 -> isnan f = false /\ isinf f = false /\ k = 0.
Proof.
  unfold float_special_cmp. destruct (isnan f); [discriminate|].
  destruct (isinf f); [destruct (float_gt f float_zero); discriminate|].
  auto.
Qed.

Lemma float_std_zero f x :
  isnan f = false -> isnan x = false ->
  (if float_lt f x then -1 else if float_gt f x then 1 else 0) = 0 ->
  float_eq f x = true.
Proof.
  intros Hn Hx.
  assert (Hs : float_cmp f x <> None)
    by (destruct f, x; cbn [float_cmp isnan] in *; congruence).
  unfold float_lt, float_gt, float_eq.
  destruct (float_cmp f x) as [[| |]|]; congruence.
Qed.

Ltac float_zero_tac H :=
  first
    [ apply float_std_zero; [assumption | reflexivity | exact H]
    | match type of H with (if ?b then _ else _) = 0 => destruct b end;
      [ repeat match type of H with context [if ?c then _ else _] => destruct c end;
        discriminate
      | float_zero_tac H ] ].

Lemma float_cmp_zero_eq_float4 f n :
  (float4_cmp_int2_internal f n = 0 \/ float4_cmp_int4_internal f n = 0 \/
   float4_cmp_int8_internal f n = 0) ->
  float_eq f (int_to_float4 n) = true.
Proof.
  unfold float4_cmp_int2_internal, float4_cmp_int4_internal, float4_cmp_int8_internal.
  intros [H | [H | H]]; apply float_special_cmp_zero in H as [Hn [_ H]];
    cbv zeta in H; float_zero_tac H.
Qed.

Lemma float_cmp_zero_eq_float8 f n :
  (float8_cmp_int2_internal f n = 0 \/ float8_cmp_int4_internal f n = 0 \/
   float8_cmp_int8_internal f n = 0) ->
  float_eq f (int_to_float8 n) = true.
Proof.
  unfold float8_cmp_int2_internal, float8_cmp_int4_internal, float8_cmp_int8_internal.
  intros [H | [H | H]]; apply float_special_cmp_zero in H as [Hn [_ H]];
    cbv zeta in H; float_zero_tac H.
Qed.

Lemma float_to_int_exact lo hi n :
  lo <= n <= hi -> float_to_int lo hi (FloatFinite n 0) = n.
Proof.
  intros H. unfold float_to_int. cbv beta iota zeta.
  replace (0 <=? 0) with true by reflexivity.
  rewrite Z.pow_0_r, Z.mul_1_r.
  destruct (Z.leb_spec lo n), (Z.leb_spec n hi); try lia; reflexivity.
Qed.

Lemma llabs_small n : Z.abs n <= 2 ^ 53 -> llabs n = Z.abs n.
Proof.
  intros H. unfold llabs.
  destruct (Z.eqb_spec n PG_INT64_MIN); [|reflexivity].
  subst n. vm_compute in H. congruence.
Qed.

(** ** Extras: the float comparators *)

Lemma float_cmp_int_exact_aux f n :
  let r := match float_cmp f (FloatFinite n 0) with
           | Some c => cmp_to_int c | None => 1 end in
  (in_int16 n -> float4_cmp_int2_internal f n = r /\ float8_cmp_int2_internal f n = r) /\
  (in_int32 n -> float8_cmp_int4_internal f n = r) /\
  (Z.abs n <= 2 ^ 24 ->
     float4_cmp_int4_internal f n = r /\ float4_cmp_int8_internal f n = r) /\
  (Z.abs n <= 2 ^ 53 -> float8_cmp_int8_internal f n = r).
Proof.
  cbv zeta.
  assert (H8 : forall n, Z.abs n <= 2 ^ 53 -> int_to_float8 n = FloatFinite n 0)
    by (intros m Hm; unfold int_to_float8; rewrite round_int_exact by lia; reflexivity).
  assert (H4 : forall n, Z.abs n <= 2 ^ 24 -> int_to_float4 n = FloatFinite n 0)
    by (intros m Hm; unfold int_to_float4; rewrite round_int_exact by lia; reflexivity).
  split; [|split; [|split]].
  - intros Hn. unfold in_int16, PG_INT16_MIN, PG_INT16_MAX in Hn.
    unfold float4_cmp_int2_internal, float8_cmp_int2_internal. cbv zeta.
    rewrite H4, H8 by lia. unfold float_to_int16.
    rewrite float_to_int_exact by (unfold PG_INT16_MIN, PG_INT16_MAX; lia).
    rewrite Z.eqb_refl. cbn [negb].
    split; apply float_std_cmp; reflexivity.
  - intros Hn. unfold in_int32, PG_INT32_MIN, PG_INT32_MAX in Hn.
    unfold float8_cmp_int4_internal. cbv zeta.
    rewrite H8 by lia. apply float_std_cmp; reflexivity.
  - intros Hn. unfold float4_cmp_int4_internal, float4_cmp_int8_internal. cbv zeta.
    rewrite H4 by lia. rewrite llabs_small by lia.
    replace (Z.abs n >? 16777216) with false
      by (symmetry; rewrite Z.gtb_ltb; apply Z.ltb_ge; lia).
    cbn [andb]. split; apply float_std_cmp; reflexivity.
  - intros Hn. unfold float8_cmp_int8_internal. cbv zeta.
    rewrite H8 by lia. rewrite llabs_small by lia.
    replace (Z.abs n >? 9007199254740992) with false
      by (symmetry; rewrite Z.gtb_ltb; apply Z.ltb_ge; lia).
    cbn [andb].
    destruct (float_eq f (float_trunc f)) eqn:Et; cbn [negb].
    + apply float_std_cmp; reflexivity.
    + destruct f as [|[|]|m e]; try reflexivity.
      assert (Hne : float_cmp (FloatFinite m e) (FloatFinite n 0) <> Some Eq)
        by (intros Hc; rewrite (float_cmp_int_eq_trunc _ _ Hc) in Et; discriminate).
      unfold float_special_cmp, float_lt. cbn [isnan isinf].
      destruct (float_cmp (FloatFinite m e) (FloatFinite n 0)) as [[| |]|];
        reflexivity || congruence.
Qed.

(** When the integer is exactly representable in the float type (every
    int2; every int4 for float8; magnitudes up to 2^24 for float4 and
    up to 2^53 for float8), each float comparator returns -1, 0 or 1 as
    the float is below, equal to or above the integer, and 1 on NaN. *)
Theorem float_cmp_int_exact f n :
  let r := match float_cmp f (FloatFinite n 0) with
           | Some c => cmp_to_int c | None => 1 end in
  (in_int16 n -> float4_cmp_int2_internal f n = r /\ float8_cmp_int2_internal f n = r) /\
  (in_int32 n -> float8_cmp_int4_internal f n = r) /\
  (Z.abs n <= 2 ^ 24 ->
     float4_cmp_int4_internal f n = r /\ float4_cmp_int8_internal f n = r) /\
  (Z.abs n <= 2 ^ 53 -> float8_cmp_int8_internal f n = r).
Proof. exact (float_cmp_int_exact_aux f n). Qed.

(** Hash opclass consistency of the float operators: given float hash
    functions that agree on equal floats, a float and an integer that
    any [=] operator between them calls equal hash alike through the
    integer-as-float hash functions, unseeded and extended. *)
Theorem float_eq_int_hash_consistent
    (hashfloat4 : Float -> Z) (hashfloat4extended : Float -> Z -> Z)
    (hashfloat8 : Float -> Z) (hashfloat8extended : Float -> Z -> Z) f n seed :
  (forall a b, float_eq a b = true -> hashfloat4 a = hashfloat4 b) ->
  (forall a b s, float_eq a b = true -> hashfloat4extended a s = hashfloat4extended b s) ->
  (forall a b, float_eq a b = true -> hashfloat8 a = hashfloat8 b) ->
  (forall a b s, float_eq a b = true -> hashfloat8extended a s = hashfloat8extended b s) ->
  ((float4_eq_int2 f n = true \/ int2_eq_float4 n f = true) ->
     hashfloat4 f = hash_int2_as_float4 hashfloat4 n /\
     hashfloat4extended f seed = hash_int2_as_float4_extended hashfloat4extended n seed) /\
  ((float4_eq_int4 f n = true \/ int4_eq_float4 n f = true) ->
     hashfloat4 f = hash_int4_as_float4 hashfloat4 n /\
     hashfloat4extended f seed = hash_int4_as_float4_extended hashfloat4extended n seed) /\
  ((float4_eq_int8 f n = true \/ int8_eq_float4 n f = true) ->
     hashfloat4 f = hash_int8_as_float4 hashfloat4 n /\
     hashfloat4extended f seed = hash_int8_as_float4_extended hashfloat4extended n seed) /\
  ((float8_eq_int2 f n = true \/ int2_eq_float8 n f = true) ->
     hashfloat8 f = hash_int2_as_float8 hashfloat8 n /\
     hashfloat8extended f seed = hash_int2_as_float8_extended hashfloat8extended n seed) /\
  ((float8_eq_int4 f n = true \/ int4_eq_float8 n f = true) ->
     hashfloat8 f = hash_int4_as_float8 hashfloat8 n /\
     hashfloat8extended f seed = hash_int4_as_float8_extended hashfloat8extended n seed) /\
  ((float8_eq_int8 f n = true \/ int8_eq_float8 n f = true) ->
     hashfloat8 f = hash_int8_as_float8 hashfloat8 n /\
     hashfloat8extended f seed = hash_int8_as_float8_extended hashfloat8extended n seed).
Proof.
  intros H4 H4e H8 H8e.
  unfold float4_eq_int2, float4_eq_int4, float4_eq_int8, int2_eq_float4, int4_eq_float4,
    int8_eq_float4, float8_eq_int2, float8_eq_int4, float8_eq_int8, int2_eq_float8,
    int4_eq_float8, int8_eq_float8,
    hash_int2_as_float4, hash_int4_as_float4, hash_int8_as_float4,
    hash_int2_as_float4_extended, hash_int4_as_float4_extended,
    hash_int8_as_float4_extended, hash_int2_as_float8, hash_int4_as_float8,
    hash_int8_as_float8, hash_int2_as_float8_extended, hash_int4_as_float8_extended,
    hash_int8_as_float8_extended.
  split; [|split; [|split; [|split; [|split]]]]; intros Hc;
    destruct Hc as [Hc | Hc]; apply Z.eqb_eq in Hc;
    first
      [ pose proof (float_cmp_zero_eq_float4 f n ltac:(auto)) as E;
        split; [apply H4 | apply H4e]; exact E
      | pose proof (float_cmp_zero_eq_float8 f n ltac:(auto)) as E;
        split; [apply H8 | apply H8e]; exact E ].
Qed.

(** ** Extras: the index condition with [<>], and the hash adapters *)

(** A [col <> c] clause whose numeric constant has a fractional part
    becomes the native [col <> floor(c)], with [req->lossy] left false;
    at the column value [floor(c)] that clause is false while the
    original [int <> numeric] function is true. *)
Theorem index_condition_ne_fraction ops opno v c num :
  constvalue c = DNumeric num -> numeric_wf num ->
  classify_operator ops opno = OP_TYPE_NE -> int_type_ok (vartype v) ->
  valid (convert_const_to_int c (vartype v)) = true ->
  has_fraction (convert_const_to_int c (vartype v)) = true ->
  let iv := int_val (convert_const_to_int c (vartype v)) in
  num2int_support_index_condition ops
    (Some {| opexpr_opno := opno; opexpr_args := [ArgVar v; ArgConst c] |}) =
    (false, Some [build_native_opexpr (get_native_op_oid OP_TYPE_NE (vartype v))
                    v iv (vartype v)]) /\
  node_holds (build_native_opexpr (get_native_op_oid OP_TYPE_NE (vartype v))
                v iv (vartype v)) iv = Some false /\
  int_numeric_operator (vartype v) OP_TYPE_NE iv num = true.
Proof.
  intros Ec Hwf Hop Ht Hv Hf iv.
  destruct (convert_numeric_spec c (vartype v) num Ec Hwf Ht) as [Hval _].
  destruct (Hval Hv) as [Hiv Hform].
  split; [|split].
  - unfold num2int_support_index_condition. cbn [opexpr_args opexpr_opno].
    rewrite Hop, Hv, Hf. reflexivity.
  - rewrite native_node_holds by (assumption || discriminate).
    rewrite Z.compare_refl. reflexivity.
  - rewrite int_numeric_operator_exact
      by (apply (in_int_type_int64 _ _ Ht Hiv) || assumption || discriminate).
    fold iv in Hform. rewrite Hform, Hf, Z.ltb_irrefl. reflexivity.
Qed.

Lemma hash_int64_as_numeric_exact hash_any hash_any_extended num n seed :
  numeric_wf num -> exact_compare num n = Eq -> in_int64 n ->
  hash_int64_as_numeric_internal hash_any n = hash_numeric hash_any num /\
  hash_int64_as_numeric_extended_internal hash_any_extended n seed =
    hash_numeric_extended hash_any_extended num seed.
Proof.
  intros Hwf Heq Hn. destruct num as [| | |s w ds]; try discriminate.
  destruct (list_eq_dec Z.eq_dec ds []) as [->|Hne].
  - rewrite exact_compare_zero in Heq. apply Z.compare_eq in Heq. subst n.
    split; reflexivity.
  - destruct (hash_digits_of_numeric s w ds n Hwf Hne Hn Heq) as [Hn0 [Hd Hk]].
    destruct (Hwf) as [_ Hhl]. destruct (Hhl Hne) as [Hh Hl].
    unfold hash_int64_as_numeric_internal, hash_int64_as_numeric_extended_internal,
      hash_numeric, hash_numeric_extended.
    replace (n =? 0) with false by (symmetry; apply Z.eqb_neq; exact Hn0).
    rewrite Hd, count_leading_zeros_nz by exact Hh. cbn [skipn Z.of_nat].
    assert (Hs0 : strip_trailing_zeros ds = ds).
    { pose proof (strip_trailing_zeros_pad ds 0 Hne Hl) as E.
      rewrite app_nil_r in E. exact E. }
    rewrite strip_trailing_zeros_pad, length_app, repeat_length by assumption.
    replace (Z.of_nat (length ds + Z.to_nat (w + 1 - Z.of_nat (length ds))) - 1)
      with (w - 0) by lia.
    destruct ds as [|d r]; [congruence|]. rewrite Hs0. split; reflexivity.
Qed.

(** Hash opclass consistency of the numeric operators: a stored numeric
    and an integer that the [=] operator (either operand order) calls
    equal have the same hash, through [hash_intN_as_numeric] and the
    host's numeric hash, unseeded and extended. *)
Theorem numeric_eq_int_hash_consistent hash_any hash_any_extended num n seed :
  numeric_wf num ->
  (in_int16 n -> (numeric_eq_int2 num n = true \/ int2_eq_numeric n num = true) ->
   hash_int2_as_numeric hash_any n = hash_numeric hash_any num /\
   hash_int2_as_numeric_extended hash_any_extended n seed =
     hash_numeric_extended hash_any_extended num seed) /\
  (in_int32 n -> (numeric_eq_int4 num n = true \/ int4_eq_numeric n num = true) ->
   hash_int4_as_numeric hash_any n = hash_numeric hash_any num /\
   hash_int4_as_numeric_extended hash_any_extended n seed =
     hash_numeric_extended hash_any_extended num seed) /\
  (in_int64 n -> (numeric_eq_int8 num n = true \/ int8_eq_numeric n num = true) ->
   hash_int8_as_numeric hash_any n = hash_numeric hash_any num /\
   hash_int8_as_numeric_extended hash_any_extended n seed =
     hash_numeric_extended hash_any_extended num seed).
Proof.
  intros Hwf.
  assert (Hmain : in_int64 n -> numeric_eq_int64_direct num n = true ->
    hash_int64_as_numeric_internal hash_any n = hash_numeric hash_any num /\
    hash_int64_as_numeric_extended_internal hash_any_extended n seed =
      hash_numeric_extended hash_any_extended num seed).
  { intros Hn He. rewrite numeric_eq_int64_direct_exact in He by assumption.
    apply hash_int64_as_numeric_exact; try assumption.
    destruct (exact_compare num n); [reflexivity | discriminate..]. }
  unfold numeric_eq_int2, numeric_eq_int4, numeric_eq_int8, int2_eq_numeric,
    int4_eq_numeric, int8_eq_numeric, hash_int2_as_numeric, hash_int4_as_numeric,
    hash_int8_as_numeric, hash_int2_as_numeric_extended,
    hash_int4_as_numeric_extended, hash_int8_as_numeric_extended.
  unfold in_int16, in_int32, in_int64, PG_INT16_MIN, PG_INT16_MAX, PG_INT32_MIN,
    PG_INT32_MAX, PG_INT64_MIN, PG_INT64_MAX in *.
  split; [|split]; intros Hn He; apply Hmain; try lia; tauto.
Qed.

(** The integer-as-numeric hash ignores the sign, as the numeric hash
    does: [n] and [-n] hash alike, unseeded and extended. *)
Theorem hash_int_as_numeric_sign_blind hash_any hash_any_extended n seed :
  in_int64 n -> in_int64 (- n) ->
  hash_int64_as_numeric_internal hash_any (- n) =
    hash_int64_as_numeric_internal hash_any n /\
  hash_int64_as_numeric_extended_internal hash_any_extended (- n) seed =
    hash_int64_as_numeric_extended_internal hash_any_extended n seed.
Proof.
  intros Hn Hm. unfold in_int64, PG_INT64_MIN, PG_INT64_MAX in *.
  assert (E : int64_magnitude (- n) = int64_magnitude n).
  { unfold int64_magnitude, PG_INT64_MIN.
    destruct (Z.ltb_spec (- n) 0), (Z.ltb_spec n 0),
      (Z.eqb_spec (- n) (-9223372036854775808)),
      (Z.eqb_spec n (-9223372036854775808)); lia. }
  unfold hash_int64_as_numeric_internal, hash_int64_as_numeric_extended_internal.
  rewrite E.
  destruct (Z.eqb_spec n 0) as [-> | H0]; [split; reflexivity|].
  replace (- n =? 0) with false by (symmetry; apply Z.eqb_neq; lia).
  split; reflexivity.
Qed.

(** ** Lemmas on the floor of a float *)

Lemma float_cmp_int_floor m e k :
  float_cmp (FloatFinite m e) (FloatFinite k 0) =
  Some (let F := if 0 <=? e then m * 2 ^ e else m / 2 ^ (- e) in
        if F <? k then Lt else if k <? F then Gt
        else if float_eq (FloatFinite m e) (float_floor (FloatFinite m e))
             then Eq else Gt).
Proof.
  cbv zeta. unfold float_floor. cbn [float_cmp].
  destruct (Z.leb_spec 0 e).
  - unfold float_eq. cbn [float_cmp]. rewrite Z.compare_refl.
    rewrite Z.min_r by lia. rewrite !Z.sub_0_r, Z.pow_0_r, Z.mul_1_r.
    f_equal. zsplit; reflexivity || lia.
  - rewrite Z.min_l by lia. unfold float_eq. cbn [float_cmp].
    rewrite Z.min_l by lia.
    rewrite !Z.sub_diag, !Z.pow_0_r, !Z.mul_1_r.
    replace (0 - e) with (- e) by lia.
    assert (HP : 0 < 2 ^ (- e)) by (apply Z.pow_pos_nonneg; lia).
    pose proof (Z.div_mod m (2 ^ (- e)) ltac:(lia)) as Hd.
    pose proof (Z.mod_pos_bound m (2 ^ (- e)) HP) as Hr.
    set (P := 2 ^ (- e)) in *. set (q := m / P) in *. set (r := m mod P) in *.
    clearbody P q r. subst m.
    f_equal.
    repeat (zsplit; cbn beta iota); try reflexivity; nia.
Qed.

Lemma float_cmp_floor_int m e k :
  float_cmp (float_floor (FloatFinite m e)) (FloatFinite k 0) =
  Some (Z.compare (if 0 <=? e then m * 2 ^ e else m / 2 ^ (- e)) k).
Proof.
  unfold float_floor.
  destruct (Z.leb_spec 0 e); cbn [float_cmp].
  - rewrite Z.min_r by lia. rewrite !Z.sub_0_r, Z.pow_0_r, Z.mul_1_r. reflexivity.
  - rewrite Z.min_r by lia. rewrite !Z.sub_0_r, Z.pow_0_r, !Z.mul_1_r. reflexivity.
Qed.

Lemma float_to_int_floor lo hi m e :
  float_to_int lo hi (float_floor (FloatFinite m e)) =
  let F := if 0 <=? e then m * 2 ^ e else m / 2 ^ (- e) in
  if (lo <=? F) && (F <=? hi) then F else lo.
Proof.
  unfold float_floor. cbv zeta.
  destruct (Z.leb_spec 0 e); unfold float_to_int.
  - replace (0 <=? e) with true by (symmetry; apply Z.leb_le; lia). reflexivity.
  - replace (0 <=? 0) with true by reflexivity.
    rewrite Z.pow_0_r, Z.mul_1_r. reflexivity.
Qed.

(** ** Extras: float constants in the planner rewrites *)

(** The conversion of a finite float constant where the range bounds are
    exact in the float type (float8 for an int2 or int4 column, float4
    for an int2 column) always succeeds or reports an overflow; a valid
    result is the floor of the constant, inside the column range, with
    [has_fraction] set exactly when the constant is not that integer; an
    overflow direction means the constant lies above (below) every value
    of the column type. *)
Theorem convert_float_floor c t d :
  constisnull c = false ->
  ((constvalue c = DFloat8 d /\ (t = INT2OID \/ t = INT4OID)) \/
   (constvalue c = DFloat4 d /\ t = INT2OID)) ->
  isnan d = false -> isinf d = false ->
  (valid (convert_const_to_int c t) = true ->
     in_int_type t (int_val (convert_const_to_int c t)) /\
     float_cmp d (FloatFinite (int_val (convert_const_to_int c t)) 0) <> Some Lt /\
     float_cmp d (FloatFinite (int_val (convert_const_to_int c t) + 1) 0) = Some Lt /\
     (has_fraction (convert_const_to_int c t) = true <->
      float_cmp d (FloatFinite (int_val (convert_const_to_int c t)) 0) <> Some Eq)) /\
  (out_of_range_high (convert_const_to_int c t) = true ->
     forall x, in_int_type t x -> float_cmp d (FloatFinite x 0) = Some Gt) /\
  (out_of_range_low (convert_const_to_int c t) = true ->
     forall x, in_int_type t x -> float_cmp d (FloatFinite x 0) = Some Lt) /\
  valid (convert_const_to_int c t) || out_of_range_high (convert_const_to_int c t) ||
    out_of_range_low (convert_const_to_int c t) = true.
Proof.
  intros Hnull Hc Hn Hi. destruct d as [|neg|m e]; try discriminate.
  unfold convert_const_to_int. rewrite Hnull.
  destruct Hc as [[Ec [-> | ->]] | [Ec ->]]; rewrite Ec; cbn [isnan isinf orb];
    oid_eqb;
    change FLOAT8_INT16_MIN with (FloatFinite (-32768) 0);
    change FLOAT8_INT16_MAX with (FloatFinite 32767 0);
    change FLOAT8_INT32_MIN with (FloatFinite (-2147483648) 0);
    change FLOAT8_INT32_MAX with (FloatFinite 2147483647 0);
    change FLOAT4_INT16_MIN with (FloatFinite (-32768) 0);
    change FLOAT4_INT16_MAX with (FloatFinite 32767 0);
    unfold float_to_int16, float_to_int32, float_lt, float_gt;
    rewrite !float_cmp_int_floor, !float_cmp_floor_int, !float_to_int_floor;
    cbv zeta;
    set (F := if 0 <=? e then m * 2 ^ e else m / 2 ^ (- e));
    set (b := float_eq (FloatFinite m e) (float_floor (FloatFinite m e)));
    assert (Hcmp : forall k, float_cmp (FloatFinite m e) (FloatFinite k 0) =
      Some (if F <? k then Lt else if k <? F then Gt else if b then Eq else Gt))
      by (intros k; apply float_cmp_int_floor);
    clearbody F b;
    unfold conv_range, PG_INT16_MIN, PG_INT16_MAX, PG_INT32_MIN,
    PG_INT32_MAX;
    repeat (zsplit; cbn beta iota);
    cbn [valid has_fraction out_of_range_high out_of_range_low int_val] in *;
    repeat match goal with
           | |- _ /\ _ => split
           | |- _ = true -> _ => intro
           | |- forall _, _ => intro
           end;
    try discriminate; try reflexivity;
    unfold in_int_type in *; oid_eqb;
    unfold in_int16, in_int32, PG_INT16_MIN, PG_INT16_MAX, PG_INT32_MIN,
      PG_INT32_MAX in *;
    rewrite ?Hcmp; destruct b; cbn [negb] in *; repeat (zsplit; cbn beta iota);
    try split; try congruence; lia.
Qed.

(** ** Lemmas on float constants in the planner rewrites *)

(** Every [int op float] function with an integer exactly representable
    in the float type reads the comparison of the float with the integer,
    NaN counting as greater. *)
Lemma int_float_operator_exact ft t op x d :
  ((ft = FLOAT8OID /\ (t = INT2OID \/ t = INT4OID)) \/
   (ft = FLOAT4OID /\ t = INT2OID)) ->
  in_int_type t x -> op <> OP_TYPE_UNKNOWN ->
  int_float_operator ft t op x d =
  cmp_holds op (CompOpp (match float_cmp d (FloatFinite x 0) with
                         | Some c => c | None => Gt end)).
Proof.
  intros Ht Hx Hop.
  destruct (float_cmp_int_exact_aux d x) as [H2 [H4 _]].
  destruct Ht as [[-> [-> | ->]] | [-> ->]]; unfold in_int_type in Hx; oid_eqb.
  - assert (Hc : float8_cmp_int2_internal d x =
                 match float_cmp d (FloatFinite x 0) with
                 | Some c => cmp_to_int c | None => 1 end) by apply (H2 Hx).
    unfold int_float_operator; oid_eqb.
    destruct op; try contradiction;
      unfold int2_eq_float8, int2_ne_float8, int2_lt_float8, int2_gt_float8,
        int2_le_float8, int2_ge_float8;
      rewrite Hc; destruct (float_cmp d (FloatFinite x 0)) as [[| |]|]; reflexivity.
  - assert (Hc : float8_cmp_int4_internal d x =
                 match float_cmp d (FloatFinite x 0) with
                 | Some c => cmp_to_int c | None => 1 end) by apply (H4 Hx).
    unfold int_float_operator; oid_eqb.
    destruct op; try contradiction;
      unfold int4_eq_float8, int4_ne_float8, int4_lt_float8, int4_gt_float8,
        int4_le_float8, int4_ge_float8;
      rewrite Hc; destruct (float_cmp d (FloatFinite x 0)) as [[| |]|]; reflexivity.
  - assert (Hc : float4_cmp_int2_internal d x =
                 match float_cmp d (FloatFinite x 0) with
                 | Some c => cmp_to_int c | None => 1 end) by apply (H2 Hx).
    unfold int_float_operator; oid_eqb.
    destruct op; try contradiction;
      unfold int2_eq_float4, int2_ne_float4, int2_lt_float4, int2_gt_float4,
        int2_le_float4, int2_ge_float4;
      rewrite Hc; destruct (float_cmp d (FloatFinite x 0)) as [[| |]|]; reflexivity.
Qed.

(** The conversion of a finite float constant, in the form the
    simplifier proof uses: a valid result gives the comparison of the
    constant with every integer. *)
Lemma convert_float_spec c t d :
  ((constvalue c = DFloat8 d /\ (t = INT2OID \/ t = INT4OID)) \/
   (constvalue c = DFloat4 d /\ t = INT2OID)) ->
  (valid (convert_const_to_int c t) = true ->
     in_int_type t (int_val (convert_const_to_int c t)) /\
     forall x, float_cmp d (FloatFinite x 0) =
       Some (if has_fraction (convert_const_to_int c t)
             then (if int_val (convert_const_to_int c t) <? x then Lt else Gt)
             else Z.compare (int_val (convert_const_to_int c t)) x)) /\
  (out_of_range_high (convert_const_to_int c t) = true ->
     forall x, in_int_type t x -> float_cmp d (FloatFinite x 0) = Some Gt) /\
  (out_of_range_low (convert_const_to_int c t) = true ->
     forall x, in_int_type t x -> float_cmp d (FloatFinite x 0) = Some Lt).
Proof.
  intros Hc. unfold convert_const_to_int.
  destruct (constisnull c).
  { refine (conj _ (conj _ _)); intros ?; discriminate. }
  destruct d as [|neg|m e].
  { destruct Hc as [[Ec _] | [Ec _]]; rewrite Ec; cbn [isnan isinf orb];
      refine (conj _ (conj _ _)); intros ?; discriminate. }
  { destruct Hc as [[Ec _] | [Ec _]]; rewrite Ec; cbn [isnan isinf orb];
      refine (conj _ (conj _ _)); intros ?; discriminate. }
  destruct Hc as [[Ec [-> | ->]] | [Ec ->]]; rewrite Ec; cbn [isnan isinf orb];
    oid_eqb;
    change FLOAT8_INT16_MIN with (FloatFinite (-32768) 0);
    change FLOAT8_INT16_MAX with (FloatFinite 32767 0);
    change FLOAT8_INT32_MIN with (FloatFinite (-2147483648) 0);
    change FLOAT8_INT32_MAX with (FloatFinite 2147483647 0);
    change FLOAT4_INT16_MIN with (FloatFinite (-32768) 0);
    change FLOAT4_INT16_MAX with (FloatFinite 32767 0);
    unfold float_to_int16, float_to_int32, float_lt, float_gt;
    rewrite !float_cmp_floor_int, !float_to_int_floor;
    cbv zeta;
    set (F := if 0 <=? e then m * 2 ^ e else m / 2 ^ (- e));
    set (b := float_eq (FloatFinite m e) (float_floor (FloatFinite m e)));
    assert (Hcmp : forall k, float_cmp (FloatFinite m e) (FloatFinite k 0) =
      Some (if F <? k then Lt else if k <? F then Gt else if b then Eq else Gt))
      by (intros k; apply float_cmp_int_floor);
    clearbody F b;
    unfold conv_range, PG_INT16_MIN, PG_INT16_MAX, PG_INT32_MIN, PG_INT32_MAX;
    repeat (zsplit; cbn beta iota);
    cbn [valid has_fraction out_of_range_high out_of_range_low int_val] in *;
    repeat match goal with
           | |- _ /\ _ => split
           | |- _ = true -> _ => intro
           | |- forall _, _ => intro
           end;
    try discriminate;
    unfold in_int_type in *; oid_eqb;
    unfold in_int16, in_int32, PG_INT16_MIN, PG_INT16_MAX, PG_INT32_MIN,
      PG_INT32_MAX in *;
    rewrite ?Hcmp; destruct b; cbn [negb] in *; repeat (zsplit; cbn beta iota);
    try reflexivity; lia.
Qed.

(** On every row, a [col op c] call with a float8
    constant on an int2 or int4 column, or a float4 constant on an int2
    column, when [SupportRequestSimplify] replaces it, is replaced by an
    expression of the same value as the original [intN op floatM]
    function. *)
Theorem simplify_float_sound ops fid v c d opno op node x :
  ((constvalue c = DFloat8 d /\ (vartype v = INT2OID \/ vartype v = INT4OID)) \/
   (constvalue c = DFloat4 d /\ vartype v = INT2OID)) ->
  find_operator_by_funcid ops fid = (opno, op) -> op <> OP_TYPE_UNKNOWN ->
  in_int_type (vartype v) x ->
  num2int_support_simplify ops
    {| fcall_funcid := fid; args := [ArgVar v; ArgConst c] |} = Some node ->
  node_holds node x = Some (int_float_operator (consttype c) (vartype v) op x d).
Proof.
  intros Hc Hfind Hop Hx.
  assert (Ht : int_type_ok (vartype v))
    by (unfold int_type_ok; destruct Hc as [[_ [-> | ->]] | [_ ->]]; auto).
  pose proof (in_int_type_max _ _ Ht Hx) as Hxm.
  rewrite int_float_operator_exact
    by (try assumption; destruct Hc as [[Ec Ht'] | [Ec Ht']];
        unfold consttype; rewrite Ec; auto).
  destruct (convert_float_spec c (vartype v) d Hc) as [Hval [Hhi Hlo]].
  pose proof (convert_direction c (vartype v)) as Hdir.
  unfold num2int_support_simplify. cbn [args fcall_funcid].
  destruct (constisnull c); [discriminate|]. rewrite Hfind.
  destruct (opno =? InvalidOid); [discriminate|].
  set (conv := convert_const_to_int c (vartype v)) in *.
  destruct (out_of_range_high conv) eqn:Eh, (out_of_range_low conv) eqn:El;
    cbn [orb andb negb] in *; [discriminate| | |].
  - rewrite (Hhi eq_refl x Hx). destruct op; try contradiction; intros Hs;
      injection Hs as <-; reflexivity.
  - rewrite (Hlo eq_refl x Hx). destruct op; try contradiction; intros Hs;
      injection Hs as <-; reflexivity.
  - destruct (valid conv) eqn:Ev; [|discriminate]. cbn [negb].
    destruct (Hval eq_refl) as [Hiv Hform]. rewrite Hform. cbv beta iota.
    pose proof (in_int_type_max _ _ Ht Hiv) as Hivm.
    set (iv := int_val conv) in *.
    destruct op; try contradiction;
      destruct (has_fraction conv) eqn:Ef;
      unfold compute_range_transform; rewrite ?Ef, ?Z.geb_leb;
      try destruct (Z.leb_spec (type_max (vartype v)) iv);
      cbv beta iota; intros Hs; apply some_inv in Hs; subst node;
      try rewrite native_node_holds
        by (assumption || discriminate || (apply in_int_type_succ; assumption || lia));
      cmp_finish.
Qed.

(** For a [col op c] clause with a float8 constant on an int2 or int4
    column, or a float4 constant on an int2 column, and an operator other
    than [<>], a non-NULL answer of the [SupportRequestIndexCondition]
    branch is one native clause on the same column, marked not lossy, and
    it holds on a row exactly when the original [intN op floatM] function
    returns true. *)
Theorem index_condition_float_sound ops opno v c d x lossy l :
  ((constvalue c = DFloat8 d /\ (vartype v = INT2OID \/ vartype v = INT4OID)) \/
   (constvalue c = DFloat4 d /\ vartype v = INT2OID)) ->
  classify_operator ops opno <> OP_TYPE_NE ->
  in_int_type (vartype v) x ->
  num2int_support_index_condition ops
    (Some {| opexpr_opno := opno; opexpr_args := [ArgVar v; ArgConst c] |}) =
    (lossy, Some l) ->
  lossy = false /\
  exists n, l = [n] /\
    (exists opno' t k, n = OpExprNode opno' v t k) /\
    node_holds n x = Some (int_float_operator (consttype c) (vartype v)
                             (classify_operator ops opno) x d).
Proof.
  intros Hc Hne Hx.
  assert (Ht : int_type_ok (vartype v))
    by (unfold int_type_ok; destruct Hc as [[_ [-> | ->]] | [_ ->]]; auto).
  assert (Hft : (consttype c = FLOAT8OID /\
                 (vartype v = INT2OID \/ vartype v = INT4OID)) \/
                (consttype c = FLOAT4OID /\ vartype v = INT2OID))
    by (destruct Hc as [[Ec Ht'] | [Ec Ht']]; unfold consttype; rewrite Ec; auto).
  pose proof (in_int_type_max _ _ Ht Hx) as Hxm.
  pose proof (type_max_in _ Ht) as Hmax.
  destruct (convert_float_spec c (vartype v) d Hc) as [Hval _].
  unfold num2int_support_index_condition. cbn [opexpr_args opexpr_opno].
  destruct (classify_operator ops opno) eqn:Eop; try contradiction;
    [intros Hs; apply pair_inv in Hs as [_ Hs]; discriminate|..];
    rewrite int_float_operator_exact by (assumption || discriminate);
    set (conv := convert_const_to_int c (vartype v)) in *;
    (destruct (valid conv) eqn:Ev;
       [|intros Hs; apply pair_inv in Hs as [_ Hs]; discriminate]);
    destruct (Hval eq_refl) as [Hiv Hform]; rewrite Hform; cbv beta iota;
    pose proof (in_int_type_max _ _ Ht Hiv) as Hivm;
    set (iv := int_val conv) in *;
    destruct (has_fraction conv) eqn:Ef; cbn [negb andb];
    try (intros Hs; apply pair_inv in Hs as [_ Hs]; discriminate);
    unfold compute_range_transform; rewrite ?Ef, ?Z.geb_leb;
    try destruct (Z.leb_spec (type_max (vartype v)) iv);
    cbv beta iota; intros Hs; apply pair_inv in Hs as [<- Hs];
    apply some_inv in Hs; subst l;
    (split; [reflexivity|]); eexists; (split; [reflexivity|]);
    (split; [unfold build_native_opexpr; destruct (make_int_const _ _); eauto|]);
    rewrite native_node_holds
      by (assumption || discriminate || (apply in_int_type_succ; assumption || lia));
    cmp_finish.
Qed.

(** ** Instances of the extras *)

Ltac in_type_tac :=
  unfold int_type_ok, in_int_type; cbn [vartype col]; oid_eqb;
  unfold in_int16, in_int32, in_int64, PG_INT16_MIN, PG_INT16_MAX,
    PG_INT32_MIN, PG_INT32_MAX, PG_INT64_MIN, PG_INT64_MAX;
  first [lia | auto].

Lemma simplify_numeric_sound_witness :
  node_holds (OpExprNode NUM2INT_INT4GE_OID (col INT4OID) INT4OID 11) 11 =
  Some (int_numeric_operator INT4OID OP_TYPE_GT 11 num_10_5).
Proof.
  apply (simplify_numeric_sound sample_ops 91004 (col INT4OID) (numeric_const num_10_5)
           num_10_5 90004 OP_TYPE_GT);
    [reflexivity | exact (numeric_wfb_sound num_10_5 eq_refl) | reflexivity
    | discriminate | in_type_tac | in_type_tac | vm_compute; reflexivity].
Defined.

Lemma simplify_const_var_swapped_witness :
  node_holds (OpExprNode NUM2INT_INT4GE_OID (col INT4OID) INT4OID 11) 11 =
    Some (int_numeric_operator INT4OID OP_TYPE_GT 11 num_10_5) /\
  numeric_lt_int4 num_10_5 11 = true.
Proof.
  destruct (simplify_const_var_swapped sample_ops 91004 (col INT4OID)
              (numeric_const num_10_5) num_10_5 90004 OP_TYPE_GT
              (OpExprNode NUM2INT_INT4GE_OID (col INT4OID) INT4OID 11) 11)
    as [H [_ H']];
    [reflexivity | exact (numeric_wfb_sound num_10_5 eq_refl) | reflexivity
    | discriminate | in_type_tac | in_type_tac | vm_compute; reflexivity |].
  split; assumption.
Defined.

Lemma index_condition_numeric_sound_witness :
  node_holds (OpExprNode NUM2INT_INT4GE_OID (col INT4OID) INT4OID 11) 11 =
  Some (int_numeric_operator INT4OID OP_TYPE_GT 11 num_10_5).
Proof.
  destruct (index_condition_numeric_sound sample_ops 90004 (col INT4OID)
              (numeric_const num_10_5) num_10_5 11 false
              [OpExprNode NUM2INT_INT4GE_OID (col INT4OID) INT4OID 11])
    as [_ [n [Hl [_ Hn]]]];
    [reflexivity | exact (numeric_wfb_sound num_10_5 eq_refl) | discriminate
    | in_type_tac | in_type_tac | vm_compute; reflexivity |].
  injection Hl as <-. exact Hn.
Defined.


Lemma index_condition_ne_fraction_witness :
  num2int_support_index_condition sample_ops
    (Some {| opexpr_opno := 90002;
             opexpr_args := [ArgVar (col INT4OID); ArgConst (numeric_const num_10_5)] |}) =
    (false, Some [build_native_opexpr (get_native_op_oid OP_TYPE_NE INT4OID)
                    (col INT4OID) 10 INT4OID]) /\
  int_numeric_operator INT4OID OP_TYPE_NE 10 num_10_5 = true.
Proof.
  destruct (index_condition_ne_fraction sample_ops 90002 (col INT4OID)
              (numeric_const num_10_5) num_10_5)
    as [H [_ H']];
    [reflexivity | exact (numeric_wfb_sound num_10_5 eq_refl) | reflexivity
    | in_type_tac | vm_compute; reflexivity | vm_compute; reflexivity |].
  split; [exact H | exact H'].
Defined.

Lemma numeric_operators_exact_witness :
  int_numeric_operator INT4OID OP_TYPE_LT 10 num_10_5 =
    cmp_holds OP_TYPE_LT (CompOpp (exact_compare num_10_5 10)) /\
  int4_cmp_numeric 10 num_10_5 = cmp_to_int (CompOpp (exact_compare num_10_5 10)).
Proof.
  destruct (numeric_operators_exact num_10_5 10) as [_ [H [_ [_ [_ [_ [H' _]]]]]]];
    [exact (numeric_wfb_sound num_10_5 eq_refl) | in_type_tac |].
  split; [apply H; discriminate | exact H'].
Defined.

Lemma numeric_eq_agrees_with_cmp_witness :
  numeric_eq_int64_direct num_10_5 10 = (numeric_cmp_int64_direct num_10_5 10 =? 0).
Proof.
  apply numeric_eq_agrees_with_cmp;
    [exact (numeric_wfb_sound num_10_5 eq_refl) | in_type_tac].
Defined.

Lemma to_int64_exact_witness :
  num2int_numeric_to_int64 num_10_0 = Some 10.
Proof.
  apply (to_int64_exact num_10_0 10 (numeric_wfb_sound num_10_0 eq_refl)).
  split; [in_type_tac | vm_compute; reflexivity].
Defined.

Lemma floor_to_int64_is_floor_witness :
  num2int_numeric_floor_to_int64 num_10_5 = Some 10.
Proof.
  apply (floor_to_int64_is_floor num_10_5 10 (numeric_wfb_sound num_10_5 eq_refl) eq_refl).
  split; [in_type_tac | split; [vm_compute; discriminate | vm_compute; reflexivity]].
Defined.

Lemma convert_numeric_floor_witness :
  exact_compare num_10_5 (int_val (convert_const_to_int (numeric_const num_10_5) INT4OID) + 1)
  = Lt.
Proof.
  destruct (convert_numeric_floor (numeric_const num_10_5) INT4OID num_10_5)
    as [H _];
    [reflexivity | exact (numeric_wfb_sound num_10_5 eq_refl) | in_type_tac |].
  apply H. vm_compute. reflexivity.
Defined.

Lemma numeric_sign_exact_witness :
  num2int_numeric_sign num_10_5 = cmp_to_int (exact_compare num_10_5 0).
Proof.
  exact (numeric_sign_exact num_10_5 (numeric_wfb_sound num_10_5 eq_refl) eq_refl).
Defined.

Lemma numeric_is_integral_exact_witness :
  num2int_numeric_is_integral num_10_0 = true.
Proof.
  apply (numeric_is_integral_exact num_10_0 (numeric_wfb_sound num_10_0 eq_refl) eq_refl).
  exists 10. vm_compute. reflexivity.
Defined.

Lemma float_cmp_int_exact_witness :
  float4_cmp_int4_internal (FloatFinite 5 1) 10 = 0.
Proof.
  destruct (float_cmp_int_exact (FloatFinite 5 1) 10) as [_ [_ [H _]]].
  destruct H as [H _]; [lia|]. rewrite H. vm_compute. reflexivity.
Defined.

Lemma float_eq_int_hash_consistent_witness :
  float8_eq_int4 (FloatFinite 5 1) 10 = true /\
  (fun _ : Float => 0) (FloatFinite 5 1) =
  hash_int4_as_float8 (fun _ : Float => 0) 10.
Proof.
  split; [vm_compute; reflexivity|].
  destruct (float_eq_int_hash_consistent (fun _ => 0) (fun _ _ => 0) (fun _ => 0)
              (fun _ _ => 0) (FloatFinite 5 1) 10 42)
    as [_ [_ [_ [_ [H _]]]]]; [intros; reflexivity .. |].
  apply H. left. vm_compute. reflexivity.
Defined.

Lemma numeric_eq_int_hash_consistent_witness :
  hash_int4_as_numeric (fun l => fold_left (fun a d => a * 31 + d) l 7) 10 =
  hash_numeric (fun l => fold_left (fun a d => a * 31 + d) l 7) num_10_0.
Proof.
  destruct (numeric_eq_int_hash_consistent
              (fun l => fold_left (fun a d => a * 31 + d) l 7)
              (fun l s => fold_left (fun a d => a * 31 + d) l s)
              num_10_0 10 42 (numeric_wfb_sound num_10_0 eq_refl)) as [_ [H _]].
  apply H; [in_type_tac | left; vm_compute; reflexivity].
Defined.

Lemma hash_int_as_numeric_sign_blind_witness :
  hash_int64_as_numeric_internal (fun l => fold_left (fun a d => a * 31 + d) l 7) (- 5) =
  hash_int64_as_numeric_internal (fun l => fold_left (fun a d => a * 31 + d) l 7) 5.
Proof.
  apply (hash_int_as_numeric_sign_blind
           (fun l => fold_left (fun a d => a * 31 + d) l 7)
           (fun l s => fold_left (fun a d => a * 31 + d) l s) 5 42);
    in_type_tac.
Defined.

Lemma convert_float_floor_witness :
  float_cmp (FloatFinite 21 (-1))
    (FloatFinite (int_val (convert_const_to_int (float8_const (FloatFinite 21 (-1))) INT4OID) + 1) 0)
  = Some Lt.
Proof.
  destruct (convert_float_floor (float8_const (FloatFinite 21 (-1))) INT4OID
              (FloatFinite 21 (-1))) as [H _];
    [reflexivity | left; split; [reflexivity | right; reflexivity]
    | reflexivity | reflexivity |].
  apply H. vm_compute. reflexivity.
Defined.

Lemma simplify_float_sound_witness :
  node_holds (OpExprNode NUM2INT_INT4GE_OID (col INT4OID) INT4OID 11) 11 =
  Some (int_float_operator FLOAT8OID INT4OID OP_TYPE_GT 11 (FloatFinite 21 (-1))).
Proof.
  apply (simplify_float_sound sample_ops 91004 (col INT4OID)
           (float8_const (FloatFinite 21 (-1))) (FloatFinite 21 (-1)) 90004 OP_TYPE_GT);
    [left; split; [reflexivity | right; reflexivity] | reflexivity | discriminate
    | in_type_tac | vm_compute; reflexivity].
Defined.

Lemma index_condition_float_sound_witness :
  node_holds (OpExprNode NUM2INT_INT4GE_OID (col INT4OID) INT4OID 11) 11 =
  Some (int_float_operator FLOAT8OID INT4OID OP_TYPE_GT 11 (FloatFinite 21 (-1))).
Proof.
  destruct (index_condition_float_sound sample_ops 90004 (col INT4OID)
              (float8_const (FloatFinite 21 (-1))) (FloatFinite 21 (-1)) 11 false
              [OpExprNode NUM2INT_INT4GE_OID (col INT4OID) INT4OID 11])
    as [_ [n [Hl [_ Hn]]]];
    [left; split; [reflexivity | right; reflexivity] | discriminate
    | in_type_tac | vm_compute; reflexivity |].
  injection Hl as <-. exact Hn.
Defined.
